(** * The credential and request-lifecycle subsystem of the gsuite MCP server

    A shallow embedding of [src/oauth/token-manager.ts] (class
    [TokenManager]), [src/oauth/google-oauth-client.ts] (class
    [GoogleOAuthClient]), of the handlers of [src/index.ts] with the
    tables of the tool groups of [src/tools], and of [src/config.ts],
    followed by the properties the specification states about them and by
    further properties of the code.

    Asynchronous methods become state-passing computations over a [World]
    that holds everything the code reads or changes outside its own
    variables: the clock, the token directory, the platform keychain, the
    identity of the machine, and the authorization server together with a
    log of the calls made on it.  Exceptions are explicit results.  The
    JavaScript runtime services the code calls but does not define
    ([JSON], [crypto]) are the methods of the class [Runtime]; what is
    assumed of them is the class [RuntimeLaws]. *)

From Stdlib Require Import ZArith NArith Lia Strings.Byte Strings.Ascii Strings.String.
From Stdlib Require DecimalZ DecimalPos.
From stdpp Require Import base gmap strings list.

Local Open Scope string_scope.
Local Open Scope list_scope.

(** ** JavaScript values *)

(** A property declared [name?: T | null]: absent, [null], or a value. *)
Inductive optional (A : Type) : Type :=
| undefined
| null
| value (a : A).
Arguments undefined {A}.
Arguments null {A}.
Arguments value {A} a.

(** Truthiness of an optional string: [!!s]. *)
Definition truthy_string (s : optional string) : bool :=
  match s with
  | value s => negb (String.eqb s "")
  | _ => false
  end.

(** [n || 0] on an optional number. *)
Definition or_zero (n : optional Z) : Z :=
  match n with
  | value n => n
  | _ => 0%Z
  end.

(** [interface OAuth2Tokens], declared alike in both modules. *)
Record OAuth2Tokens : Type := {
  access_token : optional string;
  refresh_token : optional string;
  expiry_date : optional Z;
  scope : optional string;
  token_type : optional string
}.

(** Exceptions.  [Error m] is an object built by [new Error(m)] in the
    code under study; [Raised callee m] is an exception object that came
    out of the runtime or of a library ([callee] names the origin).  Both
    answer [error.message]. *)
Inductive exn : Type :=
| Error (message : string)
| Raised (callee : string) (message : string).

(** [error instanceof Error ? error.message : String(error)] *)
Definition errorMessage (e : exn) : string :=
  match e with
  | Error m => m
  | Raised _ m => m
  end.

(** The settlement of a promise: fulfilled, rejected, or never settled
    (the last is also what a recursion that has used up its fuel
    reports). *)
Inductive result (A : Type) : Type :=
| Ok (a : A)
| Throw (e : exn)
| Pending.
Arguments Ok {A} a.
Arguments Throw {A} e.
Arguments Pending {A}.

(** ** JSON documents *)

#[local] Set Warnings "-register-all".
Inductive json : Type :=
| JNull
| JBool (b : bool)
| JNum (n : Z)
| JStr (s : string)
| JArr (items : list json)
| JObj (members : list (string * json)).

Fixpoint assoc (k : string) (members : list (string * json)) : option json :=
  match members with
  | [] => None
  | (k', v) :: rest => if String.eqb k k' then Some v else assoc k rest
  end.

(** A property read [j.k]: a [TypeError] on [null], [undefined] ([None])
    on a missing key and on every value that is not an object. *)
Definition prop (j : json) (k : string) : exn + option json :=
  match j with
  | JNull => inl (Raised "TypeError" ("Cannot read properties of null (reading '" +:+ k +:+ "')"))
  | JObj members => inr (assoc k members)
  | _ => inr None
  end.

(** What [JSON.stringify] is given for a credential: the properties that
    are not [undefined]. *)
Definition member {A} (k : string) (inj : A → json) (v : optional A) : list (string * json) :=
  match v with
  | undefined => []
  | null => [(k, JNull)]
  | value a => [(k, inj a)]
  end.

Definition tokens_to_json (t : OAuth2Tokens) : json :=
  JObj (member "access_token" JStr (access_token t)
        ++ member "refresh_token" JStr (refresh_token t)
        ++ member "expiry_date" JNum (expiry_date t)
        ++ member "scope" JStr (scope t)
        ++ member "token_type" JStr (token_type t)).

(** A parsed document seen at the type the code gives it.  Values that
    are not objects have no properties, so every field is [undefined];
    [null] has no properties to read at all.  An object one of whose five
    fields holds a value outside its declared type is not a value of the
    interface, and the model has no credential for it; what the code
    does with the document itself is followed by [getTokens_document]
    below. *)
Definition string_field (o : option json) : option (optional string) :=
  match o with
  | None => Some undefined
  | Some JNull => Some null
  | Some (JStr s) => Some (value s)
  | Some _ => None
  end.

Definition number_field (o : option json) : option (optional Z) :=
  match o with
  | None => Some undefined
  | Some JNull => Some null
  | Some (JNum n) => Some (value n)
  | Some _ => None
  end.

Definition fields_of (members : list (string * json)) : option OAuth2Tokens :=
  match string_field (assoc "access_token" members),
        string_field (assoc "refresh_token" members),
        number_field (assoc "expiry_date" members),
        string_field (assoc "scope" members),
        string_field (assoc "token_type" members) with
  | Some a, Some r, Some e, Some s, Some t =>
      Some {| access_token := a; refresh_token := r; expiry_date := e;
              scope := s; token_type := t |}
  | _, _, _, _, _ => None
  end.

Definition tokens_of_json (j : json) : exn + OAuth2Tokens :=
  match j with
  | JNull => inl (Raised "TypeError" "Cannot read properties of null (reading 'access_token')")
  | JObj members =>
      match fields_of members with
      | Some t => inr t
      | None => inl (Raised "TypeError" "not an OAuth2Tokens object")
      end
  | _ => inr {| access_token := undefined; refresh_token := undefined;
                expiry_date := undefined; scope := undefined;
                token_type := undefined |}
  end.

(** A document of the declared type: an object whose five fields, where
    present, hold [null] or a value of their type. *)
Definition declared (j : json) : Prop :=
  match j with
  | JObj members => is_Some (fields_of members)
  | _ => False
  end.

(** ** Buffers and their hexadecimal encoding *)

Definition Buffer : Type := list byte.

Definition hex_digits : string := "0123456789abcdef".

Definition hex_digit (n : N) : ascii :=
  match String.get (N.to_nat n) hex_digits with
  | Some c => c
  | None => "0"%char
  end.

(** [buf.toString('hex')]: two lower-case digits per byte. *)
Definition hex_of_byte (b : byte) : string :=
  String (hex_digit (Byte.to_N b / 16)) (String (hex_digit (Byte.to_N b mod 16)) EmptyString).

Fixpoint Buffer_toString_hex (b : Buffer) : string :=
  match b with
  | [] => EmptyString
  | x :: rest => hex_of_byte x +:+ Buffer_toString_hex rest
  end.

(** The value of a hexadecimal digit, in either case. *)
Definition hex_value (c : ascii) : option N :=
  let n := N_of_ascii c in
  if (48 <=? n)%N && (n <=? 57)%N then Some (n - 48)%N
  else if (97 <=? n)%N && (n <=? 102)%N then Some (n - 87)%N
  else if (65 <=? n)%N && (n <=? 70)%N then Some (n - 55)%N
  else None.

Definition byte_of_digits (hi lo : N) : byte :=
  match Byte.of_N (16 * hi + lo) with
  | Some b => b
  | None => x00
  end.

(** [Buffer.from(s, 'hex')]: decoding reads pairs of digits and stops at
    the first pair that is not hexadecimal, or at a single trailing
    character. *)
Fixpoint Buffer_from_hex (s : string) : Buffer :=
  match s with
  | String a (String b rest) =>
      match hex_value a, hex_value b with
      | Some hi, Some lo => byte_of_digits hi lo :: Buffer_from_hex rest
      | _, _ => []
      end
  | _ => []
  end.

(** [s.length], the number of UTF-16 code units of a string, counted on
    its UTF-8 bytes: a continuation byte adds nothing, the first byte of a
    sequence of four adds two, every other first byte one. *)
Definition utf16_units (c : ascii) : nat :=
  let n := N_of_ascii c in
  if (n <? 128)%N then 1
  else if (n <? 192)%N then 0
  else if (n <? 240)%N then 1
  else 2.

Fixpoint utf16_length (s : string) : nat :=
  match s with
  | EmptyString => 0
  | String c rest => utf16_units c + utf16_length rest
  end.

(** A string given to [decipher.update] with the encoding ['hex']: one
    of odd length is refused; one of even length is decoded as
    [Buffer.from] does. *)
Definition hex_input (s : string) : option Buffer :=
  if Nat.even (utf16_length s) then Some (Buffer_from_hex s) else None.

(** Strings of the model are byte strings, read as UTF-8 text: encoding
    to a buffer and decoding from it change nothing. *)
Definition Buffer_from_utf8 (s : string) : Buffer := list_byte_of_string s.
Definition Buffer_toString_utf8 (b : Buffer) : string := string_of_list_byte b.

(** ** The world outside the process *)

(** What reaches the local callback listener during one interactive
    authorization: the HTTP requests handed to its request handler, given
    by the [code] and [error] parameters of their query string (each
    absent or given once; a parameter that is repeated reaches the code as
    an array and is outside the model), and the firing of the timer.
    [server.close()] stops new connections only, so requests can still
    reach the handler after it, over connections that were open before. *)
Inductive callback_event : Type :=
| Request (code error : option string)
| TimerFired.

Record World : Type := {
  (** [Date.now()], milliseconds since the epoch *)
  now : N;
  (** [os.homedir()], [os.hostname()], [os.userInfo().username] *)
  homedir : string;
  hostname : string;
  username : string;
  (** regular files by path, and the error (if any) with which reads,
      writes and removals currently fail.  Directories are not part of
      the state: a write into a directory that is not there (the token
      directory is made by the constructor, which does not wait for it)
      is a write that fails *)
  files : gmap string string;
  fs_fault : option string;
  (** the platform keychain behind [keytar], by service and account;
      [inl m] when the module cannot be loaded or used (error [m]) *)
  keytar : string + gmap (string * string) string;
  (** the random source behind [crypto.randomBytes]: byte [i] of the
      [k]-th draw, and the draws made *)
  random : nat → nat → byte;
  draws : nat;
  (** refreshing, which is the work of google-auth-library: the answer
      to the [k]-th call of [oauth2Client.refreshAccessToken] made with a
      given refresh token, and the refresh tokens of the calls made so
      far.  How many requests the library sends for these calls is its own
      matter *)
  refresh_endpoint : nat → string → string + OAuth2Tokens;
  refresh_calls : list string;
  (** the interactive flow: what reaches the listener during the [k]-th
      authorization, the answer of the token endpoint to an authorization
      code, and the number of authorizations started *)
  consent : nat → list callback_event;
  code_endpoint : string → string + OAuth2Tokens;
  authorize_calls : nat
}.

Definition set_files (f : gmap string string) (w : World) : World :=
  {| now := now w; homedir := homedir w; hostname := hostname w;
     username := username w; files := f; fs_fault := fs_fault w;
     keytar := keytar w; random := random w; draws := draws w;
     refresh_endpoint := refresh_endpoint w; refresh_calls := refresh_calls w;
     consent := consent w; code_endpoint := code_endpoint w;
     authorize_calls := authorize_calls w |}.

Definition set_keytar (k : string + gmap (string * string) string) (w : World) : World :=
  {| now := now w; homedir := homedir w; hostname := hostname w;
     username := username w; files := files w; fs_fault := fs_fault w;
     keytar := k; random := random w; draws := draws w;
     refresh_endpoint := refresh_endpoint w; refresh_calls := refresh_calls w;
     consent := consent w; code_endpoint := code_endpoint w;
     authorize_calls := authorize_calls w |}.

Definition set_draws (n : nat) (w : World) : World :=
  {| now := now w; homedir := homedir w; hostname := hostname w;
     username := username w; files := files w; fs_fault := fs_fault w;
     keytar := keytar w; random := random w; draws := n;
     refresh_endpoint := refresh_endpoint w; refresh_calls := refresh_calls w;
     consent := consent w; code_endpoint := code_endpoint w;
     authorize_calls := authorize_calls w |}.

Definition set_refresh_calls (l : list string) (w : World) : World :=
  {| now := now w; homedir := homedir w; hostname := hostname w;
     username := username w; files := files w; fs_fault := fs_fault w;
     keytar := keytar w; random := random w; draws := draws w;
     refresh_endpoint := refresh_endpoint w; refresh_calls := l;
     consent := consent w; code_endpoint := code_endpoint w;
     authorize_calls := authorize_calls w |}.

Definition set_authorize_calls (n : nat) (w : World) : World :=
  {| now := now w; homedir := homedir w; hostname := hostname w;
     username := username w; files := files w; fs_fault := fs_fault w;
     keytar := keytar w; random := random w; draws := draws w;
     refresh_endpoint := refresh_endpoint w; refresh_calls := refresh_calls w;
     consent := consent w; code_endpoint := code_endpoint w;
     authorize_calls := n |}.

(** ** Computations *)

Definition M (A : Type) : Type := World → result A * World.

Definition ret {A} (a : A) : M A := fun w => (Ok a, w).

Definition throw {A} (e : exn) : M A := fun w => (Throw e, w).

Definition bind {A B} (c : M A) (k : A → M B) : M B :=
  fun w =>
    match c w with
    | (Ok a, w') => k a w'
    | (Throw e, w') => (Throw e, w')
    | (Pending, w') => (Pending, w')
    end.

(** [try { c } catch (error) { h error }] *)
Definition try_catch {A} (c : M A) (h : exn → M A) : M A :=
  fun w =>
    match c w with
    | (Throw e, w') => h e w'
    | r => r
    end.

(** A synchronous step that may throw. *)
Definition lift {A} (r : exn + A) : M A :=
  match r with
  | inl e => throw e
  | inr a => ret a
  end.

(** [w'] holds the same stored data as [w], on the same machine. *)
Definition same_storage (w w' : World) : Prop :=
  homedir w' = homedir w ∧ hostname w' = hostname w ∧ username w' = username w ∧
  files w' = files w ∧ fs_fault w' = fs_fault w ∧ keytar w' = keytar w.

(** A computation that leaves the world as it found it, settles, and
    whose outcome depends on the stored data only. *)
Definition readonly {A} (c : M A) : Prop :=
  ∀ w, snd (c w) = w ∧ fst (c w) ≠ Pending ∧
       ∀ w', same_storage w w' → fst (c w') = fst (c w).

(** [w'] differs from [w] in stored data at most: the token directory,
    the keychain and the random draws used up. *)
Definition storage_only (w w' : World) : Prop :=
  now w' = now w ∧ homedir w' = homedir w ∧ hostname w' = hostname w ∧
  username w' = username w ∧ fs_fault w' = fs_fault w ∧ random w' = random w ∧
  refresh_endpoint w' = refresh_endpoint w ∧ refresh_calls w' = refresh_calls w ∧
  consent w' = consent w ∧ code_endpoint w' = code_endpoint w ∧
  authorize_calls w' = authorize_calls w.

(** [w'] is the machine of [w] with its keychain as it is in [w]; the
    files may differ. *)
Definition same_keychain (w w' : World) : Prop :=
  homedir w' = homedir w ∧ hostname w' = hostname w ∧ username w' = username w ∧
  fs_fault w' = fs_fault w ∧ keytar w' = keytar w.

(** A computation that leaves the world as it found it and reads no
    file. *)
Definition fileless {A} (c : M A) : Prop :=
  ∀ w, snd (c w) = w ∧ ∀ w', same_keychain w w' → fst (c w') = fst (c w).

(** stdpp's notations [x ← c; k] and [c;; k] stand for [bind]. *)
#[export] Instance M_ret : MRet M := @ret.
#[export] Instance M_bind : MBind M := fun A B k c => bind c k.

(** *** The file system ([fs-extra]) *)

Definition fs_pathExists (path : string) : M bool :=
  fun w => (Ok (bool_decide (is_Some (files w !! path))), w).

Definition fs_readFile (path : string) : M string :=
  fun w =>
    match fs_fault w, files w !! path with
    | Some m, _ => (Throw (Raised "fs" m), w)
    | None, Some content => (Ok content, w)
    | None, None => (Throw (Raised "fs" "ENOENT: no such file or directory"), w)
    end.

(** [fs.writeFile]: the file is created or overwritten.  That the
    directory it lies in is missing is one of the faults. *)
Definition fs_writeFile (path content : string) : M unit :=
  fun w =>
    match fs_fault w with
    | Some m => (Throw (Raised "fs" m), w)
    | None => (Ok tt, set_files (<[path := content]> (files w)) w)
    end.

(** [fs.remove]: removing what is not there is not an error. *)
Definition fs_remove (path : string) : M unit :=
  fun w =>
    match fs_fault w with
    | Some m => (Throw (Raised "fs" m), w)
    | None => (Ok tt, set_files (delete path (files w)) w)
    end.

(** *** Paths ([path.join], POSIX) *)

(** The segments of a path between its separators. *)
Fixpoint path_segments (path : string) : list string :=
  match path with
  | EmptyString => [""]
  | String c rest =>
      if Ascii.eqb c "/" then "" :: path_segments rest
      else
        match path_segments rest with
        | segment :: more => String c segment :: more
        | [] => [String c ""]
        end
  end.

(** [normalizeString]: empty segments and [.] are dropped; [..] removes
    the segment before it, stays at the root of an absolute path, and is
    kept at the head of a relative one.  [res] holds the segments so far,
    the last one first. *)
Fixpoint normalizeString (allowAboveRoot : bool) (res segments : list string) : list string :=
  match segments with
  | [] => reverse res
  | segment :: rest =>
      if String.eqb segment "" || String.eqb segment "." then
        normalizeString allowAboveRoot res rest
      else if String.eqb segment ".." then
        match res with
        | last :: before =>
            if String.eqb last ".." then
              normalizeString allowAboveRoot
                (if allowAboveRoot then ".." :: res else res) rest
            else normalizeString allowAboveRoot before rest
        | [] =>
            normalizeString allowAboveRoot (if allowAboveRoot then [".."] else []) rest
        end
      else normalizeString allowAboveRoot (segment :: res) rest
  end.

Definition ends_with_slash (path : string) : bool :=
  match last (path_segments path) with
  | Some segment => String.eqb segment ""
  | None => false
  end.

(** [path.normalize] *)
Definition path_normalize (path : string) : string :=
  if String.eqb path "" then "."
  else
    let isAbsolute := String.prefix "/" path in
    let trailingSeparator := ends_with_slash path in
    let normalized :=
      String.concat "/" (normalizeString (negb isAbsolute) [] (path_segments path)) in
    if String.eqb normalized "" then
      if isAbsolute then "/" else if trailingSeparator then "./" else "."
    else
      (if isAbsolute then "/" else "")
      +:+ normalized +:+ (if trailingSeparator then "/" else "").

(** [path.join(...args)]: the arguments that are not empty, joined by a
    separator and normalised. *)
Definition path_join_all (args : list string) : string :=
  match filter (fun arg => arg ≠ "") args with
  | [] => "."
  | joined => path_normalize (String.concat "/" joined)
  end.

Definition path_join (dir name : string) : string := path_join_all [dir; name].

(** A name without a separator in it. *)
Definition plain_name (name : string) : bool :=
  forallb (fun c => negb (Ascii.eqb c "/")) (list_ascii_of_string name).

(** *** The keychain ([keytar]) *)

Definition keytar_setPassword (service account password : string) : M unit :=
  fun w =>
    match keytar w with
    | inl m => (Throw (Raised "keytar" m), w)
    | inr k => (Ok tt, set_keytar (inr (<[(service, account) := password]> k)) w)
    end.

(** [getPassword] wants two strings and answers [null] ([None]) when the
    entry does not exist.  (What it says when it refuses its arguments is
    never seen: [decryptFromKeychain] re-wraps it and [decryptTokenData]
    drops it.) *)
Definition keytar_getPassword (service account : option json) : M (option string) :=
  fun w =>
    match keytar w with
    | inl m => (Throw (Raised "keytar" m), w)
    | inr k =>
        match service, account with
        | Some (JStr s), Some (JStr a) => (Ok (k !! (s, a)), w)
        | Some (JStr _), _ => (Throw (Raised "keytar" "Parameter 'username' must be a string"), w)
        | _, _ => (Throw (Raised "keytar" "Parameter 'service' must be a string"), w)
        end
    end.

(** [deletePassword] answers whether there was an entry to delete. *)
Definition keytar_deletePassword (service account : string) : M bool :=
  fun w =>
    match keytar w with
    | inl m => (Throw (Raised "keytar" m), w)
    | inr k =>
        (Ok (bool_decide (is_Some (k !! (service, account)))),
         set_keytar (inr (delete (service, account) k)) w)
    end.

(** *** Randomness *)

(** The first [size] bytes of the [k]-th draw. *)
Definition randomBytes (w : World) (k size : nat) : Buffer :=
  map (random w k) (seq 0 size).

(** The [k]-th draw as the 16 bytes that the file cipher asks for. *)
Definition entropy (w : World) (k : nat) : Buffer := randomBytes w k 16.

#[global] Arguments randomBytes : simpl never.
#[global] Arguments entropy : simpl never.

(** [crypto.randomBytes(size)] *)
Definition crypto_randomBytes (size : nat) : M Buffer :=
  fun w => (Ok (randomBytes w (draws w) size), set_draws (S (draws w)) w).

(** ** The runtime services *)

(** [JSON.stringify] and [JSON.parse] ([inl m]: a [SyntaxError] with
    message [m]); [crypto.pbkdf2Sync password salt iterations keylen
    digest]; AES-256-GCM as driven through [createCipheriv] /
    [createDecipheriv]: [gcm_encrypt key iv plaintext] is the ciphertext
    and the authentication tag, [gcm_decrypt key iv tag ciphertext] the
    plaintext, or [inl m] when any of [createDecipheriv], [setAuthTag],
    [update] and [final] throws (message [m]). *)
Class Runtime : Type := {
  JSON_stringify : json → string;
  JSON_parse : string → string + json;
  pbkdf2Sync : string → string → N → N → string → Buffer;
  gcm_encrypt : Buffer → Buffer → Buffer → Buffer * Buffer;
  gcm_decrypt : Buffer → Buffer → Buffer → Buffer → string + Buffer
}.

(** ** [class TokenManager] *)

Record TokenManager : Type := { provider : string }.

(** [constructor(provider?)]: [this.provider = provider || 'default'].
    The directory itself ([ensureTokenDirectory]) is not modelled: the
    world has files only. *)
Definition new_TokenManager (provider : option string) : TokenManager :=
  match provider with
  | Some p => if String.eqb p "" then {| provider := "default" |} else {| provider := p |}
  | None => {| provider := "default" |}
  end.

(** [reference.type === 'keychain'] *)
Definition is_keychain (type : option json) : bool :=
  match type with
  | Some (JStr s) => String.eqb s "keychain"
  | _ => false
  end.

(** [!tokenData] on the answer of [getPassword] *)
Definition no_data (tokenData : option string) : bool :=
  match tokenData with
  | Some d => String.eqb d ""
  | None => true
  end.

(** The record of the file cipher:
    [{ type: 'file', iv: ..., authTag: ..., data: ... }]. *)
Definition envelope (iv authTag data : string) : json :=
  JObj [("type", JStr "file"); ("iv", JStr iv); ("authTag", JStr authTag); ("data", JStr data)].

(** The record of the keychain:
    [{ type: 'keychain', service: ..., account: ... }]. *)
Definition keychain_reference (service account : string) : json :=
  JObj [("type", JStr "keychain"); ("service", JStr service); ("account", JStr account)].

Section TokenManager.
Context `{Runtime}.
Variable this : TokenManager.

(** [JSON.parse(text)] *)
Definition parse (text : string) : M json :=
  match JSON_parse text with
  | inl m => throw (Raised "SyntaxError" m)
  | inr j => mret j
  end.

(** [Buffer.from(x, 'hex')] on a property just read: a string is
    decoded, anything else is refused.  (Node also accepts an array of
    numbers here; a record that holds one is outside the model.) *)
Definition Buffer_from (x : option json) : M Buffer :=
  match x with
  | Some (JStr s) => mret (Buffer_from_hex s)
  | _ => throw (Raised "TypeError" "The first argument must be of type string")
  end.

(** [decipher.update(x, 'hex', 'utf8')] on a property just read, as far
    as its input goes: what is not a string is refused, and so is a string
    of odd length.  (The messages are shortened.) *)
Definition decipher_update (x : option json) : M Buffer :=
  match x with
  | Some (JStr s) =>
      match hex_input s with
      | Some data => mret data
      | None => throw (Raised "TypeError" "The argument 'encoding' is invalid for data of odd length")
      end
  | _ => throw (Raised "TypeError" "The data argument must be of type string")
  end.

(** [this.tokenPath = path.join(os.homedir(), '.mcp', `${this.provider}-tokens`)]
    followed by [path.join(this.tokenPath, `${userId}.json`)] *)
Definition tokenPath (w : World) : string :=
  path_join_all [homedir w; ".mcp"; provider this +:+ "-tokens"].

Definition tokenFile (userId : string) : M string :=
  fun w => (Ok (path_join (tokenPath w) (userId +:+ ".json")), w).

(** [getDerivedKey] *)
Definition getDerivedKey : M Buffer :=
  fun w =>
    let systemInfo := hostname w +:+ "-" +:+ username w in
    (Ok (pbkdf2Sync "mcp-oauth" systemInfo 100000 32 "sha512"), w).

(** The key as a value, for statements about it. *)
Definition derived_key (w : World) : Buffer :=
  match fst (getDerivedKey w) with
  | Ok key => key
  | _ => []
  end.

(** [encryptTokenDataFile] *)
Definition encryptTokenDataFile (tokens : OAuth2Tokens) : M string :=
  key ← getDerivedKey;
  iv ← crypto_randomBytes 16;
  let '(encrypted, authTag) :=
    gcm_encrypt key iv (Buffer_from_utf8 (JSON_stringify (tokens_to_json tokens))) in
  mret (JSON_stringify (envelope (Buffer_toString_hex iv)
                                 (Buffer_toString_hex authTag)
                                 (Buffer_toString_hex encrypted))).

(** [decryptTokenDataFile].  What [createDecipheriv], [setAuthTag],
    [update] and [final] do with the bytes they are given is the one
    [gcm_decrypt]; of two failures, a bad [data] and a refusal by the
    cipher, the model reports the bad [data]. *)
Definition decryptTokenDataFile (encryptedData : string) : M OAuth2Tokens :=
  key ← getDerivedKey;
  encrypted ← parse encryptedData;
  iv ← (x ← lift (prop encrypted "iv"); Buffer_from x);
  authTag ← (x ← lift (prop encrypted "authTag"); Buffer_from x);
  data ← (x ← lift (prop encrypted "data"); decipher_update x);
  match gcm_decrypt key iv authTag data with
  | inl m => throw (Raised "crypto" m)
  | inr decrypted =>
      j ← parse (Buffer_toString_utf8 decrypted);
      lift (tokens_of_json j)
  end.

(** [encryptWithKeychain] *)
Definition encryptWithKeychain (tokens : OAuth2Tokens) : M string :=
  try_catch
    (let serviceName := "mcp-oauth-tokens" in
     let accountName := provider this +:+ "-default" in
     let serializedData := JSON_stringify (tokens_to_json tokens) in
     keytar_setPassword serviceName accountName serializedData;;
     mret (JSON_stringify (keychain_reference serviceName accountName)))
    (fun error => throw (Error ("Keychain encryption failed: " +:+ errorMessage error))).

(** [decryptFromKeychain] *)
Definition decryptFromKeychain (reference : json) : M OAuth2Tokens :=
  try_catch
    (service ← lift (prop reference "service");
     account ← lift (prop reference "account");
     tokenData ← keytar_getPassword service account;
     if no_data tokenData then throw (Error "No data found in keychain")
     else
       j ← parse (default "" tokenData);
       lift (tokens_of_json j))
    (fun error => throw (Error ("Keychain decryption failed: " +:+ errorMessage error))).

(** [encryptTokenData]: the keychain first, the file cipher on any
    failure. *)
Definition encryptTokenData (tokens : OAuth2Tokens) : M string :=
  try_catch (encryptWithKeychain tokens)
            (fun _ => encryptTokenDataFile tokens).

(** [decryptTokenData] *)
Definition decryptTokenData (encryptedData : string) : M OAuth2Tokens :=
  try_catch
    (reference ← parse encryptedData;
     type ← lift (prop reference "type");
     if is_keychain type then decryptFromKeychain reference
     else decryptTokenDataFile encryptedData)
    (fun _ => decryptTokenDataFile encryptedData).

(** [storeTokens] *)
Definition storeTokens (tokens : OAuth2Tokens) (userId : string) : M unit :=
  tokenFile ← tokenFile userId;
  try_catch
    (encryptedData ← encryptTokenData tokens;
     fs_writeFile tokenFile encryptedData)
    (fun error => throw (Error ("Token storage failed: " +:+ errorMessage error))).

(** [getTokens] *)
Definition getTokens (userId : string) : M (option OAuth2Tokens) :=
  tokenFile ← tokenFile userId;
  found ← fs_pathExists tokenFile;
  if negb found then mret None
  else
    try_catch
      (encryptedData ← fs_readFile tokenFile;
       tokens ← decryptTokenData encryptedData;
       mret (Some tokens))
      (fun _ => mret None).

(** *** What is loaded, before it is taken for a credential

    [JSON.parse] returns whatever document the text holds, and nothing
    checks it against [OAuth2Tokens].  The functions above carry the type
    the code declares; those below are the same functions with the
    document they return at run time. *)

(** [decryptTokenDataFile], up to its [return JSON.parse(decrypted)] *)
Definition decryptTokenDataFile_document (encryptedData : string) : M json :=
  key ← getDerivedKey;
  encrypted ← parse encryptedData;
  iv ← (x ← lift (prop encrypted "iv"); Buffer_from x);
  authTag ← (x ← lift (prop encrypted "authTag"); Buffer_from x);
  data ← (x ← lift (prop encrypted "data"); decipher_update x);
  match gcm_decrypt key iv authTag data with
  | inl m => throw (Raised "crypto" m)
  | inr decrypted => parse (Buffer_toString_utf8 decrypted)
  end.

(** [decryptFromKeychain], up to its [return JSON.parse(tokenData)] *)
Definition decryptFromKeychain_document (reference : json) : M json :=
  try_catch
    (service ← lift (prop reference "service");
     account ← lift (prop reference "account");
     tokenData ← keytar_getPassword service account;
     if no_data tokenData then throw (Error "No data found in keychain")
     else parse (default "" tokenData))
    (fun error => throw (Error ("Keychain decryption failed: " +:+ errorMessage error))).

(** [decryptTokenData] *)
Definition decryptTokenData_document (encryptedData : string) : M json :=
  try_catch
    (reference ← parse encryptedData;
     type ← lift (prop reference "type");
     if is_keychain type then decryptFromKeychain_document reference
     else decryptTokenDataFile_document encryptedData)
    (fun _ => decryptTokenDataFile_document encryptedData).

(** The preview that [getTokens] logs,
    [tokens.access_token ? tokens.access_token.substring(0, 12) + '...' : 'null'],
    as far as it can fail: [null] has no property to read, and of the
    truthy values only a string has a method [substring]. *)
Definition token_preview (tokens : json) : M unit :=
  access_token ← lift (prop tokens "access_token");
  match access_token with
  | None | Some JNull | Some (JBool false) | Some (JStr _) => mret tt
  | Some (JNum n) =>
      if (n =? 0)%Z then mret tt
      else throw (Raised "TypeError" "tokens.access_token.substring is not a function")
  | Some _ => throw (Raised "TypeError" "tokens.access_token.substring is not a function")
  end.

(** [getTokens]: the document is returned as it is, [null] when the
    preview could not be made. *)
Definition getTokens_document (userId : string) : M (option json) :=
  tokenFile ← tokenFile userId;
  found ← fs_pathExists tokenFile;
  if negb found then mret None
  else
    try_catch
      (encryptedData ← fs_readFile tokenFile;
       tokens ← decryptTokenData_document encryptedData;
       token_preview tokens;;
       mret (Some tokens))
      (fun _ => mret None).

End TokenManager.

Section TokenDeletion.
Variable this : TokenManager.

(** [deleteFromKeychain]: whatever goes wrong is ignored. *)
Definition deleteFromKeychain (userId : string) : M unit :=
  try_catch
    (let serviceName := "mcp-oauth-tokens" in
     let accountName := provider this +:+ "-" +:+ userId in
     keytar_deletePassword serviceName accountName;;
     mret tt)
    (fun _ => mret tt).

(** [deleteTokens] *)
Definition deleteTokens (userId : string) : M unit :=
  tokenFile ← tokenFile this userId;
  try_catch
    (found ← fs_pathExists tokenFile;
     (if found : bool return M unit then fs_remove tokenFile else mret tt);;
     deleteFromKeychain userId)
    (fun error => throw (Error ("Token deletion failed: " +:+ errorMessage error))).

End TokenDeletion.

(** ** The local callback listener ([startCallbackServer]) *)

(** The promise returned by [startCallbackServer]. *)
Inductive settlement : Type :=
| Unsettled
| Resolved (code : string)
| Rejected (e : exn).

(** The listener: [server.listening] (true from [listen] until
    [close] is called), the promise, the delay (ms) of the timer while it
    is armed, and the status codes answered so far. *)
Record callback_server : Type := {
  listening : bool;
  promise : settlement;
  timer : option N;
  replies : list N
}.

(** [resolve] and [reject] act on an unsettled promise only. *)
Definition settle (outcome p : settlement) : settlement :=
  match p with
  | Unsettled => outcome
  | _ => p
  end.

(** A query parameter is truthy when it is present and not empty. *)
Definition truthy_param (p : option string) : option string :=
  match p with
  | Some s => if String.eqb s "" then None else Some s
  | None => None
  end.

(** The request handler given to [http.createServer].  It looks at the
    query string only, not at whether the promise is settled or the server
    closed: every request handed to it is answered. *)
Definition on_request (code error : option string) (s : callback_server) : callback_server :=
  match truthy_param code, truthy_param error with
  | Some c, _ =>
      {| listening := false; promise := settle (Resolved c) (promise s);
         timer := timer s; replies := replies s ++ [200%N] |}
  | None, Some e =>
      {| listening := false;
         promise := settle (Rejected (Error ("OAuth authorization failed: " +:+ e))) (promise s);
         timer := timer s; replies := replies s ++ [400%N] |}
  | None, None =>
      {| listening := listening s; promise := promise s;
         timer := timer s; replies := replies s ++ [400%N] |}
  end.

(** The callback given to [setTimeout]; a timer fires once. *)
Definition on_timer (s : callback_server) : callback_server :=
  match timer s with
  | Some _ =>
      {| listening := false;
         promise := settle (Rejected (Error "OAuth authorization timeout")) (promise s);
         timer := None; replies := replies s |}
  | None => s
  end.

Definition deliver (s : callback_server) (ev : callback_event) : callback_server :=
  match ev with
  | Request code error => on_request code error s
  | TimerFired => on_timer s
  end.

(** A request that carries neither a code nor an error. *)
Definition ignored (ev : callback_event) : Prop :=
  match ev with
  | Request code error => truthy_param code = None ∧ truthy_param error = None
  | TimerFired => False
  end.

(** The status with which the handler answers a request. *)
Definition answered (ev : callback_event) : option N :=
  match ev with
  | Request code error =>
      Some (match truthy_param code with Some _ => 200%N | None => 400%N end)
  | TimerFired => None
  end.

(** The state [startCallbackServer] sets up: the server listens and the
    timer is armed with [5 * 60 * 1000] ms. *)
Definition callback_server_started : callback_server :=
  {| listening := true; promise := Unsettled;
     timer := Some (5 * 60 * 1000)%N; replies := [] |}.

Definition run_callback_server (events : list callback_event) : callback_server :=
  foldl deliver callback_server_started events.

(** What [await] sees of a promise. *)
Definition awaited (p : settlement) : result string :=
  match p with
  | Unsettled => Pending
  | Resolved c => Ok c
  | Rejected e => Throw e
  end.

(** ** [class GoogleOAuthClient] *)

(** [!s] on an optional string, with the string when it is truthy. *)
Definition truthy (s : optional string) : option string :=
  match s with
  | value s => if String.eqb s "" then None else Some s
  | _ => None
  end.

(** [oauth2Client.setCredentials({ refresh_token }); oauth2Client.refreshAccessToken()]:
    one call of the library, logged when it is made. *)
Definition refreshAccessToken (refreshToken : string) : M OAuth2Tokens :=
  fun w =>
    let k := length (refresh_calls w) in
    let w' := set_refresh_calls (refresh_calls w ++ [refreshToken]) w in
    match refresh_endpoint w k refreshToken with
    | inl m => (Throw (Raised "google-auth-library" m), w')
    | inr credentials => (Ok credentials, w')
    end.

(** [oauth2Client.getToken(authCode)] *)
Definition getToken (authCode : string) : M OAuth2Tokens :=
  fun w =>
    match code_endpoint w authCode with
    | inl m => (Throw (Raised "google-auth-library" m), w)
    | inr tokens => (Ok tokens, w)
    end.

(** [startCallbackServer], together with the browser opened beside it:
    the listener is driven by what the user and the clock do during this
    authorization. *)
Definition startCallbackServer : M string :=
  fun w =>
    let k := authorize_calls w in
    (awaited (promise (run_callback_server (consent w k))),
     set_authorize_calls (S k) w).

Section GoogleOAuthClient.
Context `{Runtime}.

(** [this.tokenManager = new TokenManager()] *)
Definition tokenManager : TokenManager := new_TokenManager None.

(** [isTokenExpired] *)
Definition isTokenExpired (tokens : OAuth2Tokens) : M bool :=
  fun w =>
    let buffer := (5 * 60 * 1000)%Z in
    let expiryTime := or_zero (expiry_date tokens) in
    (Ok (Z.of_N (now w) + buffer >=? expiryTime)%Z, w).

(** [exchangeCodeForTokens] *)
Definition exchangeCodeForTokens (authCode : string) : M unit :=
  tokens ← getToken authCode;
  storeTokens tokenManager tokens "default".

(** [authorize] *)
Definition authorize : M unit :=
  authCode ← startCallbackServer;
  exchangeCodeForTokens authCode.

(** [refreshTokens] *)
Definition refreshTokens (refreshToken : string) : M OAuth2Tokens :=
  credentials ← refreshAccessToken refreshToken;
  storeTokens tokenManager credentials "default";;
  mret credentials.

(** [getValidAccessToken].  The method calls itself after an
    authorization; [fuel] bounds the number of calls. *)
Fixpoint getValidAccessToken (fuel : nat) : M string :=
  match fuel with
  | O => fun w => (Pending, w)
  | S fuel =>
      tokens ← getTokens tokenManager "default";
      match tokens : option OAuth2Tokens return M string with
      | None =>
          authorize;;
          getValidAccessToken fuel
      | Some tokens =>
          expired ← isTokenExpired tokens;
          if expired : bool return M string then
            match truthy (refresh_token tokens) with
            | None => throw (Error "No refresh token available for token refresh")
            | Some refresh_token =>
                refreshedTokens ← refreshTokens refresh_token;
                match truthy (access_token refreshedTokens) with
                | None => throw (Error "Failed to refresh access token")
                | Some access_token => mret access_token
                end
            end
          else
            match truthy (access_token tokens) with
            | None => throw (Error "No access token available")
            | Some access_token => mret access_token
            end
      end
  end.

(** [isAuthenticated] *)
Definition isAuthenticated : M bool :=
  try_catch
    (tokens ← getTokens tokenManager "default";
     match tokens with
     | None => mret false
     | Some tokens =>
         match truthy (access_token tokens) with
         | None => mret false
         | Some _ =>
             expired ← isTokenExpired tokens;
             mret (negb expired)
         end
     end)
    (fun _ => mret false).

End GoogleOAuthClient.

Section Revocation.
Context `{Runtime}.

(** [oauth2Client.revokeToken(token)]: a request to the revocation
    endpoint of the authorization server. *)
Variable revokeToken : string → M unit.

(** [revokeTokens] *)
Definition revokeTokens : M unit :=
  tokens ← getTokens tokenManager "default";
  match tokens ≫= (fun tokens : OAuth2Tokens => truthy (access_token tokens))
        return M unit with
  | Some access_token => try_catch (revokeToken access_token) (fun _ => mret tt)
  | None => mret tt
  end;;
  deleteTokens tokenManager "default".

End Revocation.

(** ** The request tracker *)

Module RequestTracker.

(** The signal of an [AbortController]: [abort(reason)] triggers it
    once, later calls change nothing. *)
Inductive AbortSignal : Type :=
| NotAborted
| Aborted (reason : option string).

Definition abort (reason : option string) (s : AbortSignal) : AbortSignal :=
  match s with
  | NotAborted => Aborted reason
  | Aborted _ => s
  end.

Definition aborted (s : AbortSignal) : bool :=
  match s with
  | NotAborted => false
  | Aborted _ => true
  end.

(** Modelled from the spec: the Request Context of section 3 (the file
    [src/services/request-tracker.ts] is not part of the sources; its
    callers in [src/index.ts] read [context.abortController.signal]). *)
Record RequestContext : Type := {
  requestId : string;
  toolName : string;
  progressToken : option string;
  abortController : AbortSignal;
  registeredAt : N
}.

Definition with_signal (s : AbortSignal) (c : RequestContext) : RequestContext :=
  {| requestId := requestId c; toolName := toolName c;
     progressToken := progressToken c; abortController := s;
     registeredAt := registeredAt c |}.

(** Modelled from the spec: [registerRequest] of section 4.3, which
    creates and stores a new context and fails with
    [DuplicateRequestId] if the identifier is already registered. *)
Definition registerRequest (id : string) (token : option string) (tool : string) (at_ : N)
    (registry : gmap string RequestContext) : exn + RequestContext * gmap string RequestContext :=
  match registry !! id with
  | Some _ => inl (Error "DuplicateRequestId")
  | None =>
      let context := {| requestId := id; toolName := tool; progressToken := token;
                        abortController := NotAborted; registeredAt := at_ |} in
      inr (context, <[id := context]> registry)
  end.

(** Modelled from the spec: [cancelRequest] of section 4.3, which looks
    up the context; if present, triggers its cancellation source with
    the supplied reason and returns true; if absent, returns false
    without error. *)
Definition cancelRequest (id : string) (reason : option string)
    (registry : gmap string RequestContext) : bool * gmap string RequestContext :=
  match registry !! id with
  | Some context =>
      (true, <[id := with_signal (abort reason (abortController context)) context]> registry)
  | None => (false, registry)
  end.

(** Modelled from the spec: [cleanup] of section 4.3, which
    unconditionally removes the context. *)
Definition cleanup (id : string) (registry : gmap string RequestContext)
    : gmap string RequestContext :=
  delete id registry.

End RequestTracker.

(** ** The handlers of [src/index.ts] *)

(** The server as far as cancellation goes: the tracker's registry and
    the events handed to the logger. *)
Record Server : Type := {
  requestTracker : gmap string RequestTracker.RequestContext;
  logged : list string
}.

(** The handler of [CancelledNotificationSchema]
    ([setupNotificationHandlers]). *)
Definition on_cancelled (id : string) (reason : option string) (s : Server) : Server :=
  let log1 := logged s ++ ["CANCELLATION_RECEIVED"] in
  let '(cancelled, registry) := RequestTracker.cancelRequest id reason (requestTracker s) in
  if negb cancelled
  then {| requestTracker := registry; logged := log1 ++ ["CANCELLATION_IGNORED"] |}
  else {| requestTracker := registry; logged := log1 |}.

(** The handler of [CallToolRequestSchema] ([setupHandlers]), in its two
    halves around the execution of the tool: the request is registered
    before, and removed in the [finally] block whatever the outcome. *)
Definition on_call_tool_begin (id : string) (token : option string) (name : string) (at_ : N)
    (s : Server) : exn + RequestTracker.RequestContext * Server :=
  match RequestTracker.registerRequest id token name at_ (requestTracker s) with
  | inl e => inl e
  | inr (context, registry) => inr (context, {| requestTracker := registry; logged := logged s |})
  end.

Definition on_call_tool_finally (id : string) (s : Server) : Server :=
  {| requestTracker := RequestTracker.cleanup id (requestTracker s); logged := logged s |}.

(** ** The tool groups ([src/tools])

    The four classes [GoogleGmailTools], [GoogleDriveTools],
    [GoogleCalendarTools] and [GoogleContactsTools] are one text with
    different tables: the names of the tools of [getToolDefinitions] (the
    schemas are left out), the array [supportedTools] of [canHandle], and
    the [case] labels of the [switch] of [executeTool], each with the
    method of the client it calls. *)
Record Tools : Type := {
  integration : string;
  getToolDefinitions : list string;
  supportedTools : list string;
  cases : list (string * string)
}.

Definition GoogleGmailTools : Tools :=
  {| integration := "google-gmail";
     getToolDefinitions :=
       ["google-gmail_list_messages"; "google-gmail_get_message";
        "google-gmail_send_message"; "google-gmail_create_draft";
        "google-gmail_delete_message"; "google-gmail_modify_message";
        "google-gmail_search_messages"];
     supportedTools :=
       ["google-gmail_list_messages"; "google-gmail_get_message";
        "google-gmail_send_message"; "google-gmail_create_draft";
        "google-gmail_delete_message"; "google-gmail_modify_message";
        "google-gmail_search_messages"];
     cases :=
       [("google-gmail_list_messages", "listMessages");
        ("google-gmail_get_message", "getMessage");
        ("google-gmail_send_message", "sendMessage");
        ("google-gmail_create_draft", "createDraft");
        ("google-gmail_delete_message", "deleteMessage");
        ("google-gmail_modify_message", "modifyMessage");
        ("google-gmail_search_messages", "searchMessages")] |}.

Definition GoogleDriveTools : Tools :=
  {| integration := "google-drive";
     getToolDefinitions :=
       ["google-drive_list_files"; "google-drive_get_file"; "google-drive_update_file";
        "google-drive_delete_file"; "google-drive_search_files";
        "google-drive_create_file"; "google-drive_share_file"];
     supportedTools :=
       ["google-drive_list_files"; "google-drive_get_file"; "google-drive_update_file";
        "google-drive_delete_file"; "google-drive_search_files";
        "google-drive_create_file"; "google-drive_share_file"];
     cases :=
       [("google-drive_list_files", "listFiles");
        ("google-drive_get_file", "getFile");
        ("google-drive_update_file", "updateFile");
        ("google-drive_delete_file", "deleteFile");
        ("google-drive_search_files", "searchFiles");
        ("google-drive_create_file", "createFile");
        ("google-drive_share_file", "shareFile")] |}.

Definition GoogleCalendarTools : Tools :=
  {| integration := "google-calendar";
     getToolDefinitions :=
       ["google-calendar_list_events"; "google-calendar_get_event";
        "google-calendar_create_event"; "google-calendar_update_event";
        "google-calendar_delete_event"; "google-calendar_list_calendars"];
     supportedTools :=
       ["google-calendar_list_events"; "google-calendar_get_event";
        "google-calendar_create_event"; "google-calendar_update_event";
        "google-calendar_delete_event"; "google-calendar_list_calendars"];
     cases :=
       [("google-calendar_list_events", "listEvents");
        ("google-calendar_get_event", "getEvent");
        ("google-calendar_create_event", "createEvent");
        ("google-calendar_update_event", "updateEvent");
        ("google-calendar_delete_event", "deleteEvent");
        ("google-calendar_list_calendars", "listCalendars")] |}.

Definition GoogleContactsTools : Tools :=
  {| integration := "google-contacts";
     getToolDefinitions :=
       ["google-contacts_create_contact"; "google-contacts_update_contact";
        "google-contacts_delete_contact"; "google-contacts_search_contacts";
        "google-contacts_list_contacts"; "google-contacts_get_contact"];
     supportedTools :=
       ["google-contacts_create_contact"; "google-contacts_update_contact";
        "google-contacts_delete_contact"; "google-contacts_search_contacts";
        "google-contacts_list_contacts"; "google-contacts_get_contact"];
     cases :=
       [("google-contacts_create_contact", "createContact");
        ("google-contacts_update_contact", "updateContact");
        ("google-contacts_delete_contact", "deleteContact");
        ("google-contacts_search_contacts", "searchContacts");
        ("google-contacts_list_contacts", "listContacts");
        ("google-contacts_get_contact", "getContact")] |}.

(** [canHandle]: [supportedTools.includes(toolName)] *)
Definition canHandle (tools : Tools) (toolName : string) : bool :=
  existsb (String.eqb toolName) (supportedTools tools).

(** The [switch] of [executeTool]: the method of the first [case] that
    matches, [None] for [default]. *)
Definition clientMethod (tools : Tools) (name : string) : option string :=
  snd <$> List.find (fun c => String.eqb name (fst c)) (cases tools).

(** The answer of a tool: [{ content: [{ type: 'text', text }], isError }]. *)
Record CallToolResult : Type := {
  text : string;
  isError : bool
}.

(** What surrounds one execution of a tool: how [ensureInitialized]
    ends ([None]: well), how the method of the client ends (its result as
    the text put in the answer; the progress reports around it are part of
    it), and the cancellation notifications, each an identifier and a
    reason, that the server handles while the one and the other are
    awaited. *)
Record execution : Type := {
  initialization : option exn;
  during_initialization : list (string * option string);
  client : string → exn + string;
  during_client : list (string * option string)
}.

Definition notify (s : Server) (n : string * option string) : Server :=
  on_cancelled (fst n) (snd n) s.

(** [context.abortController.signal] of the request registered as [id],
    read where the tracker keeps the context. *)
Definition signal (id : string) (s : Server) : RequestTracker.AbortSignal :=
  match requestTracker s !! id with
  | Some context => RequestTracker.abortController context
  | None => RequestTracker.NotAborted
  end.

(** The answer built in the [catch] block of [executeTool]. *)
Definition errorResult (e : exn) : CallToolResult :=
  {| text := "Error: " +:+ errorMessage e; isError := true |}.

(** [executeTool].  What the tools hand to the logger is not recorded. *)
Definition executeTool (tools : Tools) (name id : string) (run : execution) (s : Server)
    : (exn + CallToolResult) * Server :=
  if RequestTracker.aborted (signal id s) then (inl (Error "Request was cancelled"), s)
  else
    let s1 := foldl notify s (during_initialization run) in
    match initialization run with
    | Some e => (inl e, s1)
    | None =>
        if negb (canHandle tools name) then (inl (Error ("Unknown tool: " +:+ name)), s1)
        else
          match clientMethod tools name with
          | None => (inr (errorResult (Error ("Unknown tool: " +:+ name))), s1)
          | Some method =>
              let s2 := foldl notify s1 (during_client run) in
              match client run method with
              | inr result => (inr {| text := result; isError := false |}, s2)
              | inl e => (inr (errorResult e), s2)
              end
          end
    end.

(** ** The tool handlers of [src/index.ts] *)

(** The handler of [ListToolsRequestSchema]: the names of the tools it
    lists. *)
Definition on_list_tools : list string :=
  getToolDefinitions GoogleGmailTools ++ getToolDefinitions GoogleDriveTools
  ++ getToolDefinitions GoogleCalendarTools ++ getToolDefinitions GoogleContactsTools.

Inductive ErrorCode : Type :=
| InternalError
| MethodNotFound.

(** What the handler of a tool call is rejected with: an [McpError], or
    whatever [registerRequest] throws. *)
Inductive rejection : Type :=
| McpError (code : ErrorCode) (message : string)
| Thrown (e : exn).

(** The four groups, in the order in which the handlers go through
    them. *)
Definition groups : list Tools :=
  [GoogleGmailTools; GoogleDriveTools; GoogleCalendarTools; GoogleContactsTools].

(** The first group that can handle the tool. *)
Definition dispatch (name : string) : option Tools :=
  if canHandle GoogleGmailTools name then Some GoogleGmailTools
  else if canHandle GoogleDriveTools name then Some GoogleDriveTools
  else if canHandle GoogleCalendarTools name then Some GoogleCalendarTools
  else if canHandle GoogleContactsTools name then Some GoogleContactsTools
  else None.

(** The handler of [CallToolRequestSchema]: registration, the [try]
    block, the [catch] block and the [finally] block. *)
Definition on_call_tool (name id : string) (token : option string) (at_ : N)
    (run : execution) (s : Server) : (rejection + CallToolResult) * Server :=
  match on_call_tool_begin id token name at_ s with
  | inl e => (inl (Thrown e), s)
  | inr (_, s0) =>
      let '(outcome, s1) :=
        match dispatch name with
        | Some tools =>
            match executeTool tools name id run s0 with
            | (inl e, s1) => (inl (Thrown e), s1)
            | (inr result, s1) => (inr result, s1)
            end
        | None => (inl (McpError MethodNotFound ("Unknown tool: " +:+ name)), s0)
        end in
      (match outcome with
       | inr result => inr result
       | inl error =>
           if RequestTracker.aborted (signal id s1)
           then inl (McpError InternalError "Request was cancelled")
           else
             match error with
             | McpError _ _ => inl error
             | Thrown e =>
                 inl (McpError InternalError ("Tool execution failed: " +:+ errorMessage e))
             end
       end,
       on_call_tool_finally id s1)
  end.

(** ** Configuration ([src/config.ts]) *)

Module Config.

(** [process.env] *)
Definition Env : Type := gmap string string.

(** [process.env.NAME || fallback] *)
Definition env_or (env : Env) (name fallback : string) : string :=
  match env !! name with
  | Some v => if String.eqb v "" then fallback else v
  | None => fallback
  end.

(** [process.env.NAME], as a condition *)
Definition env_set (env : Env) (name : string) : bool :=
  match env !! name with
  | Some v => negb (String.eqb v "")
  | None => false
  end.

(** [process.env.NAME === 'true'] *)
Definition env_true (env : Env) (name : string) : bool :=
  match env !! name with
  | Some v => String.eqb v "true"
  | None => false
  end.

(** Numbers: the integers, and [NaN] ([None]).  ([parseInt] rounds an
    integer beyond 2^53 to the nearest double; the model keeps it.) *)
Definition number : Type := option Z.

(** White space and line terminators, as [parseInt] strips them from
    the head of a string, on the UTF-8 bytes that hold the string.  Of one
    byte: tab to carriage return, and the space. *)
Definition is_white_space (c : ascii) : bool :=
  let n := N_of_ascii c in
  ((9 <=? n)%N && (n <=? 13)%N) || (n =? 32)%N.

(** Of two bytes: U+00A0. *)
Definition is_white_space2 (c1 c2 : ascii) : bool :=
  (N_of_ascii c1 =? 194)%N && (N_of_ascii c2 =? 160)%N.

(** Of three bytes: U+1680, U+2000 to U+200A, U+2028, U+2029, U+202F,
    U+205F, U+3000 and U+FEFF. *)
Definition is_white_space3 (c1 c2 c3 : ascii) : bool :=
  let n1 := N_of_ascii c1 in
  let n2 := N_of_ascii c2 in
  let n3 := N_of_ascii c3 in
  ((n1 =? 225) && (n2 =? 154) && (n3 =? 128))%N
  || ((n1 =? 226) && (n2 =? 128)
      && (((128 <=? n3) && (n3 <=? 138)) || (n3 =? 168) || (n3 =? 169) || (n3 =? 175)))%N
  || ((n1 =? 226) && (n2 =? 129) && (n3 =? 159))%N
  || ((n1 =? 227) && (n2 =? 128) && (n3 =? 128))%N
  || ((n1 =? 239) && (n2 =? 187) && (n3 =? 191))%N.

Fixpoint trim_start (s : string) : string :=
  match s with
  | String c1 rest1 =>
      if is_white_space c1 then trim_start rest1
      else
        match rest1 with
        | String c2 rest2 =>
            if is_white_space2 c1 c2 then trim_start rest2
            else
              match rest2 with
              | String c3 rest3 =>
                  if is_white_space3 c1 c2 c3 then trim_start rest3 else s
              | EmptyString => s
              end
        | EmptyString => s
        end
  | EmptyString => s
  end.

Definition digit_value (c : ascii) : option Z :=
  let n := N_of_ascii c in
  if (48 <=? n)%N && (n <=? 57)%N then Some (Z.of_N (n - 48)) else None.

(** The value of the leading decimal digits, [None] if there is none. *)
Fixpoint digits (acc : option Z) (s : string) : option Z :=
  match s with
  | String c rest =>
      match digit_value c with
      | Some d => digits (Some (10 * default 0%Z acc + d)%Z) rest
      | None => acc
      end
  | EmptyString => acc
  end.

(** [parseInt(s, 10)]: leading white space, a sign, then as many digits
    as there are; [NaN] if there is no digit. *)
Definition parseInt (s : string) : number :=
  match trim_start s with
  | String "-" rest => Z.opp <$> digits None rest
  | String "+" rest => digits None rest
  | s => digits None s
  end.

(** [a < b] and [a > b] on numbers: false when [a] is [NaN]. *)
Definition lt (a : number) (b : Z) : bool :=
  match a with
  | Some a => (a <? b)%Z
  | None => false
  end.

Definition gt (a : number) (b : Z) : bool :=
  match a with
  | Some a => (b <? a)%Z
  | None => false
  end.

Record LogShipping : Type := {
  enabled : bool;
  endpoint : string;
  apiKey : option string;
  requireApiKey : bool;
  batchSize : number;
  flushInterval : number;
  maxRetries : number;
  logLevel : string
}.

Record Google : Type := {
  gOOGLEOAUTHCREDENTIALS : string;
  scopes : list string
}.

Record ServerConfig : Type := {
  logShipping : LogShipping;
  googleGmail : Google;
  googleDrive : Google;
  googleCalendar : Google;
  googleContacts : Google
}.

(** [loadConfig] *)
Definition loadConfig (env : Env) : ServerConfig :=
  {| logShipping :=
       {| enabled := env_true env "LOG_SHIPPING_ENABLED";
          endpoint := env_or env "LOG_INGESTION_URL" "";
          apiKey := if env_set env "LOG_INGESTION_API_KEY"
                    then env !! "LOG_INGESTION_API_KEY" else None;
          requireApiKey := env_true env "LOG_SHIPPING_REQUIRE_API_KEY";
          batchSize := parseInt (env_or env "LOG_SHIPPING_BATCH_SIZE" "500");
          flushInterval := parseInt (env_or env "LOG_SHIPPING_INTERVAL" "5000");
          maxRetries := parseInt (env_or env "LOG_SHIPPING_MAX_RETRIES" "3");
          logLevel := env_or env "LOG_LEVEL" "ERROR" |};
     googleGmail :=
       {| gOOGLEOAUTHCREDENTIALS := env_or env "GOOGLE_OAUTH_CREDENTIALS" "";
          scopes := ["https://www.googleapis.com/auth/gmail.readonly";
                     "https://www.googleapis.com/auth/gmail.send";
                     "https://www.googleapis.com/auth/gmail.modify"] |};
     googleDrive :=
       {| gOOGLEOAUTHCREDENTIALS := env_or env "GOOGLE_OAUTH_CREDENTIALS" "";
          scopes := ["https://www.googleapis.com/auth/drive";
                     "https://www.googleapis.com/auth/drive.file"] |};
     googleCalendar :=
       {| gOOGLEOAUTHCREDENTIALS := env_or env "GOOGLE_OAUTH_CREDENTIALS" "";
          scopes := ["https://www.googleapis.com/auth/calendar";
                     "https://www.googleapis.com/auth/calendar.events"] |};
     googleContacts :=
       {| gOOGLEOAUTHCREDENTIALS := env_or env "GOOGLE_OAUTH_CREDENTIALS" "";
          scopes := ["https://www.googleapis.com/auth/contacts";
                     "https://www.googleapis.com/auth/contacts.readonly"] |} |}.

(** [!s] on a string *)
Definition empty (s : string) : bool := String.eqb s "".

(** [!s] on an optional string *)
Definition missing (s : option string) : bool :=
  match s with
  | Some s => empty s
  | None => true
  end.

(** [if (condition) errors.push(message)] *)
Definition push_if (condition : bool) (message : string) (errors : list string) : list string :=
  if condition then errors ++ [message] else errors.

Definition logLevels : list string := ["DEBUG"; "INFO"; "WARN"; "ERROR"; "FATAL"].

Record Validation : Type := {
  isValid : bool;
  errors : list string
}.

(** The four checks of the Google sections: each reads the environment,
    not the configuration. *)
Definition oauth_errors (env : Env) (errors : list string) : list string :=
  let errors :=
    push_if (negb (env_set env "GOOGLE_OAUTH_CREDENTIALS"))
      "GOOGLE_OAUTH_CREDENTIALS environment variable is required for google-gmail OAuth authentication"
      errors in
  let errors :=
    push_if (negb (env_set env "GOOGLE_OAUTH_CREDENTIALS"))
      "GOOGLE_OAUTH_CREDENTIALS environment variable is required for google-drive OAuth authentication"
      errors in
  let errors :=
    push_if (negb (env_set env "GOOGLE_OAUTH_CREDENTIALS"))
      "GOOGLE_OAUTH_CREDENTIALS environment variable is required for google-calendar OAuth authentication"
      errors in
  push_if (negb (env_set env "GOOGLE_OAUTH_CREDENTIALS"))
    "GOOGLE_OAUTH_CREDENTIALS environment variable is required for google-contacts OAuth authentication"
    errors.

(** The checks of the log shipping section. *)
Definition logShipping_errors (l : LogShipping) (errors : list string) : list string :=
  if enabled l then
    let errors :=
      push_if (empty (endpoint l))
        "LOG_INGESTION_URL environment variable is required when log shipping is enabled"
        errors in
    let errors :=
      push_if (requireApiKey l && missing (apiKey l))
        "LOG_INGESTION_API_KEY environment variable is required when LOG_SHIPPING_REQUIRE_API_KEY is true"
        errors in
    let errors :=
      push_if (negb (empty (endpoint l)) && negb (String.prefix "https://" (endpoint l)))
        "LOG_INGESTION_URL must use HTTPS protocol" errors in
    let errors :=
      push_if (lt (batchSize l) 1 || gt (batchSize l) 1000)
        "LOG_SHIPPING_BATCH_SIZE must be between 1 and 1000" errors in
    let errors :=
      push_if (lt (flushInterval l) 1000)
        "LOG_SHIPPING_INTERVAL must be at least 1000ms" errors in
    push_if (negb (existsb (String.eqb (logLevel l)) logLevels))
      "LOG_LEVEL must be one of: DEBUG, INFO, WARN, ERROR, FATAL" errors
  else errors.

(** [validateConfig], in the environment it reads.  The warnings it
    prints are not recorded. *)
Definition validateConfig (env : Env) (config : ServerConfig) : Validation :=
  let errors := oauth_errors env (logShipping_errors (logShipping config) []) in
  {| isValid := Nat.eqb (length errors) 0; errors := errors |}.

End Config.

(** ** Start-up of the OAuth client *)

(** [new OAuth2Client(clientId, clientSecret, redirectUri)] *)
Record OAuth2Client : Type := {
  clientId : string;
  clientSecret : string;
  redirectUri : string
}.

(** [GoogleOAuthClient.initialize], with the redirect URI the
    constructor has read:
    [process.env.GOOGLE_REDIRECT_URI || 'http://localhost:3000']. *)
Definition initialize (env : Config.Env) : exn + OAuth2Client :=
  if negb (Config.env_set env "GOOGLE_CLIENT_ID")
  then inl (Error "GOOGLE_CLIENT_ID environment variable is required")
  else if negb (Config.env_set env "GOOGLE_CLIENT_SECRET")
  then inl (Error "GOOGLE_CLIENT_SECRET environment variable is required")
  else inr {| clientId := default "" (env !! "GOOGLE_CLIENT_ID");
              clientSecret := default "" (env !! "GOOGLE_CLIENT_SECRET");
              redirectUri := Config.env_or env "GOOGLE_REDIRECT_URI" "http://localhost:3000" |}.

(** [ensureInitialized] of a tool group whose client holds the OAuth
    client (as all four do): the client is initialized unless the flag
    [initialized] says it has been, and the flag is set once that has
    succeeded.  The result is how the call ends and the flag after it. *)
Definition ensureInitialized (env : Config.Env) (initialized : bool) : option exn * bool :=
  if initialized then (None, true)
  else
    match initialize env with
    | inl e => (Some e, false)
    | inr _ => (None, true)
    end.

(** ** What is assumed of the runtime *)

Definition atom (j : json) : bool :=
  match j with
  | JNull | JBool _ | JNum _ | JStr _ => true
  | JArr _ | JObj _ => false
  end.

(** The documents the module hands to [JSON.stringify]: objects with
    distinct keys whose values are not nested. *)
Definition flat_object (j : json) : bool :=
  match j with
  | JObj members =>
      forallb (fun m => atom (snd m)) members && bool_decide (NoDup (map fst members))
  | _ => false
  end.

(** The lengths of tag that [setAuthTag] takes for GCM when the
    decipher was created without [authTagLength]. *)
Definition tag_lengths : list nat := [4; 8; 12; 13; 14; 15; 16].

(** [tag] is [full], or its first bytes in one of these lengths. *)
Definition tag_accepted (tag full : Buffer) : Prop :=
  length tag ∈ tag_lengths ∧ tag = take (length tag) full.

Class RuntimeLaws `{Runtime} : Prop := {
  (** [JSON.parse] reads back what [JSON.stringify] wrote, which is
      never the empty string *)
  JSON_roundtrip : ∀ j, flat_object j = true → JSON_parse (JSON_stringify j) = inr j;
  JSON_stringify_nonempty : ∀ j, flat_object j = true → JSON_stringify j ≠ "";
  (** deciphering with the key, nonce and tag of the encryption gives
      the plaintext *)
  gcm_correct : ∀ key iv plaintext,
    gcm_decrypt key iv (snd (gcm_encrypt key iv plaintext)) (fst (gcm_encrypt key iv plaintext))
    = inr plaintext;
  (** the decipher accepts a ciphertext and a tag only if the ciphertext
      is that of the plaintext it returns and the tag is the tag of that
      encryption, or its first bytes in one of the lengths [setAuthTag]
      takes *)
  gcm_sound : ∀ key iv tag ciphertext plaintext,
    gcm_decrypt key iv tag ciphertext = inr plaintext →
    fst (gcm_encrypt key iv plaintext) = ciphertext ∧
    tag_accepted tag (snd (gcm_encrypt key iv plaintext));
  (** under one key and nonce, a ciphertext belongs to one plaintext *)
  gcm_injective : ∀ key iv p1 p2,
    fst (gcm_encrypt key iv p1) = fst (gcm_encrypt key iv p2) → p1 = p2;
  (** the derived key has the requested length *)
  pbkdf2Sync_length : ∀ password salt iterations keylen digest,
    length (pbkdf2Sync password salt iterations keylen digest) = N.to_nat keylen
}.

(** ** A reference runtime

    An executable instance of [Runtime], on which the model is run in the
    examples: JSON text without white space (read back for flat objects
    only), and a mock cipher that has the laws above. *)

Module Reference.

Definition quote : ascii := "034"%char.
Definition backslash : ascii := "092"%char.

Fixpoint escape (s : string) : string :=
  match s with
  | EmptyString => EmptyString
  | String c rest =>
      if Ascii.eqb c quote || Ascii.eqb c backslash
      then String backslash (String c (escape rest))
      else String c (escape rest)
  end.

Definition print_string (s : string) : string :=
  String quote (escape s +:+ String quote EmptyString).

Fixpoint print_uint (u : Decimal.uint) : string :=
  match u with
  | Decimal.Nil => EmptyString
  | Decimal.D0 u => String "0" (print_uint u)
  | Decimal.D1 u => String "1" (print_uint u)
  | Decimal.D2 u => String "2" (print_uint u)
  | Decimal.D3 u => String "3" (print_uint u)
  | Decimal.D4 u => String "4" (print_uint u)
  | Decimal.D5 u => String "5" (print_uint u)
  | Decimal.D6 u => String "6" (print_uint u)
  | Decimal.D7 u => String "7" (print_uint u)
  | Decimal.D8 u => String "8" (print_uint u)
  | Decimal.D9 u => String "9" (print_uint u)
  end.

Definition print_number (n : Z) : string :=
  match Z.to_int n with
  | Decimal.Pos u => print_uint u
  | Decimal.Neg u => String "-" (print_uint u)
  end.

Fixpoint print (j : json) : string :=
  match j with
  | JNull => "null"
  | JBool true => "true"
  | JBool false => "false"
  | JNum n => print_number n
  | JStr s => print_string s
  | JArr items =>
      String "[" ((fix go (l : list json) : string :=
                     match l with
                     | [] => "]"
                     | x :: rest =>
                         print x +:+ match rest with
                                     | [] => "]"
                                     | _ => String "," (go rest)
                                     end
                     end) items)
  | JObj members =>
      String "{" ((fix go (l : list (string * json)) : string :=
                     match l with
                     | [] => "}"
                     | (k, v) :: rest =>
                         print_string k +:+ String ":" (print v +:+
                           match rest with
                           | [] => "}"
                           | _ => String "," (go rest)
                           end)
                     end) members)
  end.

(** The members as [print] lays them out. *)
Fixpoint print_members (l : list (string * json)) : string :=
  match l with
  | [] => "}"
  | (k, v) :: rest =>
      print_string k +:+ String ":" (print v +:+
        match rest with
        | [] => "}"
        | _ => String "," (print_members rest)
        end)
  end.

(** What follows a value inside an object. *)
Definition closes (rest : string) : Prop :=
  match rest with
  | String c _ => c = ","%char ∨ c = "}"%char
  | EmptyString => False
  end.

(** The text after an opening quote, up to the closing one. *)
Fixpoint read_string (s : string) : option (string * string) :=
  match s with
  | EmptyString => None
  | String c rest =>
      if Ascii.eqb c quote then Some (EmptyString, rest)
      else if Ascii.eqb c backslash then
        match rest with
        | EmptyString => None
        | String d rest' =>
            match read_string rest' with
            | Some (body, after) => Some (String d body, after)
            | None => None
            end
        end
      else
        match read_string rest with
        | Some (body, after) => Some (String c body, after)
        | None => None
        end
  end.

Definition digit (c : ascii) : option (Decimal.uint → Decimal.uint) :=
  if Ascii.eqb c "0" then Some Decimal.D0
  else if Ascii.eqb c "1" then Some Decimal.D1
  else if Ascii.eqb c "2" then Some Decimal.D2
  else if Ascii.eqb c "3" then Some Decimal.D3
  else if Ascii.eqb c "4" then Some Decimal.D4
  else if Ascii.eqb c "5" then Some Decimal.D5
  else if Ascii.eqb c "6" then Some Decimal.D6
  else if Ascii.eqb c "7" then Some Decimal.D7
  else if Ascii.eqb c "8" then Some Decimal.D8
  else if Ascii.eqb c "9" then Some Decimal.D9
  else None.

Definition is_digit (c : ascii) : bool :=
  match digit c with
  | Some _ => true
  | None => false
  end.

Fixpoint read_uint (s : string) : Decimal.uint * string :=
  match s with
  | EmptyString => (Decimal.Nil, EmptyString)
  | String c rest =>
      match digit c with
      | Some d => let '(u, after) := read_uint rest in (d u, after)
      | None => (Decimal.Nil, s)
      end
  end.

Fixpoint strip (word s : string) : option string :=
  match word, s with
  | EmptyString, _ => Some s
  | String a word, String b s => if Ascii.eqb a b then strip word s else None
  | String _ _, EmptyString => None
  end.

Definition read_atom (s : string) : option (json * string) :=
  match s with
  | EmptyString => None
  | String c rest =>
      if Ascii.eqb c quote then
        match read_string rest with
        | Some (body, after) => Some (JStr body, after)
        | None => None
        end
      else if Ascii.eqb c "-" then
        let '(u, after) := read_uint rest in
        Some (JNum (Z.of_int (Decimal.Neg u)), after)
      else if is_digit c then
        let '(u, after) := read_uint s in
        Some (JNum (Z.of_int (Decimal.Pos u)), after)
      else if Ascii.eqb c "n" then
        match strip "ull" rest with Some after => Some (JNull, after) | None => None end
      else if Ascii.eqb c "t" then
        match strip "rue" rest with Some after => Some (JBool true, after) | None => None end
      else if Ascii.eqb c "f" then
        match strip "alse" rest with Some after => Some (JBool false, after) | None => None end
      else None
  end.

(** The members of an object after its opening brace, the closing
    brace included. *)
Fixpoint read_members (fuel : nat) (s : string) : option (list (string * json)) :=
  match fuel, s with
  | S fuel, String c rest =>
      if Ascii.eqb c quote then
        match read_string rest with
        | Some (k, String colon rest1) =>
            if Ascii.eqb colon ":" then
              match read_atom rest1 with
              | Some (v, String sep rest2) =>
                  if Ascii.eqb sep "," then
                    match read_members fuel rest2 with
                    | Some members => Some ((k, v) :: members)
                    | None => None
                    end
                  else if Ascii.eqb sep "}" then
                    match rest2 with
                    | EmptyString => Some [(k, v)]
                    | _ => None
                    end
                  else None
              | _ => None
              end
            else None
        | _ => None
        end
      else None
  | _, _ => None
  end.

Definition read (s : string) : string + json :=
  match s with
  | String open rest =>
      if Ascii.eqb open "{" then
        if String.eqb rest "}" then inr (JObj [])
        else
          match read_members (String.length rest) rest with
          | Some members => inr (JObj members)
          | None => inl "Unexpected token in JSON"
          end
      else inl "Unexpected token in JSON"
  | EmptyString => inl "Unexpected end of JSON input"
  end.

Fixpoint Buffer_eqb (a b : Buffer) : bool :=
  match a, b with
  | [], [] => true
  | x :: a, y :: b => Byte.eqb x y && Buffer_eqb a b
  | _, _ => false
  end.

(** A key of the requested length made of the password and the salt. *)
Definition derive (password salt : string) (iterations keylen : N) (digest : string) : Buffer :=
  take (N.to_nat keylen)
       (list_byte_of_string (password +:+ salt) ++ replicate (N.to_nat keylen) x00).

(** The mock cipher: the ciphertext is the plaintext reversed, and the
    tag is 16 check sums over key, nonce and ciphertext; the decipher
    takes the tag or its first bytes, as [setAuthTag] does. *)
Definition mac (key iv ciphertext : Buffer) : Buffer :=
  let bytes := key ++ iv ++ ciphertext in
  map (fun i =>
         let sum := foldr N.add (N.of_nat i)
                      (imap (fun j b => if (j mod 16 =? i)%nat then Byte.to_N b else 0%N) bytes) in
         default x00 (Byte.of_N (sum mod 256)%N))
      (seq 0 16).

Definition seal (key iv plaintext : Buffer) : Buffer * Buffer :=
  (rev plaintext, mac key iv (rev plaintext)).

Definition unseal (key iv tag ciphertext : Buffer) : string + Buffer :=
  if negb (bool_decide (length tag ∈ tag_lengths))
  then inl "Invalid authentication tag length"
  else if Buffer_eqb tag (take (length tag) (mac key iv ciphertext))
  then inr (rev ciphertext)
  else inl "Unsupported state or unable to authenticate data".

#[export] Instance runtime : Runtime := {|
  JSON_stringify := print;
  JSON_parse := read;
  pbkdf2Sync := derive;
  gcm_encrypt := seal;
  gcm_decrypt := unseal
|}.

End Reference.

(** ** Worked examples: inputs *)

Module Examples.
Import Reference.

(** A credential that expires at [t = 2 000 000] ms. *)
Definition credential : OAuth2Tokens :=
  {| access_token := value "ya29.first"; refresh_token := value "1//refresh";
     expiry_date := value 2000000%Z; scope := undefined; token_type := value "Bearer" |}.

(** What the token endpoint answers to the [k]-th refresh. *)
Definition refreshed (k : nat) : OAuth2Tokens :=
  {| access_token := value ("ya29.refresh-" +:+ String (ascii_of_nat (48 + k)) EmptyString);
     refresh_token := undefined;
     expiry_date := value 9000000%Z; scope := undefined; token_type := value "Bearer" |}.

(** The access token in [refreshed k]. *)
Definition granted (k : nat) : string :=
  "ya29.refresh-" +:+ String (ascii_of_nat (48 + k)) EmptyString.

(** The bytes of every random draw on [machine]. *)
Definition nonce : Buffer :=
  [x01; x02; x03; x04; x05; x06; x07; x08; x09; x0a; x0b; x0c; x0d; x0e; x0f; xab].

(** A machine without a keychain and with an empty token directory,
    at [t = 1 000 000] ms; the user never completes a consent. *)
Definition machine : World :=
  {| now := 1000000%N; homedir := "/home/ada"; hostname := "laptop"; username := "ada";
     files := ∅; fs_fault := None; keytar := inl "Cannot find module 'keytar'";
     random := fun k i => nth i nonce x00; draws := 0;
     refresh_endpoint := fun k _ => inr (refreshed k); refresh_calls := [];
     consent := fun _ => [TimerFired];
     code_endpoint := fun _ => inl "invalid_grant"; authorize_calls := 0 |}.

Definition set_now (t : N) (w : World) : World :=
  {| now := t; homedir := homedir w; hostname := hostname w;
     username := username w; files := files w; fs_fault := fs_fault w;
     keytar := keytar w; random := random w; draws := draws w;
     refresh_endpoint := refresh_endpoint w; refresh_calls := refresh_calls w;
     consent := consent w; code_endpoint := code_endpoint w;
     authorize_calls := authorize_calls w |}.

(** The machine after [credential] has been stored. *)
Definition authorized : World :=
  snd (storeTokens tokenManager credential "default" machine).

(** The same, at a time when the credential is 4 minutes from expiry. *)
Definition expiring : World := set_now 1760000 authorized.

(** The path of the stored record. *)
Definition record_path : string := "/home/ada/.mcp/default-tokens/default.json".

(** A credential that is far from expiry and has an empty access
    token, and the machine after it has been stored. *)
Definition blank_credential : OAuth2Tokens :=
  {| access_token := value ""; refresh_token := value "1//refresh";
     expiry_date := value 2000000%Z; scope := undefined; token_type := value "Bearer" |}.

Definition blank : World :=
  snd (storeTokens tokenManager blank_credential "default" machine).

(** A credential near expiry without a refresh token, stored. *)
Definition bare_credential : OAuth2Tokens :=
  {| access_token := value "ya29.first"; refresh_token := undefined;
     expiry_date := value 1000%Z; scope := undefined; token_type := value "Bearer" |}.

Definition bare : World :=
  snd (storeTokens tokenManager bare_credential "default" machine).

(** A credential without an expiry date, stored. *)
Definition undated_credential : OAuth2Tokens :=
  {| access_token := value "ya29.first"; refresh_token := value "1//refresh";
     expiry_date := null; scope := undefined; token_type := value "Bearer" |}.

Definition undated : World :=
  snd (storeTokens tokenManager undated_credential "default" machine).

(** The token endpoint rejects every refresh. *)
Definition set_refresh_endpoint (f : nat → string → string + OAuth2Tokens) (w : World)
    : World :=
  {| now := now w; homedir := homedir w; hostname := hostname w;
     username := username w; files := files w; fs_fault := fs_fault w;
     keytar := keytar w; random := random w; draws := draws w;
     refresh_endpoint := f; refresh_calls := refresh_calls w;
     consent := consent w; code_endpoint := code_endpoint w;
     authorize_calls := authorize_calls w |}.

Definition rejecting : World :=
  set_refresh_endpoint (fun _ _ => inl "invalid_grant") expiring.

(** [String.prototype.toUpperCase] on ASCII text. *)
Definition upper (c : ascii) : ascii :=
  let n := N_of_ascii c in
  if (97 <=? n)%N && (n <=? 122)%N then ascii_of_N (n - 32) else c.

Fixpoint toUpperCase (s : string) : string :=
  match s with
  | EmptyString => EmptyString
  | String c rest => String (upper c) (toUpperCase rest)
  end.

(** Ciphertext and tag of a credential encrypted on [machine] (whose
    random draws are all [nonce]). *)
Definition sealed (tokens : OAuth2Tokens) : Buffer * Buffer :=
  gcm_encrypt (derived_key machine) nonce
              (Buffer_from_utf8 (JSON_stringify (tokens_to_json tokens))).

(** A record that points into a keychain the machine does not have. *)
Definition orphan : string :=
  JSON_stringify (keychain_reference "mcp-oauth-tokens" "default-default").

Definition orphaned : World := set_files {[ record_path := orphan ]} machine.

End Examples.

(** * Properties *)

(** ** Reading back what was written *)

Lemma hex_of_byte_decoded (b : byte) (rest : string) :
  Buffer_from_hex (hex_of_byte b +:+ rest) = b :: Buffer_from_hex rest.
Proof. destruct b; reflexivity. Qed.

Lemma Buffer_hex_roundtrip (b : Buffer) :
  Buffer_from_hex (Buffer_toString_hex b) = b.
Proof.
  induction b as [|x b IH]; [reflexivity|].
  change (Buffer_toString_hex (x :: b)) with (hex_of_byte x +:+ Buffer_toString_hex b).
  by rewrite hex_of_byte_decoded, IH.
Qed.

Lemma hex_input_toString (b : Buffer) : hex_input (Buffer_toString_hex b) = Some b.
Proof.
  unfold hex_input. rewrite Buffer_hex_roundtrip.
  assert (Nat.even (utf16_length (Buffer_toString_hex b)) = true) as ->; [|done].
  induction b as [|x b IH]; [reflexivity|].
  change (Buffer_toString_hex (x :: b)) with (hex_of_byte x +:+ Buffer_toString_hex b).
  assert (∀ rest, utf16_length (hex_of_byte x +:+ rest) = S (S (utf16_length rest))) as ->
    by (intros rest; by destruct x).
  exact IH.
Qed.

Lemma utf8_roundtrip (s : string) :
  Buffer_toString_utf8 (Buffer_from_utf8 s) = s.
Proof. apply string_of_list_byte_of_string. Qed.

Lemma tokens_json_roundtrip (t : OAuth2Tokens) :
  tokens_of_json (tokens_to_json t) = inr t.
Proof.
  destruct t as [[| |a] [| |r] [| |e] [| |s] [| |y]]; reflexivity.
Qed.

Lemma tokens_to_json_flat (t : OAuth2Tokens) :
  flat_object (tokens_to_json t) = true.
Proof.
  destruct t as [[| |a] [| |r] [| |e] [| |s] [| |y]]; reflexivity.
Qed.

Lemma envelope_flat (iv authTag data : string) :
  flat_object (envelope iv authTag data) = true.
Proof. reflexivity. Qed.

Lemma keychain_reference_flat (service account : string) :
  flat_object (keychain_reference service account) = true.
Proof. reflexivity. Qed.

(** ** The reference runtime has the laws *)

Module ReferenceFacts.
Import Reference.

#[local] Arguments String.append !s1 s2 : simpl nomatch.

Lemma append_assoc (a b c : string) : (a +:+ b) +:+ c = a +:+ (b +:+ c).
Proof. induction a as [|x a IH]; [reflexivity|]. change (String x ((a +:+ b) +:+ c) = String x (a +:+ (b +:+ c))). by f_equal. Qed.

Lemma length_append (a b : string) :
  String.length (a +:+ b) = String.length a + String.length b.
Proof. induction a as [|x a IH]; [reflexivity|]. change (S (String.length (a +:+ b)) = S (String.length a + String.length b)). by f_equal. Qed.

Lemma read_string_escape (s rest : string) :
  read_string (escape s +:+ String quote rest) = Some (s, rest).
Proof.
  induction s as [|c s IH]; [reflexivity|].
  simpl. destruct (Ascii.eqb c quote) eqn:Hq.
  - simpl. rewrite IH. reflexivity.
  - destruct (Ascii.eqb c backslash) eqn:Hb; simpl.
    + rewrite IH. reflexivity.
    + rewrite Hq, Hb, IH. reflexivity.
Qed.

Lemma closes_no_digit (rest : string) :
  closes rest → read_uint rest = (Decimal.Nil, rest).
Proof.
  destruct rest as [|c rest]; [intros []|].
  intros [-> | ->]; reflexivity.
Qed.

Lemma read_uint_print (u : Decimal.uint) (rest : string) :
  closes rest → read_uint (print_uint u +:+ rest) = (u, rest).
Proof.
  intros Hrest.
  induction u as [|u IH|u IH|u IH|u IH|u IH|u IH|u IH|u IH|u IH|u IH];
    simpl; [by apply closes_no_digit | by rewrite IH ..].
Qed.

Lemma read_atom_print (v : json) (rest : string) :
  atom v = true → closes rest → read_atom (print v +:+ rest) = Some (v, rest).
Proof.
  intros Hv Hrest. destruct v as [|[]|n|s| |]; try discriminate; try reflexivity.
  - (* a number *)
    unfold print, print_number.
    pose proof (DecimalZ.of_to n) as Hn.
    destruct (Z.to_int n) as [u|u] eqn:Hu.
    + assert (u ≠ Decimal.Nil) as Hnil.
      { destruct n as [|p|p]; simpl in Hu; try discriminate.
        - by inversion Hu.
        - inversion Hu. apply DecimalPos.Unsigned.to_uint_nonnil. }
      destruct u as [|u|u|u|u|u|u|u|u|u|u]; [done|..];
        cbn -[Z.of_int];
        rewrite (read_uint_print u rest Hrest); by rewrite Hn.
    + cbn -[Z.of_int].
      rewrite (read_uint_print u rest Hrest). by rewrite Hn.
  - (* a string *)
    unfold print, print_string. cbn.
    rewrite append_assoc. cbn.
    by rewrite read_string_escape.
Qed.

Lemma print_object (members : list (string * json)) :
  print (JObj members) = String "{" (print_members members).
Proof. reflexivity. Qed.

Lemma read_members_print (members : list (string * json)) (fuel : nat) :
  members ≠ [] →
  forallb (fun m => atom (snd m)) members = true →
  (length members ≤ fuel)%nat →
  read_members fuel (print_members members) = Some members.
Proof.
  revert fuel. induction members as [|[k v] rest IH]; intros fuel Hne Hatoms Hfuel; [done|].
  simpl in Hatoms. apply andb_true_iff in Hatoms as [Hv Hrest].
  destruct fuel as [|fuel]; [simpl in Hfuel; lia|].
  cbn [print_members]. unfold print_string. cbn.
  rewrite append_assoc. cbn. rewrite read_string_escape. cbn.
  destruct rest as [|m rest'].
  - rewrite (read_atom_print v "}" Hv); [reflexivity | by right].
  - rewrite (read_atom_print v _ Hv); [| by left]. cbn.
    rewrite IH; [reflexivity | done | done | simpl in *; lia].
Qed.

Lemma length_print_members (members : list (string * json)) :
  (length members ≤ String.length (print_members members))%nat.
Proof.
  induction members as [|[k v] rest IH]; [simpl; lia|].
  cbn [print_members]. unfold print_string. cbn.
  rewrite !length_append. cbn.
  rewrite length_append.
  destruct rest as [|m rest']; [simpl; lia|].
  cbn [String.length]. simpl length in *. lia.
Qed.

Lemma read_print (j : json) : flat_object j = true → read (print j) = inr j.
Proof.
  destruct j as [| | | | |members]; try discriminate.
  intros Hflat. simpl in Hflat. apply andb_true_iff in Hflat as [Hatoms _].
  rewrite print_object. destruct members as [|[k v] rest]; [reflexivity|].
  cbn [read]. cbn [Ascii.eqb Bool.eqb]. cbn match.
  assert (String.eqb (print_members ((k, v) :: rest)) "}" = false) as ->.
  { reflexivity. }
  rewrite read_members_print; [reflexivity | done | done | apply length_print_members].
Qed.

Lemma print_nonempty (j : json) : flat_object j = true → print j ≠ "".
Proof. by destruct j. Qed.

Lemma Buffer_eqb_eq (a b : Buffer) : Buffer_eqb a b = true ↔ a = b.
Proof.
  revert b. induction a as [|x a IH]; intros [|y b]; simpl; try (split; congruence).
  rewrite andb_true_iff, IH. split.
  - intros [Hxy ->]. by rewrite (Byte.byte_dec_bl _ _ Hxy).
  - intros [= -> ->]. split; [by apply Byte.byte_dec_lb | done].
Qed.

Lemma length_mac (key iv ciphertext : Buffer) : length (mac key iv ciphertext) = 16.
Proof. unfold mac. by rewrite length_map, length_seq. Qed.

Lemma unseal_seal (key iv plaintext : Buffer) :
  unseal key iv (snd (seal key iv plaintext)) (fst (seal key iv plaintext)) = inr plaintext.
Proof.
  unfold unseal, seal. cbn [fst snd]. rewrite length_mac.
  rewrite bool_decide_true by (unfold tag_lengths; set_solver). cbn [negb].
  rewrite take_ge by (rewrite length_mac; lia).
  destruct (Buffer_eqb _ _) eqn:Heq.
  - by rewrite rev_involutive.
  - assert (Buffer_eqb (mac key iv (rev plaintext)) (mac key iv (rev plaintext)) = true)
      by by apply Buffer_eqb_eq.
    congruence.
Qed.

Lemma unseal_sound (key iv tag ciphertext plaintext : Buffer) :
  unseal key iv tag ciphertext = inr plaintext →
  fst (seal key iv plaintext) = ciphertext ∧
  tag_accepted tag (snd (seal key iv plaintext)).
Proof.
  unfold unseal, seal. destruct (bool_decide _) eqn:Hlength; [|discriminate]. cbn [negb].
  apply bool_decide_eq_true in Hlength.
  destruct (Buffer_eqb _ _) eqn:Heq; [|discriminate].
  apply Buffer_eqb_eq in Heq. intros [= <-]. cbn [fst snd]. rewrite rev_involutive.
  by split.
Qed.

Lemma seal_injective (key iv p1 p2 : Buffer) :
  fst (seal key iv p1) = fst (seal key iv p2) → p1 = p2.
Proof.
  unfold seal. cbn [fst]. intros Hct.
  by rewrite <- (rev_involutive p1), Hct, rev_involutive.
Qed.

Lemma derive_length password salt iterations keylen digest :
  length (derive password salt iterations keylen digest) = N.to_nat keylen.
Proof.
  unfold derive. rewrite length_take, length_app, length_replicate. lia.
Qed.

Lemma laws : RuntimeLaws.
Proof.
  split.
  - apply read_print.
  - apply print_nonempty.
  - apply unseal_seal.
  - apply unseal_sound.
  - apply seal_injective.
  - apply derive_length.
Qed.

End ReferenceFacts.

(** The examples run on the reference runtime. *)
#[global] Existing Instance Reference.runtime | 100.
#[global] Existing Instance ReferenceFacts.laws | 100.

(** ** The token manager *)

Ltac run := unfold mbind, M_bind, mret, M_ret, bind, ret, throw, lift, try_catch.

Section TokenManagerFacts.
Context `{RuntimeLaws}.
Variable this : TokenManager.

Lemma derived_key_eq (w : World) :
  derived_key w
  = pbkdf2Sync "mcp-oauth" (hostname w +:+ "-" +:+ username w) 100000 32 "sha512".
Proof. reflexivity. Qed.

Lemma derived_key_same_machine (w w' : World) :
  hostname w' = hostname w → username w' = username w →
  derived_key w' = derived_key w.
Proof. intros Hh Hu. by rewrite !derived_key_eq, Hh, Hu. Qed.

(** Deciphering a record of the file cipher comes down to decoding
    its fields, to the cipher and to reading the plaintext. *)
Lemma decryptTokenDataFile_envelope (iv authTag data : string) (w : World) :
  decryptTokenDataFile (JSON_stringify (envelope iv authTag data)) w =
  match hex_input data with
  | None =>
      (Throw (Raised "TypeError" "The argument 'encoding' is invalid for data of odd length"), w)
  | Some ciphertext =>
      match gcm_decrypt (derived_key w) (Buffer_from_hex iv)
                        (Buffer_from_hex authTag) ciphertext with
      | inl m => (Throw (Raised "crypto" m), w)
      | inr decrypted =>
          match JSON_parse (Buffer_toString_utf8 decrypted) with
          | inl m => (Throw (Raised "SyntaxError" m), w)
          | inr j =>
              match tokens_of_json j with
              | inl e => (Throw e, w)
              | inr tokens => (Ok tokens, w)
              end
          end
      end
  end.
Proof.
  unfold decryptTokenDataFile, parse, decipher_update. run.
  rewrite (JSON_roundtrip _ (envelope_flat iv authTag data)).
  cbn. destruct (hex_input data) as [ciphertext|]; [|reflexivity].
  destruct (gcm_decrypt _ _ _ _) as [m|decrypted]; [reflexivity|].
  destruct (JSON_parse _) as [m|j]; [reflexivity|].
  by destruct (tokens_of_json j).
Qed.

(** It ends, with a credential or an error, and leaves the world as it
    is. *)
Lemma decryptTokenDataFile_envelope_settles (iv authTag data : string) (w : World) :
  (∃ tokens, decryptTokenDataFile (JSON_stringify (envelope iv authTag data)) w = (Ok tokens, w)) ∨
  (∃ e, decryptTokenDataFile (JSON_stringify (envelope iv authTag data)) w = (Throw e, w)).
Proof.
  rewrite decryptTokenDataFile_envelope.
  destruct (hex_input data) as [ciphertext|]; [|right; by eexists].
  destruct (gcm_decrypt _ _ _ _) as [m|decrypted]; [right; by eexists|].
  destruct (JSON_parse _) as [m|j]; [right; by eexists|].
  destruct (tokens_of_json j); [right | left]; by eexists.
Qed.

Lemma encryptTokenDataFile_eq (tokens : OAuth2Tokens) (w : World) :
  encryptTokenDataFile tokens w =
  let iv := entropy w (draws w) in
  let sealed := gcm_encrypt (derived_key w) iv
                  (Buffer_from_utf8 (JSON_stringify (tokens_to_json tokens))) in
  (Ok (JSON_stringify (envelope (Buffer_toString_hex iv)
                                (Buffer_toString_hex (snd sealed))
                                (Buffer_toString_hex (fst sealed)))),
   set_draws (S (draws w)) w).
Proof.
  unfold encryptTokenDataFile. run. cbn.
  by destruct (gcm_encrypt _ _ _).
Qed.

End TokenManagerFacts.

(** ** The file cipher *)

(** What the file cipher wrote, it reads back under the same key. *)
Lemma decryptTokenDataFile_encrypted `{RuntimeLaws} (tokens : OAuth2Tokens) (w w' : World) :
  derived_key w' = derived_key w →
  decryptTokenDataFile (default "" (match fst (encryptTokenDataFile tokens w) with
                                    | Ok record => Some record
                                    | _ => None
                                    end)) w'
  = (Ok tokens, w').
Proof.
  intros Hkey. rewrite encryptTokenDataFile_eq. cbn.
  rewrite decryptTokenDataFile_envelope, hex_input_toString, !Buffer_hex_roundtrip, Hkey.
  rewrite gcm_correct, utf8_roundtrip.
  rewrite (JSON_roundtrip _ (tokens_to_json_flat tokens)).
  by rewrite tokens_json_roundtrip.
Qed.

(** A record of the file cipher whose tag and ciphertext decode to the
    bytes written is read back, however its hexadecimal text is spelled. *)
Lemma decryptTokenDataFile_same_bytes `{RuntimeLaws}
    (tokens : OAuth2Tokens) (iv : Buffer) (authTag data : string) (w : World) :
  let sealed := gcm_encrypt (derived_key w) iv
                  (Buffer_from_utf8 (JSON_stringify (tokens_to_json tokens))) in
  hex_input data = Some (fst sealed) → Buffer_from_hex authTag = snd sealed →
  decryptTokenDataFile (JSON_stringify (envelope (Buffer_toString_hex iv) authTag data)) w
  = (Ok tokens, w).
Proof.
  intros sealed Hdata Htag.
  rewrite decryptTokenDataFile_envelope, Buffer_hex_roundtrip, Hdata, Htag.
  unfold sealed. rewrite gcm_correct, utf8_roundtrip.
  rewrite (JSON_roundtrip _ (tokens_to_json_flat tokens)).
  by rewrite tokens_json_roundtrip.
Qed.

(** Whatever the file cipher accepts is a genuine encryption, under the
    derived key and the nonce of the record, of the plaintext in which
    the credential returned is read; the tag presented is the tag of that
    encryption, or its first bytes. *)
Lemma decryptTokenDataFile_genuine `{RuntimeLaws}
    (iv authTag data : string) (tokens : OAuth2Tokens) (w : World) :
  decryptTokenDataFile (JSON_stringify (envelope iv authTag data)) w = (Ok tokens, w) →
  ∃ plaintext j,
    hex_input data = Some (fst (gcm_encrypt (derived_key w) (Buffer_from_hex iv) plaintext)) ∧
    tag_accepted (Buffer_from_hex authTag)
                 (snd (gcm_encrypt (derived_key w) (Buffer_from_hex iv) plaintext)) ∧
    JSON_parse (Buffer_toString_utf8 plaintext) = inr j ∧
    tokens_of_json j = inr tokens.
Proof.
  rewrite decryptTokenDataFile_envelope.
  destruct (hex_input data) as [ciphertext|]; [|done].
  destruct (gcm_decrypt _ _ _ _) as [m|plaintext] eqn:Hdec; [done|].
  destruct (JSON_parse _) as [m|j] eqn:Hparse; [done|].
  destruct (tokens_of_json j) as [e|tokens'] eqn:Hread; [done|].
  intros [= ->]. exists plaintext, j.
  apply gcm_sound in Hdec as [Hct Htag]. by rewrite Hct.
Qed.




(** A record with one more digit after its ciphertext is refused, by
    [decipher.update]; the same digit after the tag goes unnoticed. *)
Example file_cipher_refuses_odd_data :
  let written := Examples.sealed Examples.credential in
  let tag := Buffer_toString_hex (snd written) in
  let data := Buffer_toString_hex (fst written) in
  fst (decryptTokenDataFile
         (JSON_stringify (envelope "0102030405060708090a0b0c0d0e0fab" tag (data +:+ "0")))
         Examples.machine)
  = Throw (Raised "TypeError" "The argument 'encoding' is invalid for data of odd length") ∧
  fst (decryptTokenDataFile
         (JSON_stringify (envelope "0102030405060708090a0b0c0d0e0fab" (tag +:+ "0") data))
         Examples.machine)
  = Ok Examples.credential.
Proof. split; by vm_compute. Qed.

(** C10.  The key of the file cipher is PBKDF2-SHA512 of the fixed
    password ['mcp-oauth'], salted with the host name and the user name,
    at 100,000 iterations and 32 bytes; nothing else of the world enters
    it, so a later process on the same machine derives the same key, and
    the key under which a credential is encrypted does not depend on the
    credential: whatever was encrypted before is decrypted after. *)
Theorem derived_key_deterministic `{RuntimeLaws} (w : World) :
  getDerivedKey w
    = (Ok (pbkdf2Sync "mcp-oauth" (hostname w +:+ "-" +:+ username w) 100000 32 "sha512"), w) ∧
  length (derived_key w) = 32 ∧
  (∀ w', hostname w' = hostname w → username w' = username w →
     getDerivedKey w' = (Ok (derived_key w), w')) ∧
  (∀ tokens,
     fst (encryptTokenDataFile tokens w)
     = let iv := entropy w (draws w) in
       let sealed := gcm_encrypt (derived_key w) iv
                       (Buffer_from_utf8 (JSON_stringify (tokens_to_json tokens))) in
       Ok (JSON_stringify (envelope (Buffer_toString_hex iv)
                                    (Buffer_toString_hex (snd sealed))
                                    (Buffer_toString_hex (fst sealed))))) ∧
  (∀ tokens w', hostname w' = hostname w → username w' = username w →
     ∃ record, fst (encryptTokenDataFile tokens w) = Ok record ∧
               decryptTokenDataFile record w' = (Ok tokens, w')).
Proof.
  split; [reflexivity|]. split; [apply pbkdf2Sync_length|]. split; [|split].
  - intros w' Hhost Huser. unfold getDerivedKey. by rewrite Hhost, Huser.
  - intros tokens. by rewrite encryptTokenDataFile_eq.
  - intros tokens w' Hhost Huser.
    assert (derived_key w' = derived_key w) as Hkey
      by (unfold derived_key, getDerivedKey; simpl; by rewrite Hhost, Huser).
    pose proof (decryptTokenDataFile_encrypted tokens w w' Hkey) as Hback.
    rewrite encryptTokenDataFile_eq in *. by eexists.
Qed.

Lemma derived_key_deterministic_witness :
  let restarted := Examples.set_now 77 (set_draws 5 Examples.machine) in
  length (derived_key Examples.machine) = 32 ∧
  getDerivedKey restarted = (Ok (derived_key Examples.machine), restarted) ∧
  ∃ record, fst (encryptTokenDataFile Examples.credential Examples.machine) = Ok record ∧
            decryptTokenDataFile record restarted = (Ok Examples.credential, restarted).
Proof.
  intros restarted.
  destruct (derived_key_deterministic (H0 := ReferenceFacts.laws) Examples.machine)
    as (_ & Hlen & Hsame & _ & Hback).
  split; [exact Hlen|]. split; [by apply Hsame|]. by apply Hback.
Defined.

(** ** Loading the stored credential changes nothing *)

Section Readonly.
Context {A B : Type}.

Lemma readonly_ret (a : A) : readonly (mret a).
Proof. by intros w. Qed.

Lemma readonly_throw (e : exn) : readonly (@throw A e).
Proof. by intros w. Qed.

Lemma readonly_lift (r : exn + A) : readonly (lift r).
Proof. by destruct r; intros w. Qed.

Lemma readonly_bind (c : M A) (k : A → M B) :
  readonly c → (∀ a, readonly (k a)) → readonly (c ≫= k).
Proof.
  intros Hc Hk w. run. destruct (Hc w) as (Hw & Hp & Hsame).
  split; [|split].
  - destruct (c w) as [[a| |] w1]; simpl in *; subst; [apply Hk | done | done].
  - destruct (c w) as [[a| |] w1]; simpl in *; subst; [apply Hk | done | done].
  - intros w' Hw'. specialize (Hsame w' Hw').
    destruct (Hc w') as (Hw1 & _ & _).
    destruct (c w) as [r w1], (c w') as [r' w1']; simpl in *; subst.
    destruct r as [a| |]; [|done..]. by apply Hk.
Qed.

Lemma readonly_try_catch (c : M A) (h : exn → M A) :
  readonly c → (∀ e, readonly (h e)) → readonly (try_catch c h).
Proof.
  intros Hc Hh w. run. destruct (Hc w) as (Hw & Hp & Hsame).
  split; [|split].
  - destruct (c w) as [[a| |] w1]; simpl in *; subst; [done | apply Hh | done].
  - destruct (c w) as [[a| |] w1]; simpl in *; subst; [done | apply Hh | done].
  - intros w' Hw'. specialize (Hsame w' Hw').
    destruct (Hc w') as (Hw1 & _ & _).
    destruct (c w) as [r w1], (c w') as [r' w1']; simpl in *; subst.
    destruct r as [a| |]; [done| |done]. by apply Hh.
Qed.

End Readonly.

Lemma readonly_fs_pathExists (path : string) : readonly (fs_pathExists path).
Proof.
  intros w. split; [done|]. split; [done|].
  intros w' (_ & _ & _ & Hfiles & _). unfold fs_pathExists. simpl. by rewrite Hfiles.
Qed.

Lemma readonly_fs_readFile (path : string) : readonly (fs_readFile path).
Proof.
  intros w. unfold fs_readFile. split; [|split].
  - by destruct (fs_fault w), (files w !! path).
  - by destruct (fs_fault w), (files w !! path).
  - intros w' (_ & _ & _ & -> & -> & _).
    by destruct (fs_fault w), (files w !! path).
Qed.

Lemma readonly_keytar_getPassword (service account : option json) :
  readonly (keytar_getPassword service account).
Proof.
  intros w. unfold keytar_getPassword. split; [|split].
  - destruct (keytar w); [done|].
    destruct service as [[]|], account as [[]|]; done.
  - destruct (keytar w); [done|].
    destruct service as [[]|], account as [[]|]; done.
  - intros w' (_ & _ & _ & _ & _ & ->).
    destruct (keytar w); [done|].
    destruct service as [[]|], account as [[]|]; done.
Qed.

Create HintDb readonly.
#[export] Hint Resolve readonly_fs_pathExists readonly_fs_readFile
  readonly_keytar_getPassword : readonly.

Ltac readonly :=
  repeat first
    [ solve [auto 1 with readonly nocore]
    | apply readonly_ret | apply readonly_throw | apply readonly_lift
    | apply readonly_bind; [|intros ?]
    | apply readonly_try_catch; [|intros ?]
    | match goal with
      | |- readonly (match ?x with _ => _ end) => destruct x
      end ].

Section LoadFacts.
Context `{Runtime}.
Variable this : TokenManager.

Lemma readonly_parse (text : string) : readonly (parse text).
Proof. unfold parse. readonly. Qed.

Lemma readonly_Buffer_from (x : option json) : readonly (Buffer_from x).
Proof. unfold Buffer_from. readonly. Qed.

Lemma readonly_decipher_update (x : option json) : readonly (decipher_update x).
Proof. unfold decipher_update. readonly. Qed.

Lemma readonly_getDerivedKey : readonly getDerivedKey.
Proof.
  intros w. split; [done|]. split; [done|].
  intros w' (_ & Hhost & Huser & _). unfold getDerivedKey. simpl.
  by rewrite Hhost, Huser.
Qed.

Lemma readonly_tokenFile (userId : string) : readonly (tokenFile this userId).
Proof.
  intros w. split; [done|]. split; [done|].
  intros w' (Hhome & _). unfold tokenFile, tokenPath. simpl. by rewrite Hhome.
Qed.

Hint Resolve readonly_parse readonly_Buffer_from readonly_decipher_update
  readonly_getDerivedKey readonly_tokenFile : readonly.

Lemma readonly_decryptTokenDataFile (encryptedData : string) :
  readonly (decryptTokenDataFile encryptedData).
Proof. unfold decryptTokenDataFile. readonly. Qed.

Lemma readonly_decryptFromKeychain (reference : json) :
  readonly (decryptFromKeychain reference).
Proof. unfold decryptFromKeychain. readonly. Qed.

Hint Resolve readonly_decryptTokenDataFile readonly_decryptFromKeychain : readonly.

Lemma readonly_decryptTokenData (encryptedData : string) :
  readonly (decryptTokenData encryptedData).
Proof. unfold decryptTokenData. readonly. Qed.

Hint Resolve readonly_decryptTokenData : readonly.

Lemma readonly_getTokens (userId : string) : readonly (getTokens this userId).
Proof. unfold getTokens. readonly. Qed.

(** [getTokens] never throws: whatever goes wrong is answered [null]. *)
Lemma getTokens_settles (userId : string) (w : World) :
  ∃ stored, getTokens this userId w = (Ok stored, w).
Proof.
  destruct (readonly_getTokens userId w) as (Hw & Hp & _).
  unfold getTokens, tokenFile, fs_pathExists in *. revert Hw Hp. run.
  destruct (bool_decide _); simpl; [|by eexists].
  destruct (fs_readFile _ w) as [[content|e|] w1]; simpl.
  - destruct (decryptTokenData content w1) as [[tokens|e|] w2]; simpl;
      intros -> Hp; [by exists (Some tokens) | by exists None | done].
  - intros -> _. by exists None.
  - done.
Qed.

(** *** The document loaded and the credential it is taken for *)

Lemma readonly_decryptTokenDataFile_document (encryptedData : string) :
  readonly (decryptTokenDataFile_document encryptedData).
Proof. unfold decryptTokenDataFile_document. readonly. Qed.

Lemma readonly_decryptFromKeychain_document (reference : json) :
  readonly (decryptFromKeychain_document reference).
Proof. unfold decryptFromKeychain_document. readonly. Qed.

Hint Resolve readonly_decryptTokenDataFile_document
  readonly_decryptFromKeychain_document : readonly.

Lemma readonly_decryptTokenData_document (encryptedData : string) :
  readonly (decryptTokenData_document encryptedData).
Proof. unfold decryptTokenData_document. readonly. Qed.

(** A document of the declared type reads as a credential, and its
    preview can be logged. *)
Lemma declared_tokens_of_json (j : json) :
  declared j → ∃ tokens, tokens_of_json j = inr tokens.
Proof.
  destruct j as [| | | | |members]; try done. simpl.
  intros [tokens Hfields]. exists tokens. by rewrite Hfields.
Qed.

Lemma declared_token_preview (j : json) (w : World) :
  declared j → token_preview j w = (Ok tt, w).
Proof.
  destruct j as [| | | | |members]; try done. simpl.
  intros [tokens Hfields]. unfold token_preview. run. simpl.
  unfold fields_of in Hfields.
  destruct (assoc "access_token" members) as [[|[]|n|a|?|?]|]; try done.
Qed.

(** The file cipher returns the document it has read, seen as a
    credential. *)
Lemma decryptTokenDataFile_typed (encryptedData : string) (w : World) :
  decryptTokenDataFile encryptedData w =
  match decryptTokenDataFile_document encryptedData w with
  | (Ok j, w1) =>
      (match tokens_of_json j with inl e => Throw e | inr tokens => Ok tokens end, w1)
  | (Throw e, w1) => (Throw e, w1)
  | (Pending, w1) => (Pending, w1)
  end.
Proof.
  unfold decryptTokenDataFile, decryptTokenDataFile_document, parse. run.
  destruct (getDerivedKey w) as [[key|e|] w1]; simpl; [|done..].
  destruct (JSON_parse encryptedData) as [m|encrypted]; simpl; [done|].
  destruct (prop encrypted "iv") as [e|x]; simpl; [done|].
  destruct (Buffer_from x w1) as [[iv|e|] w2]; simpl; [|done..].
  destruct (prop encrypted "authTag") as [e|y]; simpl; [done|].
  destruct (Buffer_from y w2) as [[authTag|e|] w3]; simpl; [|done..].
  destruct (prop encrypted "data") as [e|z]; simpl; [done|].
  destruct (decipher_update z w3) as [[data|e|] w4]; simpl; [|done..].
  destruct (gcm_decrypt key iv authTag data) as [m|decrypted]; simpl; [done|].
  destruct (JSON_parse _) as [m|j]; simpl; [done|].
  by destruct (tokens_of_json j).
Qed.

(** So does the keychain, where a document that does not read as a
    credential is one more failure of the keychain. *)
Lemma decryptFromKeychain_typed (reference : json) (w : World) :
  decryptFromKeychain reference w =
  match decryptFromKeychain_document reference w with
  | (Ok j, w1) =>
      (match tokens_of_json j with
       | inl e => Throw (Error ("Keychain decryption failed: " +:+ errorMessage e))
       | inr tokens => Ok tokens
       end, w1)
  | (Throw e, w1) => (Throw e, w1)
  | (Pending, w1) => (Pending, w1)
  end.
Proof.
  unfold decryptFromKeychain, decryptFromKeychain_document, parse. run.
  destruct (prop reference "service") as [e|service]; simpl; [done|].
  destruct (prop reference "account") as [e|account]; simpl; [done|].
  destruct (keytar_getPassword service account w) as [[tokenData|e|] w1]; simpl; [|done..].
  destruct (no_data tokenData); simpl; [done|].
  destruct (JSON_parse _) as [m|j]; simpl; [done|].
  by destruct (tokens_of_json j).
Qed.

(** [decryptTokenData] returns the credential that the document it has
    read is, and fails where no document is read. *)
Lemma decryptTokenData_typed (encryptedData : string) (w : World) :
  match fst (decryptTokenData_document encryptedData w) with
  | Ok j => ∀ tokens, tokens_of_json j = inr tokens →
                      fst (decryptTokenData encryptedData w) = Ok tokens
  | Throw _ => ∃ e, fst (decryptTokenData encryptedData w) = Throw e
  | Pending => False
  end.
Proof.
  pose proof (decryptTokenDataFile_typed encryptedData w) as Hfile.
  destruct (readonly_decryptTokenDataFile_document encryptedData w) as (Hfw & Hfp & _).
  unfold decryptTokenData, decryptTokenData_document, parse. run.
  destruct (decryptTokenDataFile_document encryptedData w) as [rf wf] eqn:Hdoc.
  simpl in Hfw, Hfp. subst wf.
  assert (match rf with
          | Ok j => ∀ tokens, tokens_of_json j = inr tokens →
                              fst (decryptTokenDataFile encryptedData w) = Ok tokens
          | Throw _ => ∃ e, fst (decryptTokenDataFile encryptedData w) = Throw e
          | Pending => False
          end) as Hfallback.
  { rewrite Hfile. destruct rf as [j|e|]; [|by eexists|done].
    intros tokens Hread. by rewrite Hread. }
  destruct (JSON_parse encryptedData) as [m|reference]; simpl;
    [rewrite Hdoc; exact Hfallback|].
  destruct (prop reference "type") as [e|type]; simpl;
    [rewrite Hdoc; exact Hfallback|].
  destruct (is_keychain type).
  - pose proof (decryptFromKeychain_typed reference w) as Hkeychain.
    destruct (readonly_decryptFromKeychain_document reference w) as (Hkw & Hkp & _).
    destruct (decryptFromKeychain_document reference w) as [rk wk].
    simpl in Hkw, Hkp. subst wk. rewrite Hkeychain.
    destruct rk as [j|e|]; simpl; [| |done].
    + intros tokens Hread. by rewrite Hread.
    + rewrite Hdoc. exact Hfallback.
  - rewrite Hdoc. destruct rf as [j|e|]; simpl; [| |done].
    + intros tokens Hread. rewrite Hfile, Hread. simpl. done.
    + rewrite Hdoc. simpl. rewrite Hfile. simpl. rewrite Hfile. by eexists.
Qed.

(** Where every document that can be read from the record is of the
    declared type, [getTokens] returns the document that is loaded, as the
    credential it is. *)
Lemma getTokens_typed (userId : string) (w : World) :
  (∀ content j,
     files w !! path_join (tokenPath this w) (userId +:+ ".json") = Some content →
     fst (decryptTokenData_document content w) = Ok j → declared j) →
  match fst (getTokens_document this userId w) with
  | Ok (Some j) => ∃ tokens, tokens_of_json j = inr tokens ∧
                             getTokens this userId w = (Ok (Some tokens), w)
  | Ok None => getTokens this userId w = (Ok None, w)
  | _ => False
  end.
Proof.
  intros Hdeclared.
  unfold getTokens, getTokens_document, tokenFile, fs_pathExists. run. simpl.
  destruct (bool_decide _); simpl; [|done].
  unfold fs_readFile.
  destruct (fs_fault w) as [m|]; simpl; [done|].
  destruct (files w !! _) as [content|] eqn:Hfile; simpl; [|done].
  pose proof (decryptTokenData_typed content w) as Htyped.
  destruct (readonly_decryptTokenData_document content w) as (Hw & _).
  destruct (readonly_decryptTokenData content w) as (Hw' & _).
  specialize (Hdeclared content).
  destruct (decryptTokenData_document content w) as [r w1].
  destruct (decryptTokenData content w) as [r' w1'].
  simpl in *. subst w1 w1'.
  destruct r as [j|e|]; simpl; [| |done].
  - specialize (Hdeclared j eq_refl eq_refl).
    rewrite (declared_token_preview j w Hdeclared). simpl.
    destruct (declared_tokens_of_json j Hdeclared) as [tokens Hread].
    exists tokens. split; [done|]. by rewrite (Htyped tokens Hread).
  - destruct Htyped as [e' ->]. done.
Qed.

End LoadFacts.

(** C3 (as amended).  [getTokens] answers [null] when no record exists.
    When a record exists and [decryptTokenData] fails, the failure is that
    of the file cipher (tried last, after the keychain if the record
    points there), and [getTokens] catches it and answers [null] as well:
    it never throws. *)
Theorem getTokens_missing_or_undecipherable `{Runtime}
    (this : TokenManager) (userId : string) (w : World) :
  let file := path_join (tokenPath this w) (userId +:+ ".json") in
  (files w !! file = None → getTokens this userId w = (Ok None, w)) ∧
  (∀ content e,
     files w !! file = Some content → fs_fault w = None →
     fst (decryptTokenData content w) = Throw e →
     fst (decryptTokenDataFile content w) = Throw e ∧
     getTokens this userId w = (Ok None, w)) ∧
  (∀ e, fst (getTokens this userId w) ≠ Throw e).
Proof.
  intros file. split; [|split].
  - intros Hnone. unfold getTokens, tokenFile, fs_pathExists. run. fold file.
    rewrite Hnone. by rewrite bool_decide_eq_false_2 by by intros [? ?].
  - intros content e Hfile Hfault Hfail. split.
    + revert Hfail. unfold decryptTokenData. run.
      destruct (readonly_parse content w) as (Hw & _).
      destruct (parse content w) as [[reference|e0|] w1]; simpl in *; subst w1; [|done|done].
      destruct (prop reference "type") as [e0|type]; simpl; [done|].
      destruct (is_keychain type).
      * destruct (readonly_decryptFromKeychain reference w) as (Hw & _).
        by destruct (decryptFromKeychain reference w) as [[] w1]; simpl in *; subst w1.
      * destruct (readonly_decryptTokenDataFile content w) as (Hw & _).
        destruct (decryptTokenDataFile content w) as [[] w1] eqn:Hfile'; simpl in *;
          subst w1; rewrite ?Hfile'; done.
    + destruct (readonly_decryptTokenData content w) as (Hw & _).
      revert Hfail Hw. unfold getTokens, tokenFile, fs_pathExists, fs_readFile. run.
      unfold file in Hfile. rewrite Hfile.
      rewrite bool_decide_eq_true_2 by by eexists.
      cbn. rewrite Hfault, Hfile.
      by destruct (decryptTokenData content w) as [[] w1]; simpl; intros; subst.
  - intros e. by destruct (getTokens_settles this userId w) as [stored ->].
Qed.

Lemma getTokens_missing_or_undecipherable_witness :
  fst (decryptTokenDataFile Examples.orphan Examples.orphaned)
    = Throw (Raised "TypeError" "The first argument must be of type string") ∧
  getTokens tokenManager "default" Examples.orphaned = (Ok None, Examples.orphaned) ∧
  getTokens tokenManager "default" Examples.machine = (Ok None, Examples.machine).
Proof.
  destruct (getTokens_missing_or_undecipherable tokenManager "default" Examples.orphaned)
    as (_ & Hfail & _).
  destruct (getTokens_missing_or_undecipherable tokenManager "default" Examples.machine)
    as (Hnone & _ & _).
  split; [|split].
  - by apply (Hfail Examples.orphan).
  - by apply (Hfail Examples.orphan
                (Raised "TypeError" "The first argument must be of type string")).
  - by apply Hnone.
Defined.

(** C3 as stated fails: here a record exists, the keychain lookup it
    asks for fails, the file cipher fails on it too, and [getTokens]
    answers [null] instead of throwing. *)
Lemma getTokens_swallows_undecipherable_record :
  files Examples.orphaned !! Examples.record_path = Some Examples.orphan ∧
  (∃ e, fst (decryptFromKeychain
               (keychain_reference "mcp-oauth-tokens" "default-default")
               Examples.orphaned) = Throw e) ∧
  (∃ e, fst (decryptTokenDataFile Examples.orphan Examples.orphaned) = Throw e) ∧
  fst (getTokens tokenManager "default" Examples.orphaned) = Ok None ∧
  ¬ ∃ e, fst (getTokens tokenManager "default" Examples.orphaned) = Throw e.
Proof.
  split; [by vm_compute|]. split; [vm_compute; by eexists|].
  split; [vm_compute; by eexists|]. split; [by vm_compute|].
  intros [e He]. vm_compute in He. discriminate.
Qed.

(** ** Storing and refreshing *)

Section StoreFacts.
Context `{Runtime}.
Variable this : TokenManager.

(** [storeTokens] settles, and touches stored data only. *)
Lemma storeTokens_storage_only (tokens : OAuth2Tokens) (userId : string) (w : World) :
  storage_only w (snd (storeTokens this tokens userId w)) ∧
  fst (storeTokens this tokens userId w) ≠ Pending.
Proof.
  unfold storeTokens, tokenFile, encryptTokenData, encryptWithKeychain,
    keytar_setPassword, encryptTokenDataFile, getDerivedKey, crypto_randomBytes,
    fs_writeFile, storage_only.
  run. destruct (keytar w) as [m|k]; cbn.
  - destruct (gcm_encrypt _ _ _) as [encrypted authTag]; cbn.
    destruct (fs_fault w) eqn:Hfault; cbn; rewrite ?Hfault; by repeat split.
  - destruct (fs_fault w) eqn:Hfault; cbn; rewrite ?Hfault; by repeat split.
Qed.

(** A failure of [storeTokens] is an [Error] of its own making. *)
Lemma storeTokens_throws (tokens : OAuth2Tokens) (userId : string) (w : World) (e : exn) :
  fst (storeTokens this tokens userId w) = Throw e →
  ∃ m, e = Error ("Token storage failed: " +:+ m).
Proof.
  unfold storeTokens, tokenFile. run. simpl.
  destruct (encryptTokenData this tokens w) as [[encryptedData|e0|] w1]; simpl.
  - destruct (fs_writeFile _ encryptedData w1) as [[[]|e0|] w2]; simpl;
      [done | intros [= <-]; by eexists | done].
  - intros [= <-]. by eexists.
  - done.
Qed.

End StoreFacts.

Section ClientFacts.
Context `{Runtime}.

Lemma truthy_Some (s : optional string) (a : string) :
  truthy s = Some a ↔ s = value a ∧ a ≠ "".
Proof.
  destruct s as [| |b]; simpl; [split; [done | by intros [? _]] ..|].
  destruct (String.eqb_spec b ""); split.
  - done.
  - intros [[= ->] ?]. done.
  - intros [= ->]. done.
  - by intros [[= ->] _].
Qed.

(** [refreshTokens], step by step. *)
Lemma refreshTokens_eq (refreshToken : string) (w : World) :
  refreshTokens refreshToken w =
  let sent := set_refresh_calls (refresh_calls w ++ [refreshToken]) w in
  match refresh_endpoint w (length (refresh_calls w)) refreshToken with
  | inl m => (Throw (Raised "google-auth-library" m), sent)
  | inr credentials =>
      match storeTokens tokenManager credentials "default" sent with
      | (Ok _, w') => (Ok credentials, w')
      | (Throw e, w') => (Throw e, w')
      | (Pending, w') => (Pending, w')
      end
  end.
Proof.
  unfold refreshTokens, refreshAccessToken. run. cbn.
  destruct (refresh_endpoint w _ _) as [m|credentials]; [reflexivity|].
  by destruct (storeTokens _ _ _ _) as [[[]|e|] w'].
Qed.

(** [getValidAccessToken] when a credential is stored. *)
Lemma getValidAccessToken_stored (fuel : nat) (w : World) (tokens : OAuth2Tokens) :
  getTokens tokenManager "default" w = (Ok (Some tokens), w) →
  getValidAccessToken (S fuel) w =
  if (Z.of_N (now w) + 5 * 60 * 1000 >=? or_zero (expiry_date tokens))%Z then
    match truthy (refresh_token tokens) with
    | None => (Throw (Error "No refresh token available for token refresh"), w)
    | Some refresh_token =>
        match refreshTokens refresh_token w with
        | (Ok refreshedTokens, w') =>
            match truthy (access_token refreshedTokens) with
            | None => (Throw (Error "Failed to refresh access token"), w')
            | Some access_token => (Ok access_token, w')
            end
        | (Throw e, w') => (Throw e, w')
        | (Pending, w') => (Pending, w')
        end
    end
  else
    match truthy (access_token tokens) with
    | None => (Throw (Error "No access token available"), w)
    | Some access_token => (Ok access_token, w)
    end.
Proof.
  intros Hstored. cbn [getValidAccessToken]. run. rewrite Hstored.
  unfold isTokenExpired. cbn.
  destruct (_ >=? _)%Z.
  - destruct (truthy (refresh_token tokens)); [|reflexivity].
    destruct (refreshTokens _ w) as [[refreshedTokens|e|] w']; [|reflexivity..].
    by destruct (truthy (access_token refreshedTokens)).
  - by destruct (truthy (access_token tokens)).
Qed.

(** [isAuthenticated], whatever is stored. *)
Lemma isAuthenticated_eq (w : World) :
  isAuthenticated w =
  match fst (getTokens tokenManager "default" w) with
  | Ok (Some tokens) =>
      match truthy (access_token tokens) with
      | Some _ =>
          (Ok (negb (Z.of_N (now w) + 5 * 60 * 1000 >=? or_zero (expiry_date tokens))%Z), w)
      | None => (Ok false, w)
      end
  | _ => (Ok false, w)
  end.
Proof.
  unfold isAuthenticated. run.
  destruct (getTokens_settles tokenManager "default" w) as [stored ->]. simpl.
  destruct stored as [tokens|]; [|reflexivity].
  by destruct (truthy (access_token tokens)).
Qed.

End ClientFacts.

(** ** The access token on demand *)

(** C2 (as amended).  With a stored credential that expires more than 5
    minutes from now and has a non-empty access token,
    [getValidAccessToken] returns that string and leaves the world as it
    was: no refresh, no authorization, no write.  With a stored credential
    that expires within 5 minutes (inclusive), it never starts an
    authorization, and whatever it returns is the access token answered to
    the one refresh request it has sent. *)
Theorem getValidAccessToken_fresh_or_refreshed `{Runtime}
    (fuel : nat) (w : World) (tokens : OAuth2Tokens) (expiry : Z) :
  getTokens tokenManager "default" w = (Ok (Some tokens), w) →
  expiry_date tokens = value expiry →
  ((Z.of_N (now w) + 5 * 60 * 1000 < expiry)%Z →
   ∀ a, access_token tokens = value a → a ≠ "" →
        getValidAccessToken (S fuel) w = (Ok a, w)) ∧
  ((expiry ≤ Z.of_N (now w) + 5 * 60 * 1000)%Z →
   ∀ r w', getValidAccessToken (S fuel) w = (r, w') →
     authorize_calls w' = authorize_calls w ∧
     ∀ a, r = Ok a →
       ∃ refreshToken credentials,
         truthy (refresh_token tokens) = Some refreshToken ∧
         refresh_calls w' = refresh_calls w ++ [refreshToken] ∧
         refresh_endpoint w (length (refresh_calls w)) refreshToken = inr credentials ∧
         truthy (access_token credentials) = Some a).
Proof.
  intros Hstored Hexpiry. rewrite (getValidAccessToken_stored fuel w tokens Hstored).
  rewrite Hexpiry. simpl or_zero. split.
  - intros Hfresh a Ha Hne.
    destruct (Z.geb_spec (Z.of_N (now w) + 5 * 60 * 1000) expiry); [lia|].
    by rewrite (proj2 (truthy_Some _ a) (conj Ha Hne)).
  - intros Hnear r w'.
    destruct (Z.geb_spec (Z.of_N (now w) + 5 * 60 * 1000) expiry); [|lia].
    destruct (truthy (refresh_token tokens)) as [refreshToken|]; [|by intros [= <- <-]].
    rewrite refreshTokens_eq. cbn zeta.
    destruct (refresh_endpoint w _ _) as [m|credentials] eqn:Hanswer;
      [by intros [= <- <-]|].
    destruct (storeTokens_storage_only tokenManager credentials "default"
                (set_refresh_calls (refresh_calls w ++ [refreshToken]) w))
      as [(_ & _ & _ & _ & _ & _ & _ & Hcalls & _ & _ & Hauth) _].
    destruct (storeTokens _ _ _ _) as [[[]|e|] w2]; simpl in *;
      [|by intros [= <- <-]..].
    destruct (truthy (access_token credentials)) as [a'|] eqn:Htoken;
      intros [= <- <-]; split; [done| |done|done].
    intros a [= <-]. by exists refreshToken, credentials.
Qed.

Lemma getValidAccessToken_fresh_or_refreshed_witness :
  getValidAccessToken 1 Examples.authorized = (Ok "ya29.first", Examples.authorized) ∧
  ∃ refreshToken credentials,
    truthy (refresh_token Examples.credential) = Some refreshToken ∧
    refresh_calls (snd (getValidAccessToken 1 Examples.expiring)) = [refreshToken] ∧
    refresh_endpoint Examples.expiring 0 refreshToken = inr credentials ∧
    truthy (access_token credentials) = Some "ya29.refresh-0".
Proof.
  split.
  - apply (getValidAccessToken_fresh_or_refreshed 0 Examples.authorized
             Examples.credential 2000000);
      [by vm_compute | reflexivity | by vm_compute | reflexivity | done].
  - destruct (getValidAccessToken_fresh_or_refreshed 0 Examples.expiring
                Examples.credential 2000000) as [_ Hnear];
      [by vm_compute | reflexivity |].
    apply (Hnear ltac:(by vm_compute) (Ok "ya29.refresh-0")
             (snd (getValidAccessToken 1 Examples.expiring)));
      [by vm_compute | reflexivity].
Defined.

(** C2 as stated fails: the stored credential expires more than 5 minutes
    from now, its access token is the empty string, and
    [getValidAccessToken] throws instead of returning it. *)
Lemma getValidAccessToken_refuses_empty_token :
  getTokens tokenManager "default" Examples.blank
    = (Ok (Some Examples.blank_credential), Examples.blank) ∧
  expiry_date Examples.blank_credential = value 2000000%Z ∧
  (Z.of_N (now Examples.blank) + 5 * 60 * 1000 < 2000000)%Z ∧
  access_token Examples.blank_credential = value "" ∧
  getValidAccessToken 1 Examples.blank
    = (Throw (Error "No access token available"), Examples.blank).
Proof. repeat split; by vm_compute. Qed.

(** C5.  With a stored credential inside the 5-minute buffer and no
    refresh token, [getValidAccessToken] throws the error reserved for
    that case and does nothing else: no authorization is started, no
    request is sent, nothing is written.  With a refresh token that the
    token endpoint rejects, the rejection itself is what the caller gets:
    an exception of the library, never the error of the first case, after
    exactly one request, with the stored record untouched and no
    authorization started. *)
Theorem getValidAccessToken_failures `{Runtime}
    (fuel : nat) (w : World) (tokens : OAuth2Tokens) :
  getTokens tokenManager "default" w = (Ok (Some tokens), w) →
  (or_zero (expiry_date tokens) ≤ Z.of_N (now w) + 5 * 60 * 1000)%Z →
  (truthy (refresh_token tokens) = None →
   getValidAccessToken (S fuel) w
   = (Throw (Error "No refresh token available for token refresh"), w)) ∧
  (∀ refreshToken m,
     truthy (refresh_token tokens) = Some refreshToken →
     refresh_endpoint w (length (refresh_calls w)) refreshToken = inl m →
     getValidAccessToken (S fuel) w
     = (Throw (Raised "google-auth-library" m),
        set_refresh_calls (refresh_calls w ++ [refreshToken]) w) ∧
     Raised "google-auth-library" m ≠ Error "No refresh token available for token refresh").
Proof.
  intros Hstored Hnear. rewrite (getValidAccessToken_stored fuel w tokens Hstored).
  destruct (Z.geb_spec (Z.of_N (now w) + 5 * 60 * 1000) (or_zero (expiry_date tokens)));
    [|lia].
  split.
  - by intros ->.
  - intros refreshToken m -> Hreject. rewrite refreshTokens_eq. cbn zeta.
    by rewrite Hreject.
Qed.

Lemma getValidAccessToken_failures_witness :
  getValidAccessToken 1 Examples.bare
    = (Throw (Error "No refresh token available for token refresh"), Examples.bare) ∧
  getValidAccessToken 1 Examples.rejecting
    = (Throw (Raised "google-auth-library" "invalid_grant"),
       set_refresh_calls ["1//refresh"] Examples.rejecting).
Proof.
  split.
  - apply (getValidAccessToken_failures 0 Examples.bare Examples.bare_credential);
      by vm_compute.
  - apply (getValidAccessToken_failures 0 Examples.rejecting Examples.credential);
      by vm_compute.
Defined.

(** A call that finds an expired credential with a refresh token sends
    one refresh request, and can only return what is answered to it. *)
Lemma getValidAccessToken_expired `{Runtime}
    (fuel : nat) (w : World) (tokens : OAuth2Tokens) (refreshToken : string) :
  getTokens tokenManager "default" w = (Ok (Some tokens), w) →
  (or_zero (expiry_date tokens) ≤ Z.of_N (now w) + 5 * 60 * 1000)%Z →
  truthy (refresh_token tokens) = Some refreshToken →
  ∃ r w',
    getValidAccessToken (S fuel) w = (r, w') ∧
    refresh_calls w' = refresh_calls w ++ [refreshToken] ∧
    authorize_calls w' = authorize_calls w ∧
    ∀ a, r = Ok a →
      ∃ credentials,
        refresh_endpoint w (length (refresh_calls w)) refreshToken = inr credentials ∧
        truthy (access_token credentials) = Some a.
Proof.
  intros Hstored Hnear Hrefresh.
  rewrite (getValidAccessToken_stored fuel w tokens Hstored).
  destruct (Z.geb_spec (Z.of_N (now w) + 5 * 60 * 1000) (or_zero (expiry_date tokens)));
    [|lia].
  rewrite Hrefresh, refreshTokens_eq. cbn zeta.
  destruct (refresh_endpoint w _ _) as [m|credentials] eqn:Hanswer;
    [by eexists _, _|].
  destruct (storeTokens_storage_only tokenManager credentials "default"
              (set_refresh_calls (refresh_calls w ++ [refreshToken]) w))
    as [(_ & _ & _ & _ & _ & _ & _ & Hcalls & _ & _ & Hauth) _].
  destruct (storeTokens _ _ _ _) as [[[]|e|] w2]; simpl in *;
    [|by eexists _, _..].
  destruct (truthy (access_token credentials)) as [a'|] eqn:Htoken;
    eexists _, _; (split; [reflexivity|]); (split; [done|]); (split; [done|]);
    [|done].
  intros a [= <-]. by exists credentials.
Qed.



Example isAuthenticated_fresh :
  isAuthenticated Examples.authorized = (Ok true, Examples.authorized).
Proof. by vm_compute. Qed.

Example isAuthenticated_near_expiry :
  isAuthenticated Examples.expiring = (Ok false, Examples.expiring).
Proof. by vm_compute. Qed.

Example isAuthenticated_empty_token :
  isAuthenticated Examples.blank = (Ok false, Examples.blank).
Proof. by vm_compute. Qed.

Example isAuthenticated_undecipherable :
  isAuthenticated Examples.orphaned = (Ok false, Examples.orphaned).
Proof. by vm_compute. Qed.

Example isAuthenticated_nothing_stored :
  isAuthenticated Examples.machine = (Ok false, Examples.machine).
Proof. by vm_compute. Qed.

(** C9.  A stored credential whose [expiry_date] is [null] or absent
    counts as expired: [isAuthenticated] answers [false], and
    [getValidAccessToken] does not return the stored access token: without
    a refresh token it throws, with one it sends a refresh request and can
    only return the access token answered to it. *)
Theorem missing_expiry_is_expired `{Runtime}
    (fuel : nat) (w : World) (tokens : OAuth2Tokens) :
  getTokens tokenManager "default" w = (Ok (Some tokens), w) →
  expiry_date tokens = null ∨ expiry_date tokens = undefined →
  isAuthenticated w = (Ok false, w) ∧
  (truthy (refresh_token tokens) = None →
   getValidAccessToken (S fuel) w
   = (Throw (Error "No refresh token available for token refresh"), w)) ∧
  (∀ refreshToken,
     truthy (refresh_token tokens) = Some refreshToken →
     ∃ r w',
       getValidAccessToken (S fuel) w = (r, w') ∧
       refresh_calls w' = refresh_calls w ++ [refreshToken] ∧
       ∀ a, r = Ok a →
         ∃ credentials,
           refresh_endpoint w (length (refresh_calls w)) refreshToken = inr credentials ∧
           truthy (access_token credentials) = Some a).
Proof.
  intros Hstored Hmissing.
  assert (or_zero (expiry_date tokens) = 0%Z) as Hzero
    by by destruct Hmissing as [-> | ->].
  assert (or_zero (expiry_date tokens) ≤ Z.of_N (now w) + 5 * 60 * 1000)%Z as Hnear
    by lia.
  split; [|split].
  - rewrite isAuthenticated_eq, Hstored. simpl.
    destruct (truthy (access_token tokens)); [|reflexivity].
    by destruct (Z.geb_spec (Z.of_N (now w) + 5 * 60 * 1000) (or_zero (expiry_date tokens)));
      [|lia].
  - intros Hnone. rewrite (getValidAccessToken_stored fuel w tokens Hstored).
    destruct (Z.geb_spec (Z.of_N (now w) + 5 * 60 * 1000) (or_zero (expiry_date tokens)));
      [|lia].
    by rewrite Hnone.
  - intros refreshToken Hrefresh.
    destruct (getValidAccessToken_expired fuel w tokens refreshToken Hstored Hnear Hrefresh)
      as (r & w' & Hrun & Hcalls & _ & Hanswer).
    by exists r, w'.
Qed.

Lemma missing_expiry_is_expired_witness :
  isAuthenticated Examples.undated = (Ok false, Examples.undated) ∧
  ∃ r w',
    getValidAccessToken 1 Examples.undated = (r, w') ∧
    refresh_calls w' = ["1//refresh"] ∧
    ∀ a, r = Ok a →
      ∃ credentials,
        refresh_endpoint Examples.undated 0 "1//refresh" = inr credentials ∧
        truthy (access_token credentials) = Some a.
Proof.
  destruct (missing_expiry_is_expired 0 Examples.undated Examples.undated_credential)
    as (Hauth & _ & Hrefresh); [by vm_compute | by left |].
  split; [exact Hauth|]. by apply Hrefresh.
Defined.

(** ** The callback listener *)

(** Requests without code or error are answered 400 and change nothing
    else. *)
Lemma deliver_ignored (events : list callback_event) (s : callback_server) :
  Forall ignored events →
  foldl deliver s events
  = {| listening := listening s; promise := promise s; timer := timer s;
       replies := replies s ++ replicate (length events) 400%N |}.
Proof.
  revert s. induction events as [|ev events IH]; intros s Hall.
  - simpl. rewrite app_nil_r. by destruct s.
  - inversion Hall as [|? ? Hev Hrest]; subst. simpl foldl.
    destruct ev as [code error|]; [|done]. destruct Hev as [Hcode Herror].
    rewrite IH by done. unfold deliver, on_request. rewrite Hcode, Herror. simpl.
    by rewrite <- app_assoc.
Qed.

(** Once the server is closed and the promise settled, they stay so,
    whatever arrives. *)
Lemma deliver_closed (events : list callback_event) (s : callback_server) :
  listening s = false → promise s ≠ Unsettled →
  promise (foldl deliver s events) = promise s ∧
  listening (foldl deliver s events) = false.
Proof.
  revert s. induction events as [|ev events IH]; intros s Hclosed Hsettled; [done|].
  simpl foldl.
  assert (promise (deliver s ev) = promise s ∧ listening (deliver s ev) = false)
    as (Hp & Hl).
  { destruct ev as [code error|]; simpl.
    - unfold on_request.
      destruct (truthy_param code), (truthy_param error); simpl;
        by destruct (promise s).
    - unfold on_timer. destruct (timer s); simpl; [|done].
      by destruct (promise s). }
  destruct (IH (deliver s ev)) as (Hp' & Hl'); [done | by rewrite Hp|].
  by rewrite Hp', Hl'.
Qed.

(** The listener after requests that carry neither a code nor an error. *)
Lemma run_callback_server_ignored (before : list callback_event) :
  Forall ignored before →
  foldl deliver callback_server_started before
  = {| listening := true; promise := Unsettled; timer := Some (5 * 60 * 1000)%N;
       replies := replicate (length before) 400%N |}.
Proof. intros Hbefore. by rewrite deliver_ignored. Qed.

(** C6.  After any number of requests that carry neither a code nor an
    error (each answered 400), the first callback with a code is answered
    200 and resolves the promise with that code, and the first with an
    error only is answered 400 and rejects it; that callback closes the
    server, and the promise keeps its outcome and the server stays closed
    whatever arrives afterwards.  If the timer, armed for 5 minutes, fires
    first, the promise is rejected with the timeout error and the server
    is closed, for good as well. *)
Theorem callback_server_settles_once (before after : list callback_event) :
  Forall ignored before →
  timer callback_server_started = Some (5 * 60 * 1000)%N ∧
  (∀ code error c,
     truthy_param code = Some c →
     let s := run_callback_server (before ++ Request code error :: after) in
     promise s = Resolved c ∧ listening s = false ∧
     replies (run_callback_server (before ++ [Request code error]))
       = replicate (length before) 400%N ++ [200%N]) ∧
  (∀ code error e,
     truthy_param code = None → truthy_param error = Some e →
     let s := run_callback_server (before ++ Request code error :: after) in
     promise s = Rejected (Error ("OAuth authorization failed: " +:+ e)) ∧
     listening s = false ∧
     replies (run_callback_server (before ++ [Request code error]))
       = replicate (length before) 400%N ++ [400%N]) ∧
  (let s := run_callback_server (before ++ TimerFired :: after) in
   promise s = Rejected (Error "OAuth authorization timeout") ∧
   listening s = false ∧
   replies (run_callback_server (before ++ [TimerFired]))
     = replicate (length before) 400%N).
Proof.
  intros Hbefore. split; [reflexivity|].
  pose proof (run_callback_server_ignored before Hbefore) as Hprefix.
  unfold run_callback_server. split; [|split].
  - intros code error c Hcode. cbv zeta. rewrite !foldl_app, Hprefix. simpl foldl.
    unfold on_request. simpl. rewrite Hcode. simpl.
    split; [|split; [|done]]; by apply deliver_closed.
  - intros code error e Hcode Herror. cbv zeta. rewrite !foldl_app, Hprefix. simpl foldl.
    unfold on_request. simpl. rewrite Hcode, Herror. simpl.
    split; [|split; [|done]]; by apply deliver_closed.
  - cbv zeta. rewrite !foldl_app, Hprefix. simpl foldl.
    unfold on_timer. simpl.
    split; [|split; [|done]]; by apply deliver_closed.
Qed.

Lemma callback_server_settles_once_witness :
  let stray := [Request None None; Request (Some "") None] in
  promise (run_callback_server
             (stray ++ Request (Some "4/0AX4") None :: [Request (Some "late") None; TimerFired]))
    = Resolved "4/0AX4" ∧
  promise (run_callback_server (stray ++ Request None (Some "access_denied") :: [TimerFired]))
    = Rejected (Error "OAuth authorization failed: access_denied") ∧
  promise (run_callback_server (stray ++ TimerFired :: [Request (Some "late") None]))
    = Rejected (Error "OAuth authorization timeout").
Proof.
  intros stray.
  assert (Forall ignored stray) as Hstray by (repeat constructor).
  split; [|split].
  - by apply (callback_server_settles_once stray
                [Request (Some "late") None; TimerFired] Hstray).
  - by apply (callback_server_settles_once stray [TimerFired] Hstray).
  - by apply (callback_server_settles_once stray [Request (Some "late") None] Hstray).
Defined.

(** C6 as stated fails.  The handler does not look at whether a callback
    has been accepted already: a second callback that reaches it, over a
    connection opened before the server was closed, is served the success
    page as well, and so is one that arrives after the timer has fired.
    Neither changes the outcome of the promise. *)
Lemma callback_server_answers_again :
  let twice := run_callback_server
                 [Request (Some "4/0AX4") None; Request (Some "4/late") None] in
  let late := run_callback_server [TimerFired; Request (Some "4/late") None] in
  promise twice = Resolved "4/0AX4" ∧ listening twice = false ∧
  replies twice = [200%N; 200%N] ∧
  promise late = Rejected (Error "OAuth authorization timeout") ∧ listening late = false ∧
  replies late = [200%N].
Proof. repeat split. Qed.


(** ** The request tracker *)

(** C7.  For a registered request, [cancelRequest] triggers the signal of
    its context with the supplied reason and answers [true]: the signal is
    aborted afterwards, with that reason if this call is the one that
    triggered it.  For an identifier that is not registered, be it unknown
    or already cleaned up, it answers [false] and the registry is as
    before; the handler of the cancellation notification then changes
    nothing in the tracker either. *)
Theorem cancelRequest_spec (id : string) (reason : option string)
    (registry : gmap string RequestTracker.RequestContext) :
  (∀ context,
     registry !! id = Some context →
     ∃ context',
       RequestTracker.cancelRequest id reason registry = (true, <[id := context']> registry) ∧
       context' = RequestTracker.with_signal
                    (RequestTracker.abort reason (RequestTracker.abortController context))
                    context ∧
       RequestTracker.aborted (RequestTracker.abortController context') = true ∧
       (RequestTracker.abortController context = RequestTracker.NotAborted →
        RequestTracker.abortController context' = RequestTracker.Aborted reason)) ∧
  (registry !! id = None →
   RequestTracker.cancelRequest id reason registry = (false, registry) ∧
   ∀ log, requestTracker (on_cancelled id reason {| requestTracker := registry; logged := log |})
          = registry) ∧
  RequestTracker.cancelRequest id reason (RequestTracker.cleanup id registry)
  = (false, RequestTracker.cleanup id registry) ∧
  (∀ log, RequestTracker.cancelRequest id reason
            (requestTracker (on_call_tool_finally id
                               {| requestTracker := registry; logged := log |}))
          = (false, RequestTracker.cleanup id registry)).
Proof.
  unfold RequestTracker.cancelRequest, RequestTracker.cleanup, on_cancelled,
    on_call_tool_finally, RequestTracker.cancelRequest.
  split; [|split; [|split]].
  - intros context ->. eexists. split; [reflexivity|]. split; [reflexivity|].
    simpl. by destruct (RequestTracker.abortController context).
  - intros Hnone. rewrite Hnone. split; [reflexivity|].
    intros log. simpl. by rewrite Hnone.
  - by rewrite lookup_delete_eq.
  - intros log. cbn [requestTracker]. unfold RequestTracker.cleanup.
    by rewrite lookup_delete_eq.
Qed.

Lemma cancelRequest_spec_witness :
  let context := {| RequestTracker.requestId := "r1"; RequestTracker.toolName := "gmail_list";
                    RequestTracker.progressToken := Some "p1";
                    RequestTracker.abortController := RequestTracker.NotAborted;
                    RequestTracker.registeredAt := 1000000%N |} in
  let registry : gmap string RequestTracker.RequestContext := {[ "r1" := context ]} in
  (∃ context',
     RequestTracker.cancelRequest "r1" (Some "User cancelled") registry
       = (true, <["r1" := context']> registry) ∧
     RequestTracker.abortController context'
       = RequestTracker.Aborted (Some "User cancelled")) ∧
  RequestTracker.cancelRequest "r2" (Some "User cancelled") registry = (false, registry).
Proof.
  intros context registry. split.
  - destruct (cancelRequest_spec "r1" (Some "User cancelled") registry) as (Hknown & _).
    destruct (Hknown context) as (context' & Hcancel & _ & _ & Hreason); [done|].
    exists context'. split; [exact Hcancel | by apply Hreason].
  - by apply (cancelRequest_spec "r2" (Some "User cancelled") registry).
Defined.

(** ** What was stored is what is loaded *)

Section StoreLoad.
Context `{RuntimeLaws}.
Variable this : TokenManager.

Lemma getTokens_of_record (userId content : string) (w : World) :
  files w !! path_join (tokenPath this w) (userId +:+ ".json") = Some content →
  fs_fault w = None →
  getTokens this userId w =
  match decryptTokenData content w with
  | (Ok tokens, w') => (Ok (Some tokens), w')
  | (Throw _, w') => (Ok None, w')
  | (Pending, w') => (Pending, w')
  end.
Proof.
  intros Hfile Hfault. unfold getTokens, tokenFile, fs_pathExists, fs_readFile. run.
  rewrite Hfile. rewrite bool_decide_eq_true_2 by by eexists.
  cbn. rewrite Hfault, Hfile.
  by destruct (decryptTokenData content w) as [[] w'].
Qed.

(** A record of the file cipher goes to the file cipher. *)
Lemma decryptTokenData_envelope (iv authTag data : string) (w : World) :
  decryptTokenData (JSON_stringify (envelope iv authTag data)) w
  = decryptTokenDataFile (JSON_stringify (envelope iv authTag data)) w.
Proof.
  unfold decryptTokenData, parse. run.
  rewrite (JSON_roundtrip _ (envelope_flat iv authTag data)). cbn.
  destruct (readonly_decryptTokenDataFile (JSON_stringify (envelope iv authTag data)) w)
    as (Hw & Hp & _).
  destruct (decryptTokenDataFile _ w) as [[tokens|e|] w'] eqn:Hfile; simpl in *;
    subst; [done| by rewrite Hfile | done].
Qed.

(** A record of the keychain is answered from the keychain. *)
Lemma decryptTokenData_keychain (service account : string) (tokens : OAuth2Tokens)
    (k : gmap (string * string) string) (w : World) :
  keytar w = inr k →
  k !! (service, account) = Some (JSON_stringify (tokens_to_json tokens)) →
  decryptTokenData (JSON_stringify (keychain_reference service account)) w
  = (Ok tokens, w).
Proof.
  intros Hkeytar Hentry.
  unfold decryptTokenData, decryptFromKeychain, keytar_getPassword, parse. run.
  rewrite (JSON_roundtrip _ (keychain_reference_flat service account)). cbn.
  rewrite Hkeytar, Hentry. cbn.
  pose proof (JSON_stringify_nonempty _ (tokens_to_json_flat tokens)) as Hne.
  destruct (String.eqb_spec (JSON_stringify (tokens_to_json tokens)) ""); [done|].
  rewrite (JSON_roundtrip _ (tokens_to_json_flat tokens)).
  by rewrite tokens_json_roundtrip.
Qed.

Lemma storeTokens_ok (tokens : OAuth2Tokens) (userId : string) (w : World) :
  fs_fault w = None → fst (storeTokens this tokens userId w) = Ok tt.
Proof.
  intros Hfault.
  unfold storeTokens, tokenFile, encryptTokenData, encryptWithKeychain,
    keytar_setPassword, encryptTokenDataFile, getDerivedKey, crypto_randomBytes,
    fs_writeFile.
  run. destruct (keytar w) as [m|k]; cbn.
  - destruct (gcm_encrypt _ _ _) as [encrypted authTag]; cbn. by rewrite Hfault.
  - by rewrite Hfault.
Qed.

Lemma getTokens_storeTokens (tokens : OAuth2Tokens) (userId : string) (w : World) :
  fs_fault w = None →
  let w' := snd (storeTokens this tokens userId w) in
  getTokens this userId w' = (Ok (Some tokens), w').
Proof.
  intros Hfault w'. subst w'.
  unfold storeTokens, tokenFile, encryptTokenData, encryptWithKeychain,
    keytar_setPassword.
  run. destruct (keytar w) as [m|k] eqn:Hkeytar; cbn.
  - rewrite encryptTokenDataFile_eq. cbn. unfold fs_writeFile. cbn. rewrite Hfault. cbn.
    erewrite getTokens_of_record; [|by apply lookup_insert_eq | done].
    rewrite decryptTokenData_envelope.
    set (w2 := set_files _ _).
    pose proof (decryptTokenDataFile_encrypted tokens w w2 eq_refl) as Hback.
    rewrite encryptTokenDataFile_eq in Hback. cbn in Hback. by rewrite Hback.
  - unfold fs_writeFile. cbn. rewrite Hfault. cbn.
    erewrite getTokens_of_record; [|by apply lookup_insert_eq | done].
    by erewrite decryptTokenData_keychain; [| reflexivity | by apply lookup_insert_eq].
Qed.

End StoreLoad.

(** ** The token store: storing, loading and deleting *)

Lemma append_inj_r (a b c : string) : a +:+ b = a +:+ c → b = c.
Proof.
  induction a as [|x a IH]; [done|].
  change (String x (a +:+ b) = String x (a +:+ c) → b = c).
  intros [= Heq]. by apply IH.
Qed.

(** What [storeTokens] writes, and where. *)
Lemma storeTokens_written `{Runtime} (this : TokenManager)
    (tokens : OAuth2Tokens) (userId : string) (w : World) :
  fs_fault w = None →
  let record := path_join (tokenPath this w) (userId +:+ ".json") in
  let w' := snd (storeTokens this tokens userId w) in
  match keytar w with
  | inr k =>
      files w' = <[record := JSON_stringify (keychain_reference "mcp-oauth-tokens"
                                               (provider this +:+ "-default"))]> (files w) ∧
      keytar w' = inr (<[("mcp-oauth-tokens", provider this +:+ "-default")
                         := JSON_stringify (tokens_to_json tokens)]> k) ∧
      draws w' = draws w
  | inl _ =>
      let iv := entropy w (draws w) in
      let sealed := gcm_encrypt (derived_key w) iv
                      (Buffer_from_utf8 (JSON_stringify (tokens_to_json tokens))) in
      files w' = <[record := JSON_stringify (envelope (Buffer_toString_hex iv)
                                               (Buffer_toString_hex (snd sealed))
                                               (Buffer_toString_hex (fst sealed)))]> (files w) ∧
      keytar w' = keytar w ∧
      draws w' = S (draws w)
  end.
Proof.
  intros Hfault record w'. subst record w'.
  unfold storeTokens, tokenFile, encryptTokenData, encryptWithKeychain,
    keytar_setPassword, encryptTokenDataFile, getDerivedKey, crypto_randomBytes,
    fs_writeFile, derived_key, getDerivedKey.
  run. destruct (keytar w) as [m|k] eqn:Hkeytar; cbn.
  - destruct (gcm_encrypt _ _ _) as [encrypted authTag]; cbn. by rewrite Hfault.
  - by rewrite Hfault.
Qed.

(** [storeTokens] when the file cannot be written. *)
Lemma storeTokens_faulty `{Runtime} (this : TokenManager)
    (tokens : OAuth2Tokens) (userId m : string) (w : World) :
  fs_fault w = Some m →
  let r := storeTokens this tokens userId w in
  fst r = Throw (Error ("Token storage failed: " +:+ m)) ∧
  files (snd r) = files w ∧
  match keytar w with
  | inr k =>
      keytar (snd r) = inr (<[("mcp-oauth-tokens", provider this +:+ "-default")
                              := JSON_stringify (tokens_to_json tokens)]> k)
  | inl _ => keytar (snd r) = keytar w
  end.
Proof.
  intros Hfault r. subst r.
  unfold storeTokens, tokenFile, encryptTokenData, encryptWithKeychain,
    keytar_setPassword, encryptTokenDataFile, getDerivedKey, crypto_randomBytes,
    fs_writeFile.
  run. destruct (keytar w) as [m'|k] eqn:Hkeytar; cbn.
  - destruct (gcm_encrypt _ _ _) as [encrypted authTag]; cbn. by rewrite Hfault.
  - by rewrite Hfault.
Qed.



(** X2.  Where the credential goes when [storeTokens] returns without
    error.  With a working keychain the record file holds a reference
    only, the same whatever the credential, and the keychain entry
    [<provider>-default] of service [mcp-oauth-tokens] holds the
    credential as JSON text, not encrypted; no random bytes are drawn.
    Without one, the keychain error is dropped, one draw of 16 random
    bytes is made for the nonce, and the file holds the envelope of the
    file cipher: that nonce, the tag and the ciphertext, in hexadecimal. *)
Theorem storeTokens_backend `{Runtime} (this : TokenManager)
    (tokens : OAuth2Tokens) (userId : string) (w : World) :
  fst (storeTokens this tokens userId w) = Ok tt →
  let record := path_join (tokenPath this w) (userId +:+ ".json") in
  let w' := snd (storeTokens this tokens userId w) in
  match keytar w with
  | inr k =>
      files w' = <[record := JSON_stringify (keychain_reference "mcp-oauth-tokens"
                                               (provider this +:+ "-default"))]> (files w) ∧
      keytar w' = inr (<[("mcp-oauth-tokens", provider this +:+ "-default")
                         := JSON_stringify (tokens_to_json tokens)]> k) ∧
      draws w' = draws w
  | inl _ =>
      let iv := randomBytes w (draws w) 16 in
      let sealed := gcm_encrypt (derived_key w) iv
                      (Buffer_from_utf8 (JSON_stringify (tokens_to_json tokens))) in
      length iv = 16 ∧
      String.length (Buffer_toString_hex iv) = 32 ∧
      files w' = <[record := JSON_stringify (envelope (Buffer_toString_hex iv)
                                               (Buffer_toString_hex (snd sealed))
                                               (Buffer_toString_hex (fst sealed)))]> (files w) ∧
      keytar w' = keytar w ∧
      draws w' = S (draws w)
  end.
Proof.
  intros Hstored record w'.
  assert (fs_fault w = None) as Hfault.
  { destruct (fs_fault w) as [m|] eqn:Hfault; [|done].
    destruct (storeTokens_faulty this tokens userId m w Hfault) as (Hthrow & _).
    congruence. }
  pose proof (storeTokens_written this tokens userId w Hfault) as Hwritten.
  cbv zeta in Hwritten. destruct (keytar w) as [m|k]; [|exact Hwritten].
  split; [reflexivity|]. split; [reflexivity | exact Hwritten].
Qed.

Lemma storeTokens_backend_witness :
  files (snd (storeTokens tokenManager Examples.credential "default" Examples.machine))
  = {[ Examples.record_path :=
         JSON_stringify
           (envelope "0102030405060708090a0b0c0d0e0fab"
              (Buffer_toString_hex (snd (Examples.sealed Examples.credential)))
              (Buffer_toString_hex (fst (Examples.sealed Examples.credential)))) ]} ∧
  draws (snd (storeTokens tokenManager Examples.credential "default" Examples.machine)) = 1.
Proof.
  pose proof (storeTokens_backend tokenManager Examples.credential "default"
                Examples.machine eq_refl) as (_ & _ & Hfiles & _ & Hdraws).
  split; [exact Hfiles | exact Hdraws].
Defined.

(** X3.  When the file cannot be written, [storeTokens] fails with
    [Token storage failed: <the error of the file system>] and no file
    changes; but a working keychain has been written by then, and keeps
    the new credential. *)
Theorem storeTokens_fs_failure `{Runtime} (this : TokenManager)
    (tokens : OAuth2Tokens) (userId m : string) (w : World) :
  fs_fault w = Some m →
  let r := storeTokens this tokens userId w in
  fst r = Throw (Error ("Token storage failed: " +:+ m)) ∧
  files (snd r) = files w ∧
  match keytar w with
  | inr k =>
      keytar (snd r) = inr (<[("mcp-oauth-tokens", provider this +:+ "-default")
                              := JSON_stringify (tokens_to_json tokens)]> k)
  | inl _ => keytar (snd r) = keytar w
  end.
Proof. apply storeTokens_faulty. Qed.

Lemma storeTokens_fs_failure_witness :
  let w := set_keytar (inr ∅) (set_files ∅ Examples.machine) in
  let faulty :=
    {| now := now w; homedir := homedir w; hostname := hostname w; username := username w;
       files := files w; fs_fault := Some "EACCES: permission denied"; keytar := keytar w;
       random := random w; draws := draws w; refresh_endpoint := refresh_endpoint w;
       refresh_calls := refresh_calls w; consent := consent w;
       code_endpoint := code_endpoint w; authorize_calls := authorize_calls w |} in
  fst (storeTokens tokenManager Examples.credential "default" faulty)
  = Throw (Error "Token storage failed: EACCES: permission denied") ∧
  keytar (snd (storeTokens tokenManager Examples.credential "default" faulty))
  = inr {[ ("mcp-oauth-tokens", "default-default")
           := JSON_stringify (tokens_to_json Examples.credential) ]}.
Proof.
  intros w faulty.
  pose proof (storeTokens_fs_failure tokenManager Examples.credential "default"
                "EACCES: permission denied" faulty eq_refl) as (Hthrow & _ & Hkeychain).
  split; [exact Hthrow | exact Hkeychain].
Defined.

(** X4.  The keychain entry does not depend on the user: with a working
    keychain, a credential stored for one user replaces what every other
    user of the same provider loads. *)
Theorem keychain_entry_shared `{RuntimeLaws} (this : TokenManager)
    (t1 t2 : OAuth2Tokens) (a b : string) (w : World)
    (k : gmap (string * string) string) :
  fs_fault w = None → keytar w = inr k →
  let w1 := snd (storeTokens this t1 a w) in
  let w2 := snd (storeTokens this t2 b w1) in
  getTokens this a w2 = (Ok (Some t2), w2).
Proof.
  intros Hfault Hkeytar w1 w2.
  pose proof (storeTokens_written this t1 a w Hfault) as Hfirst.
  rewrite Hkeytar in Hfirst. destruct Hfirst as (Hfiles1 & Hkeytar1 & _). fold w1 in Hfiles1, Hkeytar1.
  assert (fs_fault w1 = None) as Hfault1.
  { destruct (storeTokens_storage_only this t1 a w) as [(_&_&_&_&Hf&_) _]. fold w1 in Hf. congruence. }
  assert (tokenPath this w1 = tokenPath this w) as Hpath.
  { destruct (storeTokens_storage_only this t1 a w) as [(_&Hh&_) _]. fold w1 in Hh.
    unfold tokenPath. by rewrite Hh. }
  pose proof (storeTokens_written this t2 b w1 Hfault1) as Hsecond.
  rewrite Hkeytar1 in Hsecond. destruct Hsecond as (Hfiles2 & Hkeytar2 & _).
  fold w2 in Hfiles2, Hkeytar2.
  assert (fs_fault w2 = None) as Hfault2.
  { destruct (storeTokens_storage_only this t2 b w1) as [(_&_&_&_&Hf&_) _]. fold w2 in Hf. congruence. }
  assert (tokenPath this w2 = tokenPath this w) as Hpath2.
  { destruct (storeTokens_storage_only this t2 b w1) as [(_&Hh&_) _]. fold w2 in Hh.
    unfold tokenPath in *. by rewrite Hh. }
  rewrite (getTokens_of_record this a
             (JSON_stringify (keychain_reference "mcp-oauth-tokens" (provider this +:+ "-default")))
             w2); [| |done].
  - by erewrite decryptTokenData_keychain; [| exact Hkeytar2 | by apply lookup_insert_eq].
  - rewrite Hfiles2, Hfiles1, Hpath2, Hpath.
    destruct (decide (path_join (tokenPath this w) (b +:+ ".json")
                      = path_join (tokenPath this w) (a +:+ ".json"))) as [->|Hne].
    + by rewrite lookup_insert_eq.
    + rewrite lookup_insert_ne by done. by rewrite lookup_insert_eq.
Qed.

Lemma keychain_entry_shared_witness :
  let w := set_keytar (inr ∅) Examples.machine in
  let w1 := snd (storeTokens tokenManager Examples.credential "ada" w) in
  let w2 := snd (storeTokens tokenManager Examples.bare_credential "grace" w1) in
  getTokens tokenManager "ada" w2 = (Ok (Some Examples.bare_credential), w2).
Proof.
  apply (keychain_entry_shared tokenManager Examples.credential Examples.bare_credential
           "ada" "grace" (set_keytar (inr ∅) Examples.machine) ∅); reflexivity.
Defined.

Section DeleteFacts.
Variable this : TokenManager.

(** [deleteFromKeychain] always succeeds and touches the keychain only. *)
Lemma deleteFromKeychain_eq (userId : string) (w : World) :
  deleteFromKeychain this userId w =
  (Ok tt,
   match keytar w with
   | inr k => set_keytar (inr (delete ("mcp-oauth-tokens", provider this +:+ "-" +:+ userId) k)) w
   | inl _ => w
   end).
Proof.
  unfold deleteFromKeychain, keytar_deletePassword. run. cbn.
  by destruct (keytar w).
Qed.

Lemma deleteTokens_eq (userId : string) (w : World) :
  deleteTokens this userId w =
  let record := path_join (tokenPath this w) (userId +:+ ".json") in
  match files w !! record, fs_fault w with
  | Some _, Some m => (Throw (Error ("Token deletion failed: " +:+ m)), w)
  | Some _, None =>
      deleteFromKeychain this userId (set_files (delete record (files w)) w)
  | None, _ => deleteFromKeychain this userId w
  end.
Proof.
  unfold deleteTokens, tokenFile, fs_pathExists, fs_remove. run. cbn.
  destruct (files w !! _) as [content|] eqn:Hfile.
  - rewrite bool_decide_eq_true_2 by by eexists.
    destruct (fs_fault w) as [m|]; [done|].
    rewrite deleteFromKeychain_eq. by destruct (keytar w).
  - rewrite bool_decide_eq_false_2 by by intros [? [=]].
    rewrite deleteFromKeychain_eq. by destruct (keytar w).
Qed.

Lemma set_files_id (w : World) : set_files (files w) w = w.
Proof. by destruct w. Qed.

(** [deleteTokens] while the file system works. *)
Lemma deleteTokens_ok (userId : string) (w : World) :
  fs_fault w = None →
  deleteTokens this userId w =
  let record := path_join (tokenPath this w) (userId +:+ ".json") in
  let w1 := set_files (delete record (files w)) w in
  (Ok tt,
   match keytar w with
   | inr k => set_keytar (inr (delete ("mcp-oauth-tokens", provider this +:+ "-" +:+ userId) k)) w1
   | inl _ => w1
   end).
Proof.
  intros Hfault. rewrite deleteTokens_eq. cbv zeta. rewrite Hfault.
  destruct (files w !! _) as [content|] eqn:Hfile; rewrite deleteFromKeychain_eq.
  - done.
  - rewrite delete_id by done. by rewrite set_files_id.
Qed.

End DeleteFacts.

(** After [deleteTokens] nothing is left to load. *)
Lemma deleteTokens_gone `{Runtime} (this : TokenManager) (userId : string) (w : World) :
  fs_fault w = None →
  let record := path_join (tokenPath this w) (userId +:+ ".json") in
  let w' := snd (deleteTokens this userId w) in
  fst (deleteTokens this userId w) = Ok tt ∧
  files w' = delete record (files w) ∧
  getTokens this userId w' = (Ok None, w') ∧
  deleteTokens this userId w' = (Ok tt, w').
Proof.
  intros Hfault record w'. subst w'. rewrite deleteTokens_ok by done. cbv zeta. fold record.
  cbn [fst snd].
  set (w' := match keytar w with inr _ => _ | inl _ => _ end).
  assert (files w' = delete record (files w)) as Hfiles by (subst w'; by destruct (keytar w)).
  assert (fs_fault w' = None) as Hfault' by (subst w'; by destruct (keytar w)).
  assert (tokenPath this w' = tokenPath this w) as Hpath by (subst w'; by destruct (keytar w)).
  split; [done|]. split; [done|]. split.
  - unfold getTokens, tokenFile, fs_pathExists. run. cbn.
    rewrite Hpath, Hfiles. fold record. rewrite lookup_delete_eq.
    by rewrite bool_decide_eq_false_2 by by intros [? [=]].
  - rewrite deleteTokens_ok by done. cbv zeta. rewrite Hpath, Hfiles. fold record.
    rewrite delete_delete_eq. f_equal.
    subst w'. destruct (keytar w) as [m|k] eqn:Hkeytar; cbn; rewrite ?Hkeytar; [done|].
    unfold set_keytar. cbn. by rewrite delete_delete_eq.
Qed.



(** X6.  [deleteTokens] fails in one case only: the record file exists
    and cannot be removed.  The error is then
    [Token deletion failed: <the error of the file system>], and nothing
    has changed: the keychain entry has not been deleted either.  A
    keychain that fails is never reported. *)
Theorem deleteTokens_failure (this : TokenManager) (userId : string) (w : World) (e : exn) :
  fst (deleteTokens this userId w) = Throw e ↔
  ∃ m, fs_fault w = Some m ∧
       is_Some (files w !! path_join (tokenPath this w) (userId +:+ ".json")) ∧
       e = Error ("Token deletion failed: " +:+ m) ∧
       snd (deleteTokens this userId w) = w.
Proof.
  rewrite deleteTokens_eq. cbv zeta.
  destruct (files w !! _) as [content|] eqn:Hfile.
  - destruct (fs_fault w) as [m|] eqn:Hfault.
    + split.
      * intros [= <-]. exists m. by repeat split.
      * intros (m' & [= <-] & _ & -> & _). done.
    + rewrite deleteFromKeychain_eq. split; [done|]. by intros (m' & [=] & _).
  - rewrite deleteFromKeychain_eq. split; [done|]. by intros (m' & _ & [? [=]] & _).
Qed.


Lemma deleteTokens_failure_witness :
  let locked :=
    {| now := now Examples.authorized; homedir := homedir Examples.authorized;
       hostname := hostname Examples.authorized; username := username Examples.authorized;
       files := files Examples.authorized; fs_fault := Some "EPERM: operation not permitted";
       keytar := inr {[ ("mcp-oauth-tokens", "default-default") := "{}" ]};
       random := random Examples.authorized; draws := draws Examples.authorized;
       refresh_endpoint := refresh_endpoint Examples.authorized;
       refresh_calls := refresh_calls Examples.authorized;
       consent := consent Examples.authorized;
       code_endpoint := code_endpoint Examples.authorized;
       authorize_calls := authorize_calls Examples.authorized |} in
  fst (deleteTokens tokenManager "default" locked)
  = Throw (Error "Token deletion failed: EPERM: operation not permitted") ∧
  snd (deleteTokens tokenManager "default" locked) = locked.
Proof.
  intros locked.
  assert (fst (deleteTokens tokenManager "default" locked)
          = Throw (Error "Token deletion failed: EPERM: operation not permitted")) as Hthrow
    by by vm_compute.
  split; [exact Hthrow|].
  apply (deleteTokens_failure tokenManager "default" locked) in Hthrow
    as (m & _ & _ & _ & Hsame).
  exact Hsame.
Defined.

(** X7.  [storeTokens] writes the keychain entry [<provider>-default]
    whatever the user, while [deleteTokens] deletes the entry
    [<provider>-<user>].  So with a working keychain the credential stored
    for a user other than [default] stays in the keychain after it has been
    deleted: only the record file goes.  For the user [default] the entry
    is deleted as well. *)
Theorem deleteTokens_keychain_entry `{Runtime} (this : TokenManager)
    (tokens : OAuth2Tokens) (userId : string) (w : World)
    (k : gmap (string * string) string) :
  fs_fault w = None → keytar w = inr k →
  let w1 := snd (storeTokens this tokens userId w) in
  let w2 := snd (deleteTokens this userId w1) in
  files w2 !! path_join (tokenPath this w) (userId +:+ ".json") = None ∧
  ∃ k2, keytar w2 = inr k2 ∧
        k2 !! ("mcp-oauth-tokens", provider this +:+ "-default")
        = if decide (userId = "default") then None
          else Some (JSON_stringify (tokens_to_json tokens)).
Proof.
  intros Hfault Hkeytar w1 w2.
  pose proof (storeTokens_written this tokens userId w Hfault) as Hstore.
  rewrite Hkeytar in Hstore. destruct Hstore as (Hfiles1 & Hkeytar1 & _).
  fold w1 in Hfiles1, Hkeytar1.
  destruct (storeTokens_storage_only this tokens userId w) as [(_&Hhome&_&_&Hf&_) _].
  fold w1 in Hhome, Hf.
  assert (tokenPath this w1 = tokenPath this w) as Hpath by (unfold tokenPath; by rewrite Hhome).
  subst w2. rewrite deleteTokens_ok by congruence. cbv zeta. cbn [snd].
  rewrite Hkeytar1, Hpath. cbn [files set_keytar set_files keytar].
  split; [by rewrite lookup_delete_eq|].
  eexists. split; [reflexivity|].
  destruct (decide (userId = "default")) as [->|Hne].
  - by rewrite lookup_delete_eq.
  - rewrite lookup_delete_ne.
    + by rewrite lookup_insert_eq.
    + intros [= Heq]. apply append_inj_r in Heq.
      by apply (append_inj_r "-" userId "default") in Heq.
Qed.

Lemma deleteTokens_keychain_entry_witness :
  let w := set_keytar (inr ∅) Examples.machine in
  let w1 := snd (storeTokens tokenManager Examples.credential "ada" w) in
  let w2 := snd (deleteTokens tokenManager "ada" w1) in
  files w2 !! "/home/ada/.mcp/default-tokens/ada.json" = None ∧
  ∃ k2, keytar w2 = inr k2 ∧
        k2 !! ("mcp-oauth-tokens", "default-default")
        = Some (JSON_stringify (tokens_to_json Examples.credential)).
Proof.
  apply (deleteTokens_keychain_entry tokenManager Examples.credential "ada"
           (set_keytar (inr ∅) Examples.machine) ∅); reflexivity.
Defined.

(** ** The interactive authorization *)

(** The answers given so far have no influence on the listener. *)
Lemma deliver_replies_irrelevant (events : list callback_event) (s s' : callback_server) :
  promise s = promise s' → listening s = listening s' → timer s = timer s' →
  promise (foldl deliver s events) = promise (foldl deliver s' events).
Proof.
  revert s s'. induction events as [|ev events IH]; intros s s' Hp Hl Ht; [done|].
  simpl foldl.
  destruct s as [l p t r], s' as [l' p' t' r']. simpl in Hp, Hl, Ht. subst l' p' t'.
  apply IH; destruct ev as [code error|]; unfold deliver, on_request, on_timer; simpl;
    try (by destruct (truthy_param code), (truthy_param error));
    by destruct t.
Qed.

(** The promise of the listener after requests that are ignored and a
    first event that is not. *)
Lemma run_callback_server_decided (before after : list callback_event) (ev : callback_event) :
  Forall ignored before →
  promise (run_callback_server (before ++ ev :: after)) =
  match ev with
  | Request code error =>
      match truthy_param code, truthy_param error with
      | Some c, _ => Resolved c
      | None, Some e => Rejected (Error ("OAuth authorization failed: " +:+ e))
      | None, None => promise (run_callback_server (before ++ after))
      end
  | TimerFired => Rejected (Error "OAuth authorization timeout")
  end.
Proof.
  intros Hbefore.
  pose proof (run_callback_server_ignored before Hbefore) as Hprefix.
  unfold run_callback_server. rewrite !foldl_app, Hprefix. simpl foldl.
  assert (∀ s, listening s = false → promise s ≠ Unsettled →
               promise (foldl deliver s after) = promise s) as Hclosed
    by (intros s Hl Hp; by apply deliver_closed).
  destruct ev as [code error|]; unfold deliver at 2.
  - unfold on_request.
    destruct (truthy_param code) as [c|] eqn:Hcode; [by rewrite Hclosed|].
    destruct (truthy_param error) as [e|] eqn:Herror; [by rewrite Hclosed|].
    by apply deliver_replies_irrelevant.
  - unfold on_timer. cbn [timer]. by rewrite Hclosed.
Qed.

Section AuthorizeFacts.
Context `{Runtime}.

(** [authorize], step by step. *)
Lemma authorize_eq (w : World) :
  authorize w =
  let w1 := set_authorize_calls (S (authorize_calls w)) w in
  match awaited (promise (run_callback_server (consent w (authorize_calls w)))) with
  | Ok authCode =>
      match code_endpoint w authCode with
      | inl m => (Throw (Raised "google-auth-library" m), w1)
      | inr tokens => storeTokens tokenManager tokens "default" w1
      end
  | Throw e => (Throw e, w1)
  | Pending => (Pending, w1)
  end.
Proof.
  unfold authorize, startCallbackServer, exchangeCodeForTokens, getToken. run. cbn.
  destruct (awaited _) as [authCode|e|]; [|done..]. cbn.
  by destruct (code_endpoint w authCode).
Qed.

(** [getValidAccessToken] when nothing is stored. *)
Lemma getValidAccessToken_nothing_stored (fuel : nat) (w : World) :
  getTokens tokenManager "default" w = (Ok None, w) →
  getValidAccessToken (S fuel) w =
  match authorize w with
  | (Ok _, w') => getValidAccessToken fuel w'
  | (Throw e, w') => (Throw e, w')
  | (Pending, w') => (Pending, w')
  end.
Proof.
  intros Hnone. cbn [getValidAccessToken]. run. rewrite Hnone.
  by destruct (authorize w) as [[[]|e|] w'].
Qed.

(** A call that finds a credential leaves the count of authorizations
    alone and settles. *)
Lemma getValidAccessToken_stored_settles (fuel : nat) (w : World) (tokens : OAuth2Tokens) :
  getTokens tokenManager "default" w = (Ok (Some tokens), w) →
  authorize_calls (snd (getValidAccessToken (S fuel) w)) = authorize_calls w ∧
  fst (getValidAccessToken (S fuel) w) ≠ Pending.
Proof.
  intros Hstored. rewrite (getValidAccessToken_stored fuel w tokens Hstored).
  destruct (_ >=? _)%Z.
  - destruct (truthy (refresh_token tokens)) as [refreshToken|]; [|done].
    rewrite refreshTokens_eq. cbv zeta.
    destruct (refresh_endpoint w _ _) as [m|credentials]; [done|].
    destruct (storeTokens_storage_only tokenManager credentials "default"
                (set_refresh_calls (refresh_calls w ++ [refreshToken]) w))
      as [(_&_&_&_&_&_&_&_&_&_&Hauth) Hsettles].
    destruct (storeTokens _ _ _ _) as [[[]|e|] w']; simpl in *; [|done..].
    by destruct (truthy (access_token credentials)).
  - by destruct (truthy (access_token tokens)).
Qed.

End AuthorizeFacts.

(** An authorization that succeeds has stored what the token endpoint
    answered. *)
Lemma authorize_stores `{RuntimeLaws} (w w' : World) :
  authorize w = (Ok tt, w') →
  ∃ c tokens,
    awaited (promise (run_callback_server (consent w (authorize_calls w)))) = Ok c ∧
    code_endpoint w c = inr tokens ∧
    getTokens tokenManager "default" w' = (Ok (Some tokens), w') ∧
    authorize_calls w' = S (authorize_calls w) ∧
    refresh_calls w' = refresh_calls w ∧ now w' = now w.
Proof.
  rewrite authorize_eq. cbv zeta.
  destruct (awaited _) as [c|e|] eqn:Hcode; [|done..].
  destruct (code_endpoint w c) as [m|tokens] eqn:Hanswer; [done|].
  set (w1 := set_authorize_calls _ w).
  intros Hstore. exists c, tokens. split; [done|]. split; [done|].
  destruct (fs_fault w1) as [m|] eqn:Hfault.
  - destruct (storeTokens_faulty tokenManager tokens "default" m w1 Hfault) as (Hthrow & _).
    by rewrite Hstore in Hthrow.
  - pose proof (getTokens_storeTokens tokenManager tokens "default" w1 Hfault) as Hload.
    destruct (storeTokens_storage_only tokenManager tokens "default" w1)
      as [(Hnow&_&_&_&_&_&_&Hcalls&_&_&Hauth) _].
    rewrite Hstore in Hload, Hnow, Hcalls, Hauth. simpl in *. done.
Qed.

(** X8.  The first call on a machine that holds no credential: the user
    is sent through the consent flow once; when the listener receives an
    authorization code (after any number of stray requests) and the token
    endpoint answers it with a credential that is more than 5 minutes from
    expiry and has an access token, the credential is stored and the call
    returns that access token.  No refresh request is sent. *)
Theorem getValidAccessToken_first_authorization `{RuntimeLaws}
    (fuel : nat) (w : World) (before after : list callback_event)
    (code error : option string) (c a : string) (tokens : OAuth2Tokens) :
  getTokens tokenManager "default" w = (Ok None, w) →
  fs_fault w = None →
  consent w (authorize_calls w) = before ++ Request code error :: after →
  Forall ignored before →
  truthy_param code = Some c →
  code_endpoint w c = inr tokens →
  (Z.of_N (now w) + 5 * 60 * 1000 < or_zero (expiry_date tokens))%Z →
  truthy (access_token tokens) = Some a →
  ∃ w',
    getValidAccessToken (S (S fuel)) w = (Ok a, w') ∧
    getTokens tokenManager "default" w' = (Ok (Some tokens), w') ∧
    authorize_calls w' = S (authorize_calls w) ∧
    refresh_calls w' = refresh_calls w.
Proof.
  intros Hnone Hfault Hconsent Hbefore Hcode Hanswer Hfresh Htoken.
  rewrite (getValidAccessToken_nothing_stored _ _ Hnone).
  pose proof (authorize_eq w) as Hauth. cbv zeta in Hauth.
  rewrite Hconsent, (run_callback_server_decided before after _ Hbefore), Hcode in Hauth.
  simpl in Hauth. rewrite Hanswer in Hauth.
  set (w1 := set_authorize_calls _ w) in Hauth.
  pose proof (storeTokens_ok tokenManager tokens "default" w1 Hfault) as Hok.
  destruct (storeTokens tokenManager tokens "default" w1) as [r w'] eqn:Hstore.
  simpl in Hok. subst r. rewrite Hauth.
  destruct (authorize_stores w w' Hauth) as (c' & tokens' & Hc & Hanswer' & Hload & Hcount & Hcalls & Hnow).
  rewrite Hconsent, (run_callback_server_decided before after _ Hbefore), Hcode in Hc.
  simpl in Hc. injection Hc as <-. rewrite Hanswer in Hanswer'. injection Hanswer' as <-.
  exists w'. rewrite (getValidAccessToken_stored fuel w' tokens Hload).
  rewrite Hnow, Htoken.
  destruct (Z.geb_spec (Z.of_N (now w) + 5 * 60 * 1000) (or_zero (expiry_date tokens))); [lia|].
  done.
Qed.

Lemma getValidAccessToken_first_authorization_witness :
  let consenting :=
    {| now := 1000000%N; homedir := "/home/ada"; hostname := "laptop"; username := "ada";
       files := ∅; fs_fault := None; keytar := inl "Cannot find module 'keytar'";
       random := fun k i => nth i Examples.nonce x00; draws := 0;
       refresh_endpoint := fun k _ => inl "invalid_grant"; refresh_calls := [];
       consent := fun _ => [Request None None; Request (Some "4/0AX4") None; TimerFired];
       code_endpoint := fun _ => inr Examples.credential; authorize_calls := 0 |} in
  ∃ w',
    getValidAccessToken 2 consenting = (Ok "ya29.first", w') ∧
    getTokens tokenManager "default" w' = (Ok (Some Examples.credential), w') ∧
    authorize_calls w' = 1 ∧
    refresh_calls w' = [].
Proof.
  intros consenting.
  apply (getValidAccessToken_first_authorization 0 consenting [Request None None] [TimerFired]
           (Some "4/0AX4") None "4/0AX4" "ya29.first" Examples.credential);
    try reflexivity.
  - repeat constructor.
Defined.

(** X9.  How the first call fails when nothing is stored.  If the timer
    of the listener fires before a callback decides, the call is rejected
    with [OAuth authorization timeout]; if the callback carries an error
    and no code, with [OAuth authorization failed: <error>]; if the token
    endpoint rejects the code, with the error of the library, unwrapped.
    In each case one authorization has been started, the call does not try
    again, and nothing has been stored. *)
Theorem getValidAccessToken_authorization_fails `{Runtime}
    (fuel : nat) (w : World) (before after : list callback_event) :
  getTokens tokenManager "default" w = (Ok None, w) →
  Forall ignored before →
  let w1 := set_authorize_calls (S (authorize_calls w)) w in
  (consent w (authorize_calls w) = before ++ TimerFired :: after →
   getValidAccessToken (S fuel) w = (Throw (Error "OAuth authorization timeout"), w1)) ∧
  (∀ code error e,
     consent w (authorize_calls w) = before ++ Request code error :: after →
     truthy_param code = None → truthy_param error = Some e →
     getValidAccessToken (S fuel) w
     = (Throw (Error ("OAuth authorization failed: " +:+ e)), w1)) ∧
  (∀ code error c m,
     consent w (authorize_calls w) = before ++ Request code error :: after →
     truthy_param code = Some c → code_endpoint w c = inl m →
     getValidAccessToken (S fuel) w = (Throw (Raised "google-auth-library" m), w1)) ∧
  same_storage w w1.
Proof.
  intros Hnone Hbefore w1.
  rewrite (getValidAccessToken_nothing_stored _ _ Hnone), authorize_eq. cbv zeta. fold w1.
  split; [|split; [|split]].
  - intros ->. by rewrite (run_callback_server_decided before after _ Hbefore).
  - intros code error e -> Hcode Herror.
    by rewrite (run_callback_server_decided before after _ Hbefore), Hcode, Herror.
  - intros code error c m -> Hcode Hanswer.
    rewrite (run_callback_server_decided before after _ Hbefore), Hcode. simpl.
    by rewrite Hanswer.
  - done.
Qed.

Lemma getValidAccessToken_authorization_fails_witness :
  getValidAccessToken 3 Examples.machine
  = (Throw (Error "OAuth authorization timeout"),
     set_authorize_calls 1 Examples.machine).
Proof.
  apply (getValidAccessToken_authorization_fails 2 Examples.machine [] []);
    [reflexivity | constructor | reflexivity].
Defined.

(** X10.  A call of [getValidAccessToken] starts the consent flow at
    most once and calls itself at most once: the credential it stores after
    an authorization is the one it loads next.  So two rounds settle every
    call that more rounds settle, and a call stays pending only while the
    listener of its authorization does. *)
Theorem getValidAccessToken_authorizes_once `{RuntimeLaws} (fuel : nat) (w : World) :
  getValidAccessToken (S (S fuel)) w = getValidAccessToken 2 w ∧
  (authorize_calls (snd (getValidAccessToken 2 w)) ≤ S (authorize_calls w))%nat ∧
  (fst (getValidAccessToken 2 w) = Pending →
   awaited (promise (run_callback_server (consent w (authorize_calls w)))) = Pending).
Proof.
  destruct (getTokens_settles tokenManager "default" w) as [[tokens|] Hload].
  - rewrite (getValidAccessToken_stored (S fuel) w tokens Hload).
    rewrite <- (getValidAccessToken_stored 1 w tokens Hload).
    destruct (getValidAccessToken_stored_settles 1 w tokens Hload) as [Hcount Hsettles].
    split; [done|]. split; [lia | done].
  - rewrite !(getValidAccessToken_nothing_stored _ _ Hload).
    destruct (authorize w) as [[[]|e|] w'] eqn:Hauth.
    + destruct (authorize_stores w w' Hauth) as (c & tokens & _ & _ & Hload' & Hcount & _).
      rewrite (getValidAccessToken_stored fuel w' tokens Hload').
      rewrite <- (getValidAccessToken_stored 0 w' tokens Hload').
      destruct (getValidAccessToken_stored_settles 0 w' tokens Hload') as [Hcount' Hsettles].
      split; [done|]. split; [lia | done].
    + rewrite authorize_eq in Hauth. cbv zeta in Hauth.
      assert (authorize_calls w' = S (authorize_calls w)) as Hcount.
      { destruct (awaited _) as [c| |]; [|by injection Hauth as _ <-..].
        destruct (code_endpoint w c) as [m|tokens]; [by injection Hauth as _ <-|].
        destruct (storeTokens_storage_only tokenManager tokens "default"
                    (set_authorize_calls (S (authorize_calls w)) w))
          as [(_&_&_&_&_&_&_&_&_&_&Hcount) _].
        by rewrite Hauth in Hcount. }
      simpl. split; [done|]. split; [lia | done].
    + rewrite authorize_eq in Hauth. cbv zeta in Hauth.
      destruct (awaited _) as [c| |] eqn:Hawait; [|done|].
      * destruct (code_endpoint w c) as [m|tokens]; [done|].
        destruct (storeTokens_storage_only tokenManager tokens "default"
                    (set_authorize_calls (S (authorize_calls w)) w)) as [_ Hsettles].
        by rewrite Hauth in Hsettles.
      * injection Hauth as <-. simpl. split; [done|]. split; [lia | done].
Qed.

Lemma getValidAccessToken_authorizes_once_witness :
  getValidAccessToken 7 Examples.machine = getValidAccessToken 2 Examples.machine ∧
  (authorize_calls (snd (getValidAccessToken 2 Examples.machine)) ≤ 1)%nat.
Proof.
  destruct (getValidAccessToken_authorizes_once 5 Examples.machine) as (Hsame & Hcount & _).
  split; [exact Hsame | exact Hcount].
Defined.

(** ** Revoking *)



(** ** The listener, whatever reaches it *)

(** X12.  For every sequence of requests and timer events that reach
    the listener: the promise is unsettled exactly when nothing but
    requests without code or error has arrived; [server.listening] holds
    exactly while the promise is unsettled; the timer stays armed until it
    fires (a callback that settles the promise does not clear it); every
    request is answered, with 200 when it carries a code and with 400
    otherwise, also after the promise is settled; and a promise that is
    resolved has had the success page served. *)
Theorem callback_server_invariants (events : list callback_event) :
  let s := run_callback_server events in
  (promise s = Unsettled ↔ Forall ignored events) ∧
  (listening s = true ↔ promise s = Unsettled) ∧
  (timer s = None ↔ TimerFired ∈ events) ∧
  replies s = omap answered events ∧
  ((∃ c, promise s = Resolved c) → 200%N ∈ replies s).
Proof.
  cbv zeta. unfold run_callback_server.
  induction events as [|ev events IH] using rev_ind.
  - simpl. split; [done|]. split; [done|]. split; [|split; [done|]].
    + split; [done|]. by intros ?%elem_of_nil.
    + by intros [c [=]].
  - rewrite foldl_app. simpl foldl.
    destruct (foldl deliver callback_server_started events) as [l p t r].
    simpl in IH. destruct IH as (HB & HA & HC & HD & HE).
    rewrite Forall_app, Forall_singleton, elem_of_app, list_elem_of_singleton, omap_app.
    destruct ev as [code error|]; simpl; unfold on_request, on_timer; simpl.
    + assert (t = None ↔ TimerFired ∈ events ∨ TimerFired = Request code error) as HC'
        by (rewrite HC; split; [by left | by intros [?|[=]]]).
      destruct (truthy_param code) as [c|] eqn:Hcode; simpl;
        [|destruct (truthy_param error) as [e|] eqn:Herror; simpl];
        rewrite ?elem_of_app, ?list_elem_of_singleton.
      * split; [split; [by destruct p | by intros [_ [[=] _]]]|].
        split; [split; [done | by destruct p]|].
        split; [done|]. split; [by rewrite HD | intros _; by right].
      * split; [split; [by destruct p | by intros [_ [_ [=]]]]|].
        split; [split; [done | by destruct p]|].
        split; [done|]. split; [by rewrite HD|].
        intros [c Hc]. left. apply HE. exists c. by destruct p.
      * split; [split; [intros Hp; split; [by apply HB | done] | intros [Hall _]; by apply HB]|].
        split; [done|]. split; [done|]. split; [by rewrite HD|].
        intros Hc. left. by apply HE.
    + rewrite app_nil_r.
      destruct t as [delay|]; simpl.
      * split; [split; [by destruct p | by intros [_ []]]|].
        split; [split; [done | by destruct p]|].
        split; [split; [by right | done]|]. split; [done|].
        intros [c Hc]. apply HE. exists c. by destruct p.
      * split; [split; [intros Hp; exfalso | by intros [_ []]]|].
        { apply HB in Hp. assert (TimerFired ∈ events) as Hin by by apply HC.
          rewrite Forall_forall in Hp. by apply (Hp TimerFired). }
        split; [done|]. split; [split; [by right | done]|]. done.
Qed.

(** ** The tool tables and the dispatch *)

Lemma canHandle_supported (tools : Tools) (name : string) :
  canHandle tools name = true ↔ name ∈ supportedTools tools.
Proof.
  unfold canHandle. rewrite existsb_exists. setoid_rewrite String.eqb_eq.
  rewrite list_elem_of_In. split; [by intros (? & ? & ->) | by eexists].
Qed.

Lemma clientMethod_cases (tools : Tools) (name : string) :
  is_Some (clientMethod tools name) ↔ name ∈ map fst (cases tools).
Proof.
  unfold clientMethod. induction (cases tools) as [|[label method] rest IH]; simpl.
  - split; [by intros [? [=]] | by intros ?%elem_of_nil].
  - rewrite elem_of_cons. destruct (String.eqb_spec name label) as [->|Hne]; simpl.
    + split; [by left | by eexists].
    + rewrite IH. split; [by right | by intros [?|?]].
Qed.

Lemma groups_tables (tools : Tools) :
  tools ∈ groups →
  getToolDefinitions tools = supportedTools tools ∧
  map fst (cases tools) = supportedTools tools.
Proof.
  unfold groups. rewrite !elem_of_cons, elem_of_nil.
  by intros [->|[->|[->|[->|[]]]]].
Qed.

Lemma on_list_tools_NoDup : NoDup on_list_tools.
Proof. refine (bool_decide_unpack _ _). by vm_compute. Qed.

(** No tool belongs to two groups. *)
Lemma groups_disjoint (tools tools' : Tools) (name : string) :
  tools ∈ groups → tools' ∈ groups →
  canHandle tools name = true → canHandle tools' name = true → tools = tools'.
Proof.
  unfold groups. rewrite !elem_of_cons, !elem_of_nil.
  intros Hgroup Hgroup' Hcan%canHandle_supported Hcan'.
  destruct Hgroup as [->|[->|[->|[->|[]]]]]; destruct Hgroup' as [->|[->|[->|[->|[]]]]];
    try reflexivity; exfalso; simpl in Hcan;
    rewrite !elem_of_cons, elem_of_nil in Hcan;
    repeat (destruct Hcan as [->|Hcan]; [by vm_compute in Hcan'|]); done.
Qed.

(** The group the handler gives a tool to is one that can handle it. *)
Lemma dispatch_Some (name : string) (tools : Tools) :
  dispatch name = Some tools → tools ∈ groups ∧ canHandle tools name = true.
Proof.
  unfold dispatch, groups.
  destruct (canHandle GoogleGmailTools name) eqn:Hgmail;
    [intros [= <-]; split; [set_solver | done]|].
  destruct (canHandle GoogleDriveTools name) eqn:Hdrive;
    [intros [= <-]; split; [set_solver | done]|].
  destruct (canHandle GoogleCalendarTools name) eqn:Hcalendar;
    [intros [= <-]; split; [set_solver | done]|].
  destruct (canHandle GoogleContactsTools name) eqn:Hcontacts;
    [intros [= <-]; split; [set_solver | done]|].
  done.
Qed.

Lemma dispatch_None (name : string) :
  dispatch name = None ↔ ∀ tools, tools ∈ groups → canHandle tools name = false.
Proof.
  unfold dispatch, groups. split.
  - destruct (canHandle GoogleGmailTools name) eqn:Hgmail; [done|].
    destruct (canHandle GoogleDriveTools name) eqn:Hdrive; [done|].
    destruct (canHandle GoogleCalendarTools name) eqn:Hcalendar; [done|].
    destruct (canHandle GoogleContactsTools name) eqn:Hcontacts; [done|].
    intros _ tools. rewrite !elem_of_cons, elem_of_nil.
    by intros [->|[->|[->|[->|[]]]]].
  - intros Hnone.
    rewrite !Hnone; [done | set_solver..].
Qed.

(** A tool that a group can handle has a case in its switch. *)
Lemma canHandle_clientMethod (tools : Tools) (name : string) :
  tools ∈ groups → canHandle tools name = true → is_Some (clientMethod tools name).
Proof.
  intros Hgroup Hcan. apply clientMethod_cases.
  destruct (groups_tables tools Hgroup) as [_ ->]. by apply canHandle_supported.
Qed.

(** The tools listed are those some group can handle. *)
Lemma on_list_tools_canHandle (name : string) :
  name ∈ on_list_tools ↔ ∃ tools, tools ∈ groups ∧ canHandle tools name = true.
Proof.
  unfold on_list_tools. rewrite !elem_of_app.
  change (getToolDefinitions GoogleGmailTools) with (supportedTools GoogleGmailTools).
  change (getToolDefinitions GoogleDriveTools) with (supportedTools GoogleDriveTools).
  change (getToolDefinitions GoogleCalendarTools) with (supportedTools GoogleCalendarTools).
  change (getToolDefinitions GoogleContactsTools) with (supportedTools GoogleContactsTools).
  rewrite <- !canHandle_supported. unfold groups. split.
  - intros [Hcan|[Hcan|[Hcan|Hcan]]]; eexists; (split; [|exact Hcan]);
      rewrite !elem_of_cons; auto.
  - intros (tools & Hgroup & Hcan). revert Hgroup. rewrite !elem_of_cons, elem_of_nil.
    intros [->|[->|[->|[->|[]]]]]; auto.
Qed.

(** A tool that is listed is given to a group. *)
Lemma on_list_tools_dispatch (name : string) :
  name ∈ on_list_tools → is_Some (dispatch name).
Proof.
  intros (tools & Hgroup & Hcan)%on_list_tools_canHandle.
  destruct (dispatch name) as [tools'|] eqn:Hdispatch; [by eexists|].
  rewrite dispatch_None in Hdispatch. by rewrite Hdispatch in Hcan.
Qed.

(** X13.  The tables of the four tool groups agree.  A tool is listed by
    [ListTools] exactly when some group can handle it, and then exactly one
    group can, which is the one [CallTool] gives it to, and the switch of
    that group has a case for it: the two [Unknown tool] branches of
    [executeTool] are never reached from the server.  No name is listed
    twice. *)
Theorem tool_tables_agree (name : string) :
  NoDup on_list_tools ∧
  (name ∈ on_list_tools ↔ ∃ tools, tools ∈ groups ∧ canHandle tools name = true) ∧
  (∀ tools, tools ∈ groups → canHandle tools name = true →
     dispatch name = Some tools ∧ is_Some (clientMethod tools name)) ∧
  (dispatch name = None ↔ name ∉ on_list_tools).
Proof.
  pose proof (on_list_tools_canHandle name) as Hlisted.
  split; [apply on_list_tools_NoDup|]. split; [done|]. split.
  - intros tools Hgroup Hcan. split; [|by apply canHandle_clientMethod].
    destruct (dispatch name) as [tools'|] eqn:Hdispatch.
    + apply dispatch_Some in Hdispatch as [Hgroup' Hcan']. f_equal.
      by apply (groups_disjoint tools' tools name).
    + rewrite dispatch_None in Hdispatch. by rewrite Hdispatch in Hcan.
  - rewrite dispatch_None, Hlisted. split.
    + intros Hnone (tools & Hgroup & Hcan). by rewrite Hnone in Hcan.
    + intros Hnot tools Hgroup. destruct (canHandle tools name) eqn:Hcan; [|done].
      destruct Hnot. by exists tools.
Qed.


Lemma tool_tables_agree_witness :
  "google-calendar_get_event" ∈ on_list_tools ∧
  dispatch "google-calendar_get_event" = Some GoogleCalendarTools ∧
  is_Some (clientMethod GoogleCalendarTools "google-calendar_get_event") ∧
  dispatch "google-calendar_get_events" = None.
Proof.
  destruct (tool_tables_agree "google-calendar_get_event") as (_ & Hlisted & Hone & _).
  destruct (tool_tables_agree "google-calendar_get_events") as (_ & Hlisted' & _ & Hnone).
  assert (GoogleCalendarTools ∈ groups) as Hgroup
    by (unfold groups; rewrite !elem_of_cons; auto).
  split; [apply Hlisted; by exists GoogleCalendarTools|].
  split; [by apply Hone|]. split; [by apply Hone|].
  apply Hnone. rewrite Hlisted'. intros (tools & Hin & Hcan). revert Hin Hcan.
  unfold groups. rewrite !elem_of_cons, elem_of_nil.
  by intros [->|[->|[->|[->|[]]]]].
Defined.

(** ** The handler of tool calls *)

(** A cancellation notification removes no request and adds none; it
    aborts the signal of the request it names. *)
Lemma notify_registry (n : string * option string) (s : Server) (id : string) :
  (is_Some (requestTracker (notify s n) !! id) ↔ is_Some (requestTracker s !! id)) ∧
  (is_Some (requestTracker s !! id) →
   RequestTracker.aborted (signal id (notify s n))
   = RequestTracker.aborted (signal id s) || bool_decide (id = fst n)).
Proof.
  destruct n as [id' reason]. unfold notify, on_cancelled, RequestTracker.cancelRequest, signal.
  simpl. destruct (requestTracker s !! id') as [context'|] eqn:Hid'; simpl.
  - destruct (decide (id = id')) as [->|Hne].
    + rewrite lookup_insert_eq, Hid'. split; [done|]. intros _.
      rewrite bool_decide_eq_true_2 by done. rewrite orb_true_r. simpl.
      by destruct (RequestTracker.abortController context').
    + rewrite lookup_insert_ne by done. split; [done|]. intros _.
      rewrite bool_decide_eq_false_2 by done. by rewrite orb_false_r.
  - split; [done|]. intros [context Hid].
    rewrite bool_decide_eq_false_2 by congruence. by rewrite orb_false_r.
Qed.

Lemma notify_all_registry (ns : list (string * option string)) (s : Server) (id : string) :
  (is_Some (requestTracker (foldl notify s ns) !! id) ↔ is_Some (requestTracker s !! id)) ∧
  (is_Some (requestTracker s !! id) →
   RequestTracker.aborted (signal id (foldl notify s ns))
   = RequestTracker.aborted (signal id s) || bool_decide (id ∈ map fst ns)).
Proof.
  revert s. induction ns as [|n ns IH]; intros s; cbn [foldl map].
  - split; [done|]. intros _. rewrite bool_decide_eq_false_2 by by intros ?%elem_of_nil.
    by rewrite orb_false_r.
  - destruct (IH (notify s n)) as [Hdom Hsignal].
    destruct (notify_registry n s id) as [Hdom1 Hsignal1].
    split; [by rewrite Hdom|]. intros Hsome.
    rewrite Hsignal by by apply Hdom1. rewrite Hsignal1 by done.
    rewrite <- orb_assoc. f_equal.
    destruct (decide (id = fst n)) as [->|Hne].
    + rewrite (bool_decide_eq_true_2 (fst n = fst n)) by done.
      by rewrite (bool_decide_eq_true_2 (fst n ∈ fst n :: map fst ns)) by by left.
    + rewrite (bool_decide_eq_false_2 (id = fst n)) by done. simpl.
      apply bool_decide_ext. rewrite elem_of_cons. split; [by right | by intros [?|?]].
Qed.

(** The server between the registration and the [finally] block of a
    tool call whose identifier is new. *)
Lemma on_call_tool_eq (name id : string) (token : option string) (at_ : N)
    (run : execution) (s : Server) :
  requestTracker s !! id = None →
  let context := {| RequestTracker.requestId := id; RequestTracker.toolName := name;
                    RequestTracker.progressToken := token;
                    RequestTracker.abortController := RequestTracker.NotAborted;
                    RequestTracker.registeredAt := at_ |} in
  let s0 := {| requestTracker := <[id := context]> (requestTracker s); logged := logged s |} in
  let s1 := foldl notify s0 (during_initialization run) in
  let s2 := foldl notify s1 (during_client run) in
  on_call_tool name id token at_ run s =
  match dispatch name with
  | None => (inl (McpError MethodNotFound ("Unknown tool: " +:+ name)),
             on_call_tool_finally id s0)
  | Some tools =>
      match initialization run with
      | Some e =>
          (inl (McpError InternalError
                  (if bool_decide (id ∈ map fst (during_initialization run))
                   then "Request was cancelled"
                   else "Tool execution failed: " +:+ errorMessage e)),
           on_call_tool_finally id s1)
      | None =>
          match clientMethod tools name with
          | Some method =>
              (inr match client run method with
                   | inr result => {| text := result; isError := false |}
                   | inl e => errorResult e
                   end,
               on_call_tool_finally id s2)
          | None => (inr (errorResult (Error ("Unknown tool: " +:+ name))),
                     on_call_tool_finally id s1)
          end
      end
  end.
Proof.
  intros Hfresh context s0 s1 s2.
  unfold on_call_tool, on_call_tool_begin, RequestTracker.registerRequest. rewrite Hfresh.
  fold context. fold s0.
  assert (signal id s0 = RequestTracker.NotAborted) as Hsignal0
    by (unfold signal, s0; simpl; by rewrite lookup_insert_eq).
  assert (is_Some (requestTracker s0 !! id)) as Hsome0
    by (unfold s0; simpl; rewrite lookup_insert_eq; by eexists).
  destruct (dispatch name) as [tools|] eqn:Hdispatch.
  - apply dispatch_Some in Hdispatch as [Hgroup Hcan].
    unfold executeTool. rewrite Hsignal0, Hcan. simpl. fold s1.
    destruct (initialization run) as [e|].
    + destruct (notify_all_registry (during_initialization run) s0 id) as [_ Hsignal1].
      fold s1 in Hsignal1. rewrite Hsignal1 by done. rewrite Hsignal0. simpl.
      by destruct (bool_decide _).
    + destruct (canHandle_clientMethod tools name Hgroup Hcan) as [method ->]. fold s2.
      by destruct (client run method).
  - by rewrite Hsignal0.
Qed.

(** X14.  What a tool call is answered, for a request whose identifier
    is not in use (the request tracker being as the specification describes
    it).  A tool that no group lists is rejected with [MethodNotFound] and
    [Unknown tool: <name>].  If the initialization of the client fails, the
    call is rejected with [InternalError]: [Request was cancelled] if a
    cancellation of this request arrived meanwhile, [Tool execution failed:
    <message>] otherwise.  Once the client is initialized the call is never
    rejected, cancelled or not: the result of the client method is the
    answer, and its failure is an answer too, with the text
    [Error: <message>] and [isError] set. *)
Theorem on_call_tool_answer (name id : string) (token : option string) (at_ : N)
    (run : execution) (s : Server) :
  requestTracker s !! id = None →
  let answer := fst (on_call_tool name id token at_ run s) in
  match dispatch name, initialization run with
  | None, _ => answer = inl (McpError MethodNotFound ("Unknown tool: " +:+ name))
  | Some _, Some e =>
      answer = inl (McpError InternalError
                      (if bool_decide (id ∈ map fst (during_initialization run))
                       then "Request was cancelled"
                       else "Tool execution failed: " +:+ errorMessage e))
  | Some tools, None =>
      ∃ method,
        clientMethod tools name = Some method ∧
        answer = inr match client run method with
                     | inr result => {| text := result; isError := false |}
                     | inl e => {| text := "Error: " +:+ errorMessage e; isError := true |}
                     end
  end.
Proof.
  intros Hfresh answer. subst answer. rewrite on_call_tool_eq by done. cbv zeta.
  destruct (dispatch name) as [tools|] eqn:Hdispatch; [|done].
  destruct (initialization run) as [e|]; [done|].
  apply dispatch_Some in Hdispatch as [Hgroup Hcan].
  destruct (canHandle_clientMethod tools name Hgroup Hcan) as [method Hmethod].
  rewrite Hmethod. exists method. split; [done|]. by destruct (client run method).
Qed.

Lemma on_call_tool_answer_witness :
  let s := {| requestTracker := ∅; logged := [] |} in
  let cancelled_in_flight :=
    {| initialization := None; during_initialization := [];
       client := fun _ => inl (Raised "axios" "canceled");
       during_client := [("7", Some "User cancelled")] |} in
  let cancelled_early :=
    {| initialization := Some (Error "GOOGLE_CLIENT_ID environment variable is required");
       during_initialization := [("7", None)];
       client := fun _ => inr "{}"; during_client := [] |} in
  fst (on_call_tool "google-drive_get_file" "7" None 1000 cancelled_in_flight s)
  = inr {| text := "Error: canceled"; isError := true |} ∧
  fst (on_call_tool "google-drive_get_file" "7" None 1000 cancelled_early s)
  = inl (McpError InternalError "Request was cancelled") ∧
  fst (on_call_tool "google-drive_rename" "7" None 1000 cancelled_early s)
  = inl (McpError MethodNotFound "Unknown tool: google-drive_rename").
Proof.
  intros s cancelled_in_flight cancelled_early. split; [|split].
  - destruct (on_call_tool_answer "google-drive_get_file" "7" None 1000 cancelled_in_flight s)
      as (method & _ & Hanswer); [reflexivity|]. exact Hanswer.
  - exact (on_call_tool_answer "google-drive_get_file" "7" None 1000 cancelled_early s eq_refl).
  - exact (on_call_tool_answer "google-drive_rename" "7" None 1000 cancelled_early s eq_refl).
Defined.

(** X15.  However a tool call ends, its request is not registered
    afterwards, and the handler has removed no other request and added
    none (the request tracker being as the specification describes it). *)
Theorem on_call_tool_unregisters (name id : string) (token : option string) (at_ : N)
    (run : execution) (s : Server) :
  requestTracker s !! id = None →
  let s' := snd (on_call_tool name id token at_ run s) in
  requestTracker s' !! id = None ∧
  ∀ id', id' ≠ id →
    (is_Some (requestTracker s' !! id') ↔ is_Some (requestTracker s !! id')).
Proof.
  intros Hfresh s'. subst s'. rewrite on_call_tool_eq by done. cbv zeta.
  set (s0 := {| requestTracker := _; logged := logged s |}).
  assert (∀ s1, requestTracker (on_call_tool_finally id s1) !! id = None) as Hgone
    by (intros s1; unfold on_call_tool_finally, RequestTracker.cleanup; simpl;
        by rewrite lookup_delete_eq).
  assert (∀ s1 id', id' ≠ id →
            (is_Some (requestTracker s1 !! id') ↔ is_Some (requestTracker s0 !! id')) →
            (is_Some (requestTracker (on_call_tool_finally id s1) !! id')
             ↔ is_Some (requestTracker s !! id'))) as Hothers.
  { intros s1 id' Hne Hsame. unfold on_call_tool_finally, RequestTracker.cleanup. simpl.
    rewrite lookup_delete_ne by done. rewrite Hsame. unfold s0. simpl.
    by rewrite lookup_insert_ne. }
  destruct (dispatch name) as [tools|]; cbn [snd];
    [|split; [apply Hgone | by intros id' Hne; apply Hothers]].
  destruct (initialization run) as [e|]; cbn [snd].
  - split; [apply Hgone|]. intros id' Hne. apply Hothers; [done|]. apply notify_all_registry.
  - destruct (clientMethod tools name) as [method|]; cbn [snd]; (split; [apply Hgone|]);
      intros id' Hne; apply Hothers; try done.
    + etrans; apply notify_all_registry.
    + apply notify_all_registry.
Qed.

Lemma on_call_tool_unregisters_witness :
  let other := {| RequestTracker.requestId := "3"; RequestTracker.toolName := "gmail_list";
                  RequestTracker.progressToken := None;
                  RequestTracker.abortController := RequestTracker.NotAborted;
                  RequestTracker.registeredAt := 900%N |} in
  let s := {| requestTracker := {[ "3" := other ]}; logged := [] |} in
  let failing :=
    {| initialization := Some (Error "GOOGLE_CLIENT_ID environment variable is required");
       during_initialization := [("7", None); ("3", None)];
       client := fun _ => inr "{}"; during_client := [] |} in
  let s' := snd (on_call_tool "google-drive_get_file" "7" None 1000 failing s) in
  requestTracker s' !! "7" = None ∧ is_Some (requestTracker s' !! "3").
Proof.
  intros other s failing s'.
  destruct (on_call_tool_unregisters "google-drive_get_file" "7" None 1000 failing s eq_refl)
    as [Hgone Hothers].
  split; [exact Hgone|]. apply Hothers; [done|]. by eexists.
Defined.

(** ** Configuration *)

Module ConfigFacts.
Import Config.

Lemma push_if_nil (condition : bool) (message : string) (errors : list string) :
  push_if condition message errors = [] ↔ condition = false ∧ errors = [].
Proof.
  unfold push_if. destruct condition.
  - split; [by intros [_ [=]]%app_eq_nil | by intros [[=] _]].
  - by split; [|intros [_ ?]].
Qed.

Lemma isValid_errors (env : Env) (config : ServerConfig) :
  isValid (validateConfig env config) = true ↔ errors (validateConfig env config) = [].
Proof.
  unfold validateConfig. simpl. rewrite Nat.eqb_eq. apply length_zero_iff_nil.
Qed.

Lemma oauth_errors_nil (env : Env) (errors : list string) :
  oauth_errors env errors = [] ↔ env_set env "GOOGLE_OAUTH_CREDENTIALS" = true ∧ errors = [].
Proof.
  unfold oauth_errors. cbv zeta. rewrite !push_if_nil, negb_false_iff. tauto.
Qed.

Lemma number_in_range (a : number) (lo hi : Z) :
  lt a lo || gt a hi = false ↔ ∀ n, a = Some n → (lo ≤ n ≤ hi)%Z.
Proof.
  destruct a as [n|]; simpl; [|by split; [intros _ ? [=] | ]].
  rewrite orb_false_iff, !Z.ltb_ge. split.
  - intros [? ?] ? [= <-]. lia.
  - intros Hn. by apply Hn.
Qed.

Lemma number_at_least (a : number) (lo : Z) :
  lt a lo = false ↔ ∀ n, a = Some n → (lo ≤ n)%Z.
Proof.
  destruct a as [n|]; simpl; [|by split; [intros _ ? [=] | ]].
  rewrite Z.ltb_ge. split; [by intros ? ? [= <-] | intros Hn; by apply Hn].
Qed.

Lemma logShipping_errors_nil (l : LogShipping) :
  logShipping_errors l [] = [] ↔
  (enabled l = true →
   String.prefix "https://" (endpoint l) = true ∧
   (requireApiKey l = true → missing (apiKey l) = false) ∧
   (∀ n, batchSize l = Some n → (1 ≤ n ≤ 1000)%Z) ∧
   (∀ n, flushInterval l = Some n → (1000 ≤ n)%Z) ∧
   logLevel l ∈ logLevels).
Proof.
  unfold logShipping_errors. destruct (enabled l); [|by split].
  cbv zeta. rewrite !push_if_nil, number_in_range, number_at_least.
  rewrite negb_false_iff, existsb_exists. setoid_rewrite String.eqb_eq.
  rewrite list_elem_of_In.
  assert (empty (endpoint l) = false ∧
          negb (empty (endpoint l)) && negb (String.prefix "https://" (endpoint l)) = false
          ↔ String.prefix "https://" (endpoint l) = true) as Hhttps.
  { unfold empty. destruct (String.eqb_spec (endpoint l) "") as [->|Hne].
    - split; [by intros [[=] _] | intros Hprefix; by vm_compute in Hprefix].
    - cbn [negb andb]. destruct (String.prefix _ _); by split; [intros [_ ?]|]. }
  assert (requireApiKey l && missing (apiKey l) = false
          ↔ (requireApiKey l = true → missing (apiKey l) = false)) as Hkey.
  { destruct (requireApiKey l), (missing (apiKey l)); simpl; split; auto; by intros []. }
  rewrite <- Hhttps, Hkey. split.
  - intros (Hlevel & Hinterval & Hbatch & Hprefix & Hrequired & Hendpoint & _) _.
    destruct Hlevel as (level & Hin & <-).
    split; [by split|]. split; [done|]. split; [done|]. by split.
  - intros Hall. destruct Hall as ((Hendpoint & Hprefix) & Hrequired & Hbatch & Hinterval & Hlevel);
      [done|].
    split; [by exists (logLevel l)|]. split; [done|]. split; [done|]. split; [done|].
    split; [done|]. by split.
Qed.

End ConfigFacts.

(** X16.  Which environments let the server start: the configuration
    that [loadConfig] reads is valid exactly when
    [GOOGLE_OAUTH_CREDENTIALS] is set and not empty and, if
    [LOG_SHIPPING_ENABLED] is [true], the ingestion URL starts with
    [https://], the API key is set when it is required, the batch size is
    between 1 and 1000 and the interval at least 1000 unless they do not
    parse as numbers (a value without a leading digit passes), and the log
    level is one of the five names.  With log shipping off none of the log
    settings is checked; the number of retries is never checked. *)
Theorem loadConfig_valid (env : Config.Env) :
  Config.isValid (Config.validateConfig env (Config.loadConfig env)) = true ↔
  Config.env_set env "GOOGLE_OAUTH_CREDENTIALS" = true ∧
  (Config.env_true env "LOG_SHIPPING_ENABLED" = true →
   String.prefix "https://" (Config.env_or env "LOG_INGESTION_URL" "") = true ∧
   (Config.env_true env "LOG_SHIPPING_REQUIRE_API_KEY" = true →
    Config.env_set env "LOG_INGESTION_API_KEY" = true) ∧
   (∀ n, Config.parseInt (Config.env_or env "LOG_SHIPPING_BATCH_SIZE" "500") = Some n →
         (1 ≤ n ≤ 1000)%Z) ∧
   (∀ n, Config.parseInt (Config.env_or env "LOG_SHIPPING_INTERVAL" "5000") = Some n →
         (1000 ≤ n)%Z) ∧
   Config.env_or env "LOG_LEVEL" "ERROR" ∈ Config.logLevels).
Proof.
  rewrite ConfigFacts.isValid_errors. unfold Config.validateConfig. cbn [Config.errors].
  rewrite ConfigFacts.oauth_errors_nil, ConfigFacts.logShipping_errors_nil.
  cbn [Config.loadConfig Config.logShipping Config.enabled Config.endpoint Config.apiKey
       Config.requireApiKey Config.batchSize Config.flushInterval Config.logLevel].
  assert (Config.missing (if Config.env_set env "LOG_INGESTION_API_KEY"
                          then env !! "LOG_INGESTION_API_KEY" else None) = false
          ↔ Config.env_set env "LOG_INGESTION_API_KEY" = true) as ->; [|done].
  unfold Config.env_set, Config.missing, Config.empty.
  destruct (env !! "LOG_INGESTION_API_KEY") as [v|]; [|by split].
  destruct (String.eqb v "") eqn:Hempty; simpl; rewrite ?Hempty; by split.
Qed.


Lemma loadConfig_valid_witness :
  let env : Config.Env :=
    {[ "GOOGLE_OAUTH_CREDENTIALS" := "{}"; "LOG_SHIPPING_ENABLED" := "true";
       "LOG_INGESTION_URL" := "https://logs.example.com";
       "LOG_SHIPPING_BATCH_SIZE" := "many"; "LOG_SHIPPING_MAX_RETRIES" := "-1" ]} in
  let padded : Config.Env :=
    <[ "LOG_SHIPPING_BATCH_SIZE" := String "194" (String "160" "5000") ]> env in
  Config.batchSize (Config.logShipping (Config.loadConfig env)) = None ∧
  Config.isValid (Config.validateConfig env (Config.loadConfig env)) = true ∧
  Config.batchSize (Config.logShipping (Config.loadConfig padded)) = Some 5000%Z ∧
  Config.isValid (Config.validateConfig padded (Config.loadConfig padded)) ≠ true.
Proof.
  intros env padded. split; [by vm_compute|]. split; [|split; [by vm_compute|]].
  - apply (loadConfig_valid env). split; [by vm_compute|]. intros _.
    split; [by vm_compute|]. split; [by vm_compute|].
    split; [intros n Hn; by vm_compute in Hn|].
    split; [intros n Hn; vm_compute in Hn; injection Hn as <-; lia|].
    change (Config.env_or env "LOG_LEVEL" "ERROR") with "ERROR".
    unfold Config.logLevels. rewrite !elem_of_cons. auto.
  - intros Hvalid. apply (loadConfig_valid padded) in Hvalid as (_ & Hlog).
    destruct Hlog as (_ & _ & Hbatch & _); [by vm_compute|].
    specialize (Hbatch 5000%Z). vm_compute in Hbatch. by destruct Hbatch.
Defined.

(** X17.  [validateConfig] takes the OAuth credentials from the
    environment, not from the configuration it is given: whatever the
    configuration holds, it is invalid when [GOOGLE_OAUTH_CREDENTIALS] is
    unset or empty, and the reported errors then end with one message for
    each of the four Google services, in the order gmail, drive, calendar,
    contacts; and it is valid, without errors, when the variable is set and
    log shipping is off. *)
Theorem validateConfig_credentials (env : Config.Env) (config : Config.ServerConfig) :
  (Config.env_set env "GOOGLE_OAUTH_CREDENTIALS" = false →
   Config.isValid (Config.validateConfig env config) = false ∧
   ∃ log_errors,
     Config.errors (Config.validateConfig env config) =
     log_errors ++
     ["GOOGLE_OAUTH_CREDENTIALS environment variable is required for google-gmail OAuth authentication";
      "GOOGLE_OAUTH_CREDENTIALS environment variable is required for google-drive OAuth authentication";
      "GOOGLE_OAUTH_CREDENTIALS environment variable is required for google-calendar OAuth authentication";
      "GOOGLE_OAUTH_CREDENTIALS environment variable is required for google-contacts OAuth authentication"]) ∧
  (Config.env_set env "GOOGLE_OAUTH_CREDENTIALS" = true →
   Config.enabled (Config.logShipping config) = false →
   Config.validateConfig env config = {| Config.isValid := true; Config.errors := [] |}).
Proof.
  unfold Config.validateConfig, Config.oauth_errors. cbv zeta. split.
  - intros ->. unfold Config.push_if. simpl.
    rewrite <- !app_assoc. simpl. split; [|by eexists].
    rewrite length_app. simpl. by rewrite Nat.add_comm.
  - intros -> Hoff. unfold Config.logShipping_errors. by rewrite Hoff.
Qed.

Lemma validateConfig_credentials_witness :
  let env : Config.Env := {[ "LOG_SHIPPING_ENABLED" := "false" ]} in
  Config.isValid (Config.validateConfig env (Config.loadConfig env)) = false ∧
  Config.validateConfig (<["GOOGLE_OAUTH_CREDENTIALS" := "{}"]> env)
    (Config.loadConfig (<["GOOGLE_OAUTH_CREDENTIALS" := "{}"]> env))
  = {| Config.isValid := true; Config.errors := [] |}.
Proof.
  intros env. split.
  - by apply (validateConfig_credentials env (Config.loadConfig env)).
  - by apply (validateConfig_credentials (<["GOOGLE_OAUTH_CREDENTIALS" := "{}"]> env)
                (Config.loadConfig (<["GOOGLE_OAUTH_CREDENTIALS" := "{}"]> env))).
Defined.

(** ** A refresh is kept *)

(** X18.  A refresh that succeeds is stored and used: when the stored
    credential is within 5 minutes of expiry and the token endpoint answers
    the refresh with a credential that has an access token and is more than
    5 minutes from expiry, [getValidAccessToken] returns the new access
    token after one request, the answer is what [getTokens] loads
    afterwards, and the next call returns the same token without a further
    request and without changing anything. *)
Theorem getValidAccessToken_refresh_kept `{RuntimeLaws}
    (fuel fuel' : nat) (w : World) (tokens credentials : OAuth2Tokens)
    (refreshToken a : string) :
  getTokens tokenManager "default" w = (Ok (Some tokens), w) →
  (or_zero (expiry_date tokens) ≤ Z.of_N (now w) + 5 * 60 * 1000)%Z →
  truthy (refresh_token tokens) = Some refreshToken →
  refresh_endpoint w (length (refresh_calls w)) refreshToken = inr credentials →
  truthy (access_token credentials) = Some a →
  (Z.of_N (now w) + 5 * 60 * 1000 < or_zero (expiry_date credentials))%Z →
  fs_fault w = None →
  ∃ w',
    getValidAccessToken (S fuel) w = (Ok a, w') ∧
    refresh_calls w' = refresh_calls w ++ [refreshToken] ∧
    getTokens tokenManager "default" w' = (Ok (Some credentials), w') ∧
    getValidAccessToken (S fuel') w' = (Ok a, w').
Proof.
  intros Hload Hnear Hrefresh Hanswer Htoken Hfresh Hfault.
  rewrite (getValidAccessToken_stored fuel w tokens Hload).
  destruct (Z.geb_spec (Z.of_N (now w) + 5 * 60 * 1000) (or_zero (expiry_date tokens)));
    [|lia].
  rewrite Hrefresh, refreshTokens_eq. cbv zeta. rewrite Hanswer.
  set (sent := set_refresh_calls (refresh_calls w ++ [refreshToken]) w).
  pose proof (storeTokens_ok tokenManager credentials "default" sent Hfault) as Hok.
  pose proof (getTokens_storeTokens tokenManager credentials "default" sent Hfault) as Hkept.
  destruct (storeTokens_storage_only tokenManager credentials "default" sent)
    as [(Hnow&_&_&_&_&_&_&Hcalls&_) _].
  destruct (storeTokens tokenManager credentials "default" sent) as [r w'].
  simpl in Hok, Hkept, Hnow, Hcalls. subst r. rewrite Htoken.
  exists w'. split; [done|]. split; [done|]. split; [done|].
  rewrite (getValidAccessToken_stored fuel' w' credentials Hkept), Hnow. simpl.
  destruct (Z.geb_spec (Z.of_N (now w) + 5 * 60 * 1000) (or_zero (expiry_date credentials)));
    [lia|].
  by rewrite Htoken.
Qed.

Lemma getValidAccessToken_refresh_kept_witness :
  ∃ w',
    getValidAccessToken 1 Examples.expiring = (Ok "ya29.refresh-0", w') ∧
    refresh_calls w' = ["1//refresh"] ∧
    getTokens tokenManager "default" w' = (Ok (Some (Examples.refreshed 0)), w') ∧
    getValidAccessToken 1 w' = (Ok "ya29.refresh-0", w').
Proof.
  apply (getValidAccessToken_refresh_kept 0 0 Examples.expiring Examples.credential
           (Examples.refreshed 0) "1//refresh" "ya29.refresh-0");
    solve [by vm_compute | reflexivity].
Defined.

(** ** One user's record and another's *)

Section Fileless.
Context {A B : Type}.

Lemma fileless_ret (a : A) : fileless (mret a).
Proof. by intros w. Qed.

Lemma fileless_throw (e : exn) : fileless (@throw A e).
Proof. by intros w. Qed.

Lemma fileless_lift (r : exn + A) : fileless (lift r).
Proof. by destruct r; intros w. Qed.

Lemma fileless_bind (c : M A) (k : A → M B) :
  fileless c → (∀ a, fileless (k a)) → fileless (c ≫= k).
Proof.
  intros Hc Hk w. run. destruct (Hc w) as (Hw & Hsame). split.
  - destruct (c w) as [[a| |] w1]; simpl in *; subst; [apply Hk | done | done].
  - intros w' Hw'. specialize (Hsame w' Hw').
    destruct (Hc w') as (Hw1 & _).
    destruct (c w) as [r w1], (c w') as [r' w1']; simpl in *; subst.
    destruct r as [a| |]; [|done..]. by apply Hk.
Qed.

Lemma fileless_try_catch (c : M A) (h : exn → M A) :
  fileless c → (∀ e, fileless (h e)) → fileless (try_catch c h).
Proof.
  intros Hc Hh w. run. destruct (Hc w) as (Hw & Hsame). split.
  - destruct (c w) as [[a| |] w1]; simpl in *; subst; [done | apply Hh | done].
  - intros w' Hw'. specialize (Hsame w' Hw').
    destruct (Hc w') as (Hw1 & _).
    destruct (c w) as [r w1], (c w') as [r' w1']; simpl in *; subst.
    destruct r as [a| |]; [done| |done]. by apply Hh.
Qed.

End Fileless.

Lemma fileless_keytar_getPassword (service account : option json) :
  fileless (keytar_getPassword service account).
Proof.
  intros w. unfold keytar_getPassword. split.
  - destruct (keytar w); [done|].
    destruct service as [[]|], account as [[]|]; done.
  - intros w' (_ & _ & _ & _ & ->).
    destruct (keytar w); [done|].
    destruct service as [[]|], account as [[]|]; done.
Qed.

Lemma fileless_getDerivedKey `{Runtime} : fileless getDerivedKey.
Proof.
  intros w. split; [done|].
  intros w' (_ & Hhost & Huser & _). unfold getDerivedKey. simpl.
  by rewrite Hhost, Huser.
Qed.

Ltac fileless :=
  repeat first
    [ apply fileless_keytar_getPassword | apply fileless_getDerivedKey
    | apply fileless_ret | apply fileless_throw | apply fileless_lift
    | apply fileless_bind; [|intros ?]
    | apply fileless_try_catch; [|intros ?]
    | match goal with
      | |- fileless (match ?x with _ => _ end) => destruct x
      end ].

Section OtherUsers.
Context `{Runtime}.
Variable this : TokenManager.

(** Deciphering a record reads the keychain and the identity of the
    machine, and no file. *)
Lemma fileless_decryptTokenData (encryptedData : string) :
  fileless (decryptTokenData encryptedData).
Proof.
  unfold decryptTokenData, decryptFromKeychain, decryptTokenDataFile, parse, Buffer_from,
    decipher_update.
  fileless.
Qed.

(** [getTokens] reads one file. *)
Lemma getTokens_one_file (userId : string) (w w' : World) :
  same_keychain w w' →
  files w' !! path_join (tokenPath this w) (userId +:+ ".json")
  = files w !! path_join (tokenPath this w) (userId +:+ ".json") →
  fst (getTokens this userId w') = fst (getTokens this userId w).
Proof.
  intros Hsame Hfile. pose proof Hsame as (Hhome & _ & _ & Hfault & _).
  unfold getTokens, tokenFile, fs_pathExists, fs_readFile. run. cbn.
  assert (tokenPath this w' = tokenPath this w) as -> by (unfold tokenPath; by rewrite Hhome).
  rewrite Hfile.
  destruct (files w !! _) as [content|] eqn:Hcontent;
    [|by rewrite bool_decide_eq_false_2 by by intros [? [=]]].
  rewrite bool_decide_eq_true_2 by by eexists. cbn. rewrite Hfault, Hfile, Hcontent.
  destruct (fs_fault w); [done|].
  destruct (fileless_decryptTokenData content w) as [_ Hsame'].
  specialize (Hsame' w' Hsame).
  destruct (decryptTokenData content w) as [r w1], (decryptTokenData content w') as [r' w1'].
  simpl in Hsame'. subst r'. by destruct r.
Qed.

End OtherUsers.



(** ** Start-up *)

(** Validation reads eight variables of the environment. *)
Lemma validateConfig_reads (env : Config.Env) (name value : string) :
  name ∉ ["LOG_SHIPPING_ENABLED"; "LOG_INGESTION_URL"; "LOG_INGESTION_API_KEY";
          "LOG_SHIPPING_REQUIRE_API_KEY"; "LOG_SHIPPING_BATCH_SIZE";
          "LOG_SHIPPING_INTERVAL"; "LOG_SHIPPING_MAX_RETRIES"; "LOG_LEVEL";
          "GOOGLE_OAUTH_CREDENTIALS"] →
  Config.loadConfig (<[name := value]> env) = Config.loadConfig env ∧
  ∀ config, Config.validateConfig (<[name := value]> env) config
            = Config.validateConfig env config.
Proof.
  rewrite !not_elem_of_cons. intros (?&?&?&?&?&?&?&?&?&_).
  unfold Config.loadConfig, Config.validateConfig, Config.oauth_errors,
    Config.env_or, Config.env_set, Config.env_true.
  unfold Config.Env in env.
  by rewrite !(lookup_insert_ne env name) by done.
Qed.

(** X20.  Validation does not look at [GOOGLE_CLIENT_ID] (nor at
    [GOOGLE_CLIENT_SECRET]), which the OAuth client needs: whatever these
    two are set to, the configuration that is loaded and its validation are
    the same.  And while [GOOGLE_CLIENT_ID] is unset or empty, the
    initialization of every tool group fails with [GOOGLE_CLIENT_ID
    environment variable is required] (reported before a missing secret)
    and leaves the group uninitialized, so that every call of a listed tool,
    unless it is cancelled meanwhile, is rejected with [InternalError] and
    [Tool execution failed: GOOGLE_CLIENT_ID environment variable is
    required], the first call and each one after it. *)
Theorem client_id_not_validated (env : Config.Env) (name id : string)
    (token : option string) (at_ : N) (run : execution) (s : Server) :
  Config.env_set env "GOOGLE_CLIENT_ID" = false →
  (∀ variable value,
     variable = "GOOGLE_CLIENT_ID" ∨ variable = "GOOGLE_CLIENT_SECRET" →
     Config.validateConfig (<[variable := value]> env)
       (Config.loadConfig (<[variable := value]> env))
     = Config.validateConfig env (Config.loadConfig env)) ∧
  ensureInitialized env false
  = (Some (Error "GOOGLE_CLIENT_ID environment variable is required"), false) ∧
  (requestTracker s !! id = None →
   name ∈ on_list_tools →
   initialization run = fst (ensureInitialized env false) →
   id ∉ map fst (during_initialization run) →
   fst (on_call_tool name id token at_ run s)
   = inl (McpError InternalError
            "Tool execution failed: GOOGLE_CLIENT_ID environment variable is required")).
Proof.
  intros Hunset.
  assert (ensureInitialized env false
          = (Some (Error "GOOGLE_CLIENT_ID environment variable is required"), false))
    as Hinit by (unfold ensureInitialized, initialize; by rewrite Hunset).
  split; [|split; [done|]].
  - intros variable value Hvariable.
    destruct (validateConfig_reads env variable value) as [-> ->]; [|done].
    rewrite !not_elem_of_cons.
    destruct Hvariable as [->| ->]; repeat (split; [done|]); by intros ?%elem_of_nil.
  - intros Hfresh [tools Hdispatch]%on_list_tools_dispatch Hrun Hquiet.
    rewrite on_call_tool_eq by done. cbv zeta.
    rewrite Hdispatch, Hrun, Hinit. cbn [fst].
    by rewrite bool_decide_eq_false_2.
Qed.

Lemma client_id_not_validated_witness :
  let env : Config.Env :=
    {[ "GOOGLE_OAUTH_CREDENTIALS" := "{}"; "GOOGLE_CLIENT_SECRET" := "s3cret" ]} in
  let run :=
    {| initialization := fst (ensureInitialized env false); during_initialization := [];
       client := fun _ => inr "{}"; during_client := [] |} in
  Config.isValid (Config.validateConfig env (Config.loadConfig env)) = true ∧
  fst (on_call_tool "google-gmail_list_messages" "1" None 0 run
         {| requestTracker := ∅; logged := [] |})
  = inl (McpError InternalError
           "Tool execution failed: GOOGLE_CLIENT_ID environment variable is required").
Proof.
  intros env run. split; [by vm_compute|].
  destruct (client_id_not_validated env "google-gmail_list_messages" "1" None 0 run
              {| requestTracker := ∅; logged := [] |} eq_refl) as (_ & _ & Hcall).
  apply Hcall; [reflexivity | | reflexivity | by intros ?%elem_of_nil].
  unfold on_list_tools. rewrite !elem_of_app. left. by left.
Defined.

(** ** [isAuthenticated] and [getValidAccessToken] *)

Section Silent.
Context `{Runtime}.

(** Every authorization is counted, however it ends. *)
Lemma authorize_counted (w : World) :
  authorize_calls (snd (authorize w)) = S (authorize_calls w).
Proof.
  rewrite authorize_eq. cbv zeta.
  destruct (awaited _) as [c| |]; [|done..].
  destruct (code_endpoint w c) as [m|tokens]; [done|].
  by destruct (storeTokens_storage_only tokenManager tokens "default"
                 (set_authorize_calls (S (authorize_calls w)) w))
    as [(_&_&_&_&_&_&_&_&_&_&->) _].
Qed.

(** The count of authorizations never goes down. *)
Lemma getValidAccessToken_counts (fuel : nat) (w : World) :
  (authorize_calls w ≤ authorize_calls (snd (getValidAccessToken fuel w)))%nat.
Proof.
  revert w. induction fuel as [|fuel IH]; intros w; [done|].
  destruct (getTokens_settles tokenManager "default" w) as [[tokens|] Hload].
  - by destruct (getValidAccessToken_stored_settles fuel w tokens Hload) as [-> _].
  - rewrite (getValidAccessToken_nothing_stored _ _ Hload).
    pose proof (authorize_counted w) as Hcount.
    destruct (authorize w) as [[[]| |] w1]; simpl in *; [|lia..].
    specialize (IH w1). lia.
Qed.

End Silent.

(** X21.  [isAuthenticated] answers [true] exactly when
    [getValidAccessToken] returns a token and leaves everything as it was:
    no request to the token endpoint, no consent flow, nothing written. *)
Theorem isAuthenticated_iff_silent `{Runtime} (fuel : nat) (w : World) :
  fst (isAuthenticated w) = Ok true ↔ ∃ a, getValidAccessToken (S fuel) w = (Ok a, w).
Proof.
  rewrite isAuthenticated_eq.
  destruct (getTokens_settles tokenManager "default" w) as [[tokens|] Hload]; rewrite Hload.
  - rewrite (getValidAccessToken_stored fuel w tokens Hload). cbn [fst].
    destruct (_ >=? _)%Z.
    + split; [by destruct (truthy (access_token tokens))|]. intros [a Hsilent].
      destruct (truthy (refresh_token tokens)) as [refreshToken|]; [|done].
      rewrite refreshTokens_eq in Hsilent. cbv zeta in Hsilent.
      destruct (refresh_endpoint w _ _) as [m|credentials].
      * injection Hsilent as _ Hsame. apply (f_equal (λ w, length (refresh_calls w))) in Hsame.
        simpl in Hsame. rewrite length_app in Hsame. simpl in Hsame. lia.
      * destruct (storeTokens_storage_only tokenManager credentials "default"
                    (set_refresh_calls (refresh_calls w ++ [refreshToken]) w))
          as [(_&_&_&_&_&_&_&Hcalls&_) _].
        destruct (storeTokens _ _ _ _) as [[[]| |] w']; simpl in Hcalls; [|done..].
        assert (w' = w) as ->
          by (destruct (truthy (access_token credentials)); by injection Hsilent).
        apply (f_equal length) in Hcalls. rewrite length_app in Hcalls.
        simpl in Hcalls. lia.
    + destruct (truthy (access_token tokens)) as [a|]; simpl.
      * split; [by eexists | done].
      * split; [done | by intros [a [=]]].
  - cbn [fst]. split; [done|]. intros [a Hsilent].
    rewrite (getValidAccessToken_nothing_stored _ _ Hload) in Hsilent.
    pose proof (authorize_counted w) as Hcount.
    destruct (authorize w) as [[[]| |] w1]; simpl in Hcount; [|done..].
    pose proof (getValidAccessToken_counts fuel w1) as Hmono.
    rewrite Hsilent in Hmono. simpl in Hmono. lia.
Qed.
